(** * Kantarion::Geometry: Point and Segment over IEEE 754 binary64

    A shallow embedding of [Geometry.h], [Point.h] and [Segment.h].
    [Scalar_t] is C++ [double]; it is modelled by the primitive binary64
    floats, whose operations are specified by [SpecFloat] (round to nearest,
    ties to even, NaN and signed zeros and infinities included).  Every
    operation is rounded once to binary64, as with SSE2 on x86-64: no
    extended precision and no fused multiply-add.  Expressions are evaluated
    in the order C++ gives them: [a * b + c * d + e * f] is
    [((a * b) + (c * d)) + (e * f)]. *)

From Stdlib Require Import ZArith Bool Lia List.
From Stdlib Require Import Reals Lra.
From Stdlib Require Import Floats.
From Stdlib Require Import Ascii.
From stdpp Require Import base option gmap strings.

Local Open Scope float_scope.

(** ** The functions of <cmath> and <algorithm> the sources call *)

Module Std.

(** [std::fabs]. *)
Definition fabs (x : float) : float := abs x.

(** [std::sqrt]: correctly rounded, NaN below zero, [-0] for [-0]. *)
Definition sqrt (x : float) : float := PrimFloat.sqrt x.

(** [std::max(a, b)] is [(a < b) ? b : a]. *)
Definition max (a b : float) : float := if a <? b then b else a.

(** [std::clamp(v, lo, hi)]: [lo] if [v < lo], [hi] if [hi < v],
    otherwise [v]; a NaN compares false both times and is returned. *)
Definition clamp (v lo hi : float) : float :=
  if v <? lo then lo else if hi <? v then hi else v.

End Std.

(** ** Geometry.h *)

Definition Scalar_t : Set := float.
Definition Coordinate_t : Set := Scalar_t.
Definition Distance_t : Set := Coordinate_t.

(** [std::numeric_limits<double>::epsilon()], that is 2^-52. *)
Definition sc_Precision : Scalar_t := 0x1p-52.
Definition sc_ParametricL : Scalar_t := 0.
Definition sc_ParametricH : Scalar_t := 1.

(** [EXPECT_NEAR(a, b, tol)] of the test suites: [fabs(a - b) <= tol]. *)
Definition near (a b tol : Scalar_t) : bool := Std.fabs (a - b) <=? tol.

(** ** Point.h *)

Record Point : Set := mkPoint { m_X : Coordinate_t; m_Y : Coordinate_t; m_Z : Coordinate_t }.

Module PointOps.

(** [Point()], every argument defaulted to [Coordinate_t{}]. *)
Definition default : Point := mkPoint 0 0 0.

Definition nearlyEqual (p_ValueA p_ValueB p_Epsilon : Scalar_t) : bool :=
  Std.fabs (p_ValueA - p_ValueB)
    <=? p_Epsilon * Std.max (Std.fabs p_ValueA) (Std.fabs p_ValueB).

Definition getX (p : Point) : Coordinate_t := m_X p.
Definition getY (p : Point) : Coordinate_t := m_Y p.
Definition getZ (p : Point) : Coordinate_t := m_Z p.

Definition setX (p : Point) (v : Coordinate_t) : Point := mkPoint v (m_Y p) (m_Z p).
Definition setY (p : Point) (v : Coordinate_t) : Point := mkPoint (m_X p) v (m_Z p).
Definition setZ (p : Point) (v : Coordinate_t) : Point := mkPoint (m_X p) (m_Y p) v.

Definition magnitude (p : Point) : Distance_t :=
  Std.sqrt (m_X p * m_X p + m_Y p * m_Y p + m_Z p * m_Z p).

(** [l_Magnitude > sc_Precision] is the comparison
    [sc_Precision < l_Magnitude]. *)
Definition normalize (p : Point) : Point :=
  let l_Magnitude := magnitude p in
  if sc_Precision <? l_Magnitude
  then mkPoint (m_X p / l_Magnitude) (m_Y p / l_Magnitude) (m_Z p / l_Magnitude)
  else default.

(** [operator==]; [&&] evaluates left to right, as [andb] does. *)
Definition op_eq (p p_Other : Point) : bool :=
  nearlyEqual (m_X p) (m_X p_Other) sc_Precision
  && nearlyEqual (m_Y p) (m_Y p_Other) sc_Precision
  && nearlyEqual (m_Z p) (m_Z p_Other) sc_Precision.

Definition op_ne (p p_Other : Point) : bool := negb (op_eq p p_Other).

Definition distance (p p_Other : Point) : Distance_t :=
  let l_dX := m_X p_Other - m_X p in
  let l_dY := m_Y p_Other - m_Y p in
  let l_dZ := m_Z p_Other - m_Z p in
  Std.sqrt (l_dX * l_dX + l_dY * l_dY + l_dZ * l_dZ).

Definition op_add (p p_Other : Point) : Point :=
  mkPoint (m_X p + m_X p_Other) (m_Y p + m_Y p_Other) (m_Z p + m_Z p_Other).

Definition op_sub (p p_Other : Point) : Point :=
  mkPoint (m_X p - m_X p_Other) (m_Y p - m_Y p_Other) (m_Z p - m_Z p_Other).

Definition op_mul (p : Point) (p_Scalar : Scalar_t) : Point :=
  mkPoint (m_X p * p_Scalar) (m_Y p * p_Scalar) (m_Z p * p_Scalar).

Definition dot (p p_Other : Point) : Scalar_t :=
  m_X p * m_X p_Other + m_Y p * m_Y p_Other + m_Z p * m_Z p_Other.

Definition cross (p p_Other : Point) : Point :=
  mkPoint (m_Y p * m_Z p_Other - m_Z p * m_Y p_Other)
          (m_Z p * m_X p_Other - m_X p * m_Z p_Other)
          (m_X p * m_Y p_Other - m_Y p * m_X p_Other).

(** Not a member of [Point]: the componentwise negation the cross
    product is compared with. *)
Definition negate (p : Point) : Point := mkPoint (- m_X p) (- m_Y p) (- m_Z p).

End PointOps.

(** ** Segment.h *)

Record Segment : Set := mkSegment { m_Start : Point; m_End : Point }.

Module SegmentOps.
Import PointOps.

(** [fabs(d) > sc_Precision] is the comparison [sc_Precision < fabs(d)]. *)
Definition closestDistance (p_Segment1 p_Segment2 : Segment) : Distance_t :=
  let l_D1 := op_sub (m_End p_Segment1) (m_Start p_Segment1) in
  let l_D2 := op_sub (m_End p_Segment2) (m_Start p_Segment2) in
  let l_R := op_sub (m_Start p_Segment1) (m_Start p_Segment2) in
  let l_A := dot l_D1 l_D1 in
  let l_E := dot l_D2 l_D2 in
  let l_F := dot l_D2 l_R in
  let l_B := dot l_D1 l_D2 in
  let l_C := dot l_D1 l_R in
  let l_Denominator := l_A * l_E - l_B * l_B in
  let '(l_S, l_T) :=
    if sc_Precision <? Std.fabs l_Denominator
    then ((l_B * l_F - l_C * l_E) / l_Denominator,
          (l_A * l_F - l_B * l_C) / l_Denominator)
    else (0, l_F / l_E) in
  let l_S := Std.clamp l_S sc_ParametricL sc_ParametricH in
  let l_T := Std.clamp l_T sc_ParametricL sc_ParametricH in
  let l_ClosestPoint1 := op_add (m_Start p_Segment1) (op_mul l_D1 l_S) in
  let l_ClosestPoint2 := op_add (m_Start p_Segment2) (op_mul l_D2 l_T) in
  distance l_ClosestPoint1 l_ClosestPoint2.

(** A segment from six coordinates, as the tests build them. *)
Definition seg (x1 y1 z1 x2 y2 z2 : Coordinate_t) : Segment :=
  mkSegment (mkPoint x1 y1 z1) (mkPoint x2 y2 z2).

End SegmentOps.

(** ** The algorithm as section 4.2 of the specification words it

    The vector operations of this module are written out on the coordinates,
    without the operators of [Point]: [closestDistance] is compared with
    them, not with itself. *)

Module Spec.

(** Restriction of a parameter to the closed interval [0, 1]. *)
Definition clamp01 (v : Scalar_t) : Scalar_t :=
  if v <? 0 then 0 else if 1 <? v then 1 else v.

(** The Euclidean distance between [p] and [q], coordinates of [q]
    subtracted from those of [p]. *)
Definition euclidean (p q : Point) : Distance_t :=
  Std.sqrt ((m_X p - m_X q) * (m_X p - m_X q)
            + (m_Y p - m_Y q) * (m_Y p - m_Y q)
            + (m_Z p - m_Z q) * (m_Z p - m_Z q)).

(** Steps 1 to 3: the denominator [a*e - b^2]. *)
Definition denominator (s1 s2 : Segment) : Scalar_t :=
  let d1 := PointOps.op_sub (m_End s1) (m_Start s1) in
  let d2 := PointOps.op_sub (m_End s2) (m_Start s2) in
  PointOps.dot d1 d1 * PointOps.dot d2 d2 - PointOps.dot d1 d2 * PointOps.dot d1 d2.

(** The vector [p - q]: each coordinate of [q] subtracted from that of [p]. *)
Definition difference (p q : Point) : Point :=
  mkPoint (m_X p - m_X q) (m_Y p - m_Y q) (m_Z p - m_Z q).

(** The dot product [u . v]: the sum of the products of the coordinates. *)
Definition inner (u v : Point) : Scalar_t :=
  m_X u * m_X v + m_Y u * m_Y v + m_Z u * m_Z v.

(** The point [p + v]. *)
Definition translated (p v : Point) : Point :=
  mkPoint (m_X p + m_X v) (m_Y p + m_Y v) (m_Z p + m_Z v).

(** Steps 1 to 5: [d1 = end1 - start1], [d2 = end2 - start2],
    [r = start1 - start2], the five dot products, the denominator, and the
    parameters [s] and [t] before clamping. *)
Definition parameters (s1 s2 : Segment) : Scalar_t * Scalar_t :=
  let d1 := difference (m_End s1) (m_Start s1) in
  let d2 := difference (m_End s2) (m_Start s2) in
  let r := difference (m_Start s1) (m_Start s2) in
  let a := inner d1 d1 in
  let e := inner d2 d2 in
  let f := inner d2 r in
  let b := inner d1 d2 in
  let c := inner d1 r in
  let denominator := a * e - b * b in
  if sc_Precision <? Std.fabs denominator
  then ((b * f - c * e) / denominator, (a * f - b * c) / denominator)
  else (0, f / e).

(** The vector [s * d]. *)
Definition scaled (s : Scalar_t) (d : Point) : Point :=
  mkPoint (s * m_X d) (s * m_Y d) (s * m_Z d).

(** Steps 6 to 8: the distance between [start1 + s*d1] and [start2 + t*d2]. *)
Definition closestDistance_spec (s1 s2 : Segment) : Distance_t :=
  let d1 := difference (m_End s1) (m_Start s1) in
  let d2 := difference (m_End s2) (m_Start s2) in
  let s := clamp01 (fst (parameters s1 s2)) in
  let t := clamp01 (snd (parameters s1 s2)) in
  euclidean (translated (m_Start s1) (scaled s d1)) (translated (m_Start s2) (scaled t d2)).

End Spec.

(** ** Objects in memory: the move constructor and move assignment

    A [Point&&] parameter is a reference: the operation writes to the object
    it is bound to.  Objects live in a store indexed by address, so that
    [this != &p_Other] is a comparison of addresses. *)

Module Objects.
Import PointOps.

Abbreviation addr := positive.
Abbreviation store := (gmap addr Point).

(** [std::exchange(obj.m_X, v)]: the old value is returned, [v] is stored. *)
Definition exchange_X (a : addr) (v : Coordinate_t) (h : store) : option (Coordinate_t * store) :=
  p ← h !! a; Some (m_X p, <[a := setX p v]> h).
Definition exchange_Y (a : addr) (v : Coordinate_t) (h : store) : option (Coordinate_t * store) :=
  p ← h !! a; Some (m_Y p, <[a := setY p v]> h).
Definition exchange_Z (a : addr) (v : Coordinate_t) (h : store) : option (Coordinate_t * store) :=
  p ← h !! a; Some (m_Z p, <[a := setZ p v]> h).

(** Assignment to a member of the object at [a]. *)
Definition assign_X (a : addr) (v : Coordinate_t) (h : store) : option store :=
  p ← h !! a; Some (<[a := setX p v]> h).
Definition assign_Y (a : addr) (v : Coordinate_t) (h : store) : option store :=
  p ← h !! a; Some (<[a := setY p v]> h).
Definition assign_Z (a : addr) (v : Coordinate_t) (h : store) : option store :=
  p ← h !! a; Some (<[a := setZ p v]> h).

(** [Point(Point&& p_Other)]: the members of the new object are
    initialised in declaration order, each from an exchange on [p_Other];
    the object is in the store at [this] once constructed. *)
Definition move_constructor (this p_Other : addr) (h : store) : option store :=
  '(x, h) ← exchange_X p_Other 0 h;
  '(y, h) ← exchange_Y p_Other 0 h;
  '(z, h) ← exchange_Z p_Other 0 h;
  Some (<[this := mkPoint x y z]> h).

(** [Point& operator=(Point&& p_Other)]. *)
Definition move_assign (this p_Other : addr) (h : store) : option store :=
  if decide (this = p_Other) then Some h
  else
    '(x, h) ← exchange_X p_Other 0 h;
    h ← assign_X this x h;
    '(y, h) ← exchange_Y p_Other 0 h;
    h ← assign_Y this y h;
    '(z, h) ← exchange_Z p_Other 0 h;
    assign_Z this z h.

(** Reading a member of the object at [a]. *)
Definition read_X (a : addr) (h : store) : option Coordinate_t := p ← h !! a; Some (m_X p).
Definition read_Y (a : addr) (h : store) : option Coordinate_t := p ← h !! a; Some (m_Y p).
Definition read_Z (a : addr) (h : store) : option Coordinate_t := p ← h !! a; Some (m_Z p).

(** [Point(const Point& p_Other)]. *)
Definition copy_constructor (this p_Other : addr) (h : store) : option store :=
  x ← read_X p_Other h;
  y ← read_Y p_Other h;
  z ← read_Z p_Other h;
  Some (<[this := mkPoint x y z]> h).

(** [Point& operator=(const Point& p_Other)]. *)
Definition copy_assign (this p_Other : addr) (h : store) : option store :=
  if decide (this = p_Other) then Some h
  else
    x ← read_X p_Other h;
    h ← assign_X this x h;
    y ← read_Y p_Other h;
    h ← assign_Y this y h;
    z ← read_Z p_Other h;
    assign_Z this z h.

End Objects.

(** ** Input streams: [operator>>]

    The stream is [std::istream] reduced to what the operator observes: the
    whitespace-separated fields still to be read; [failbit]; and whether the
    caller asked for exceptions on [failbit] with
    [exceptions(std::ios::failbit)] (the mask is empty by default; masks on
    [eofbit] and [badbit] are left out).  A field is a scalar
    that [double] represents, a number beyond the range of [double] (the
    conversion stores a limit value and fails), or not a number at all.  The
    operations are written in a state monad over the stream whose second
    outcome is a thrown [std::ios_base::failure]. *)

Module IStream.
Import PointOps.

Inductive field : Set :=
| Number (v : Scalar_t)
| OutOfRange (limit : Scalar_t)
| Malformed.

Record InputStream_t : Set := mkStream {
  fields : list field;
  failbit : bool;
  exceptions_failbit : bool
}.

Inductive result (A : Type) : Type :=
| Normal (a : A) (s : InputStream_t)
| Thrown (s : InputStream_t).
Arguments Normal {A} a s.
Arguments Thrown {A} s.

Definition io (A : Type) : Type := InputStream_t -> result A.

Definition ret {A : Type} (a : A) : io A := fun s => Normal a s.

Definition bind {A B : Type} (m : io A) (k : A -> io B) : io B :=
  fun s => match m s with
           | Normal a s' => k a s'
           | Thrown s' => Thrown s'
           end.

Notation "'do' x <- m ; k" := (bind m (fun x => k))
  (at level 10, x name, m at level 100, k at level 200).

(** [setstate(failbit)]: throws when the mask asks for it. *)
Definition setstate_failbit : io unit :=
  fun s =>
    let s' := mkStream (fields s) true (exceptions_failbit s) in
    if exceptions_failbit s then Thrown s' else Normal tt s'.

(** [operator bool] of the stream: [!fail()]. *)
Definition to_bool : io bool := fun s => Normal (negb (failbit s)) s.

(** [p_Stream >> v] for a [double] holding [v]: a stream that has failed
    is not read and [v] is kept; at the end of input the sentry fails and
    [v] is kept; a number out of range is read to its end, and the
    conversion stores the limit and fails; a malformed field stores zero and
    fails (C++11 and later). *)
Definition extract (v : Scalar_t) : io Scalar_t :=
  fun s =>
    if failbit s then (do u <- setstate_failbit; ret v) s
    else match fields s with
         | Number w :: rest => Normal w (mkStream rest false (exceptions_failbit s))
         | OutOfRange w :: rest =>
             (do u <- setstate_failbit; ret w) (mkStream rest false (exceptions_failbit s))
         | Malformed :: _ => (do u <- setstate_failbit; ret 0) s
         | [] => (do u <- setstate_failbit; ret v) s
         end.

(** [operator>>(p_Stream, p_Point)]: the new value of [p_Point]. *)
Definition op_extract (p_Point : Point) : io Point :=
  do x <- extract 0;
  do y <- extract 0;
  do z <- extract 0;
  do ok <- to_bool;
  if ok then ret (setZ (setY (setX p_Point x) y) z)
  else ret (setZ (setY (setX p_Point x) y) z).

(** The call as its caller sees it: whether it threw, the stream and the
    Point afterwards.  An exception leaves before either assignment. *)
Definition call_op_extract (s : InputStream_t) (p_Point : Point)
  : bool * InputStream_t * Point :=
  match op_extract p_Point s with
  | Normal p' s' => (false, s', p')
  | Thrown s' => (true, s', p_Point)
  end.

(** What the fields hold for x, y and z: the scalars read before the
    first failure, the limit stored by a field out of range, and the default
    zero for every other field. *)
Definition parsed_point (fs : list field) : Point :=
  match fs with
  | Number x :: Number y :: (Number z | OutOfRange z) :: _ => mkPoint x y z
  | Number x :: (Number y | OutOfRange y) :: _ => mkPoint x y 0
  | (Number x | OutOfRange x) :: _ => mkPoint x 0 0
  | _ => mkPoint 0 0 0
  end.

(** The value the operator commits when it returns. *)
Definition committed (s : InputStream_t) : Point :=
  if failbit s then default else parsed_point (fields s).

(** The read succeeds in full: the stream has not failed and starts with
    three well-formed scalars. *)
Definition reads_three (s : InputStream_t) : bool :=
  negb (failbit s)
  && match fields s with
     | Number _ :: Number _ :: Number _ :: _ => true
     | _ => false
     end.

End IStream.

(** ** Output streams: [operator<<] *)

Module Serial.

(** [p_Stream << "Point[" << x << ", " << y << ", " << z << "]"]: the text
    appended to the stream, [show] being the stream's formatting of a scalar. *)
Definition op_insert (show : Scalar_t -> String.string) (p_Stream : String.string)
    (p_Point : Point) : String.string :=
  String.append p_Stream
    (String.append "Point["
       (String.append (show (m_X p_Point))
          (String.append ", "
             (String.append (show (m_Y p_Point))
                (String.append ", "
                   (String.append (show (m_Z p_Point)) "]")))))).

(** A stream over a text, [lex] being the fields the extractions meet in it. *)
Definition open (lex : String.string -> list IStream.field) (text : String.string)
  : IStream.InputStream_t :=
  IStream.mkStream (lex text) false false.

(** A stand-in for the library's conversions, for use in examples: every
    scalar is written as [0], and a text is one field, a number only when it
    starts with a digit. *)
Definition show_zero (v : Scalar_t) : String.string := "0"%string.
Definition lex_first (text : String.string) : list IStream.field :=
  match text with
  | String.String c _ =>
      if (Nat.leb 48 (Ascii.nat_of_ascii c) && Nat.leb (Ascii.nat_of_ascii c) 57)%bool
      then [IStream.Number 0] else [IStream.Malformed]
  | String.EmptyString => []
  end.
End Serial.

(** ** Scenarios of the test suite and inputs used below *)

Module Scenarios.
Import PointOps SegmentOps.

(** [SegmentTest.SharedEndpoint]. *)
Definition shared1 : Segment := seg 0 0 0 3 3 3.
Definition shared2 : Segment := seg 3 3 3 6 6 6.

(** [SegmentTest.SkewSegments]. *)
Definition offset1 : Segment := seg 0 0 0 5 0 0.
Definition offset2 : Segment := seg 0 3 1 5 3 1.

(** [SegmentTest.DistantSegments]. *)
Definition distant1 : Segment := seg 0 0 0 1 1 1.
Definition distant2 : Segment := seg 10 10 10 15 15 15.

(** [SegmentTest.PerpendicularSegments]. *)
Definition crossing1 : Segment := seg 0 0 0 5 0 0.
Definition crossing2 : Segment := seg 2 (-2) 0 2 2 0.

(** A segment and a single point beside it. *)
Definition unit_x : Segment := seg 0 0 0 1 0 0.
Definition point_y : Segment := seg 0 1 0 0 1 0.

(** Finite coordinates whose differences and squares overflow. *)
Definition far_left : Segment := seg (-0x1p1023) 0 0 (-0x1p1023) 1 0.
Definition far_right : Segment := seg 0x1p1023 0 0 0x1p1023 0 1.

(** Two skew segments 2^600 apart: the square of their distance
    overflows. *)
Definition low : Segment := seg 0 0 0 1 0 0.
Definition high : Segment := seg 0 0x1p600 0 1 0x1p600 1.

Definition coordinates (s : Segment) : list Coordinate_t :=
  [m_X (m_Start s); m_Y (m_Start s); m_Z (m_Start s);
   m_X (m_End s); m_Y (m_End s); m_Z (m_End s)].

(** [PointTest.Normalize]. *)
Definition p122 : Point := mkPoint 1 2 2.

(** A finite Point whose squared length overflows. *)
Definition huge_x : Point := mkPoint 0x1p600 0 0.
Definition huge_yz : Point := mkPoint 0 0x1p600 0x1p600.

(** The Point (6.0, 5.7, 2.4), as the three nearest doubles. *)
Definition p_6_57_24 : Point :=
  mkPoint 6 0x1.6cccccccccccdp+2 0x1.3333333333333p+1.

(** [PointTest.AssignmentOperators]: an object holding (10, 11, 12) at
    address 1 and a default-constructed one at address 2. *)
Definition two_objects : gmap positive Point :=
  <[1%positive := mkPoint 10 11 12]> (<[2%positive := default]> ∅).

(** A stream whose only field is not a number, with exceptions asked for
    on [failbit], and one with the fields 4 and 5 and the default mask. *)
Definition throwing_stream : IStream.InputStream_t :=
  IStream.mkStream [IStream.Malformed] false true.
Definition short_stream : IStream.InputStream_t :=
  IStream.mkStream [IStream.Number 4; IStream.Number 5] false false.
Definition p123 : Point := mkPoint 1 2 3.

(** The same two objects and a third, default-constructed, at address 3. *)
Definition three_objects : gmap positive Point :=
  <[3%positive := default]> two_objects.

Definition is_origin (p : Point) : bool :=
  (m_X p =? 0) && (m_Y p =? 0) && (m_Z p =? 0).

End Scenarios.

(** ** Predicates of the statements *)

(** [x] is NaN or carries the sign [s]. *)
Definition signed_as (s : bool) (x : spec_float) : Prop :=
  match x with
  | S754_nan => True
  | S754_zero s' | S754_infinity s' | S754_finite s' _ _ => s' = s
  end.

(** Two scalars compare equal with C++ [==], or both are NaN. *)
Definition agree (u v : Scalar_t) : bool := (u =? v) || (is_nan u && is_nan v).

(** A zero of either sign, or NaN. *)
Definition zero_or_nan (x : spec_float) : Prop :=
  match x with
  | S754_zero _ | S754_nan => True
  | _ => False
  end.

(** The same scalar up to the sign of a zero. *)
Definition eqz (x y : spec_float) : Prop :=
  match x, y with
  | S754_zero _, S754_zero _ => True
  | _, _ => x = y
  end.

Definition same (u v : Scalar_t) : Prop := eqz (Prim2SF u) (Prim2SF v).

Definition psame (p q : Point) : Prop :=
  same (m_X p) (m_X q) /\ same (m_Y p) (m_Y q) /\ same (m_Z p) (m_Z q).

(** Neither NaN nor below zero, and not the zero of sign minus. *)
Definition plus_class (x : spec_float) : Prop :=
  match x with
  | S754_nan => False
  | S754_zero s | S754_infinity s | S754_finite s _ _ => s = false
  end.

(** No coordinate is NaN. *)
Definition no_nan (p : Point) : bool :=
  negb (is_nan (m_X p)) && negb (is_nan (m_Y p)) && negb (is_nan (m_Z p)).

(** Neither NaN nor infinite: [std::isfinite]. *)
Definition finite_point (p : Point) : bool :=
  is_finite (m_X p) && is_finite (m_Y p) && is_finite (m_Z p).

(** ** The real number behind a binary64 value *)

(** [2^e] for an integer exponent. *)
Definition p2 (e : Z) : R := powerRZ 2 e.

(** The number a finite value stands for; 0 for the zeros, and for NaN and
    the infinities, which stand for no number. *)
Definition SF2R (x : spec_float) : R :=
  match x with
  | S754_finite s m e => ((if s then -1 else 1) * IZR (Zpos m) * p2 e)%R
  | _ => 0%R
  end.

Definition value (x : Scalar_t) : R := SF2R (Prim2SF x).

(** The sign as a factor. *)
Definition sgn (s : bool) : R := if s then (-1)%R else 1%R.

(** Zero or finite, on the specification side. *)
Definition SFfinite (x : spec_float) : bool :=
  match x with
  | S754_zero _ | S754_finite _ _ _ => true
  | _ => false
  end.

(** [x] is what rounding the real number [v] to binary64 gives: never NaN;
    finite when [v] is below [2^1023] in absolute value; and, when finite,
    within one unit in the last place of [v], that is a relative error of
    [2^-52] at most, or an absolute error of [2^-1074] below the normal
    range. *)
Definition rounded (v : R) (x : Scalar_t) : Prop :=
  is_nan x = false
  /\ ((Rabs v < p2 1023)%R -> is_finite x = true)
  /\ (is_finite x = true ->
      (Rabs (value x - v) <= p2 (-52) * Rabs v + p2 (-1074))%R).

(** Finite, and at most [2^k] in absolute value. *)
Definition bnd (k : Z) (x : Scalar_t) : Prop :=
  is_finite x = true /\ (Rabs (value x) <= p2 k)%R.

Definition pbnd (k : Z) (p : Point) : Prop :=
  bnd k (m_X p) /\ bnd k (m_Y p) /\ bnd k (m_Z p).

(** Every coordinate of the segment is at most [bound] in absolute value,
    which a NaN or an infinity is not. *)
Definition within (bound : Scalar_t) (s : Segment) : bool :=
  forallb (fun c => Std.fabs c <=? bound) (Scenarios.coordinates s).

(** The parallel branch is taken and divides zero by zero: [l_F / l_E] with
    [l_F] and [l_E] both zero. *)
Definition zero_by_zero (s1 s2 : Segment) : bool :=
  let l_D2 := PointOps.op_sub (m_End s2) (m_Start s2) in
  let l_R := PointOps.op_sub (m_Start s1) (m_Start s2) in
  negb (sc_Precision <? Std.fabs (Spec.denominator s1 s2))
  && (PointOps.dot l_D2 l_D2 =? 0) && (PointOps.dot l_D2 l_R =? 0).

(** * Facts about binary64 arithmetic *)

Section SpecFloatFacts.

Local Abbreviation bra := (binary_round_aux prec emax).

Lemma bra_signed s m e l : signed_as s (bra s m e l).
Proof.
  unfold binary_round_aux.
  destruct (shr_fexp prec emax m e l) as [mrs' e'].
  destruct (shr_fexp prec emax _ e' loc_Exact) as [mrs'' e''].
  destruct (shr_m mrs''); simpl; auto.
  destruct (Z.leb _ _); simpl; auto.
Qed.

Lemma bra_opp s m e l : SFopp (bra s m e l) = bra (negb s) m e l.
Proof.
  unfold binary_round_aux.
  destruct (shr_fexp prec emax m e l) as [mrs' e'].
  destruct (shr_fexp prec emax _ e' loc_Exact) as [mrs'' e''].
  destruct (shr_m mrs''); simpl; auto.
  destruct (Z.leb _ _); simpl; auto.
Qed.

Lemma shr_1_nonneg mrs : (0 <= shr_m mrs)%Z -> (0 <= shr_m (shr_1 mrs))%Z.
Proof.
  destruct mrs as [m r s]; simpl. destruct m as [|p|p]; simpl; try lia.
  - destruct p; simpl; lia.
Qed.

Lemma iter_pos_preserves {A : Type} (P : A -> Prop) (f : A -> A) :
  (forall x, P x -> P (f x)) -> forall n x, P x -> P (SpecFloat.iter_pos f n x).
Proof.
  intros Hf. induction n as [n IH|n IH|]; simpl; intros x Hx; auto.
Qed.

Lemma shr_nonneg mrs e n : (0 <= shr_m mrs)%Z -> (0 <= shr_m (fst (shr mrs e n)))%Z.
Proof.
  intros H. unfold shr. destruct n; simpl; auto.
  apply (iter_pos_preserves (fun r => (0 <= shr_m r)%Z)); auto using shr_1_nonneg.
Qed.

Lemma shr_record_of_loc_m m l : shr_m (shr_record_of_loc m l) = m.
Proof. destruct l as [|[]]; reflexivity. Qed.

Lemma shr_fexp_nonneg m e l : (0 <= m)%Z -> (0 <= shr_m (fst (shr_fexp prec emax m e l)))%Z.
Proof.
  intros H. unfold shr_fexp. apply shr_nonneg. now rewrite shr_record_of_loc_m.
Qed.

Lemma round_nearest_even_nonneg m l : (0 <= m)%Z -> (0 <= round_nearest_even m l)%Z.
Proof.
  intros H. unfold round_nearest_even. destruct l as [|[]]; try lia.
  destruct (Z.even m); lia.
Qed.

Lemma bra_not_nan s m e l : (0 <= m)%Z -> bra s m e l <> S754_nan.
Proof.
  intros H. unfold binary_round_aux.
  pose proof (shr_fexp_nonneg m e l H) as H1.
  destruct (shr_fexp prec emax m e l) as [mrs' e']. simpl in H1.
  pose proof (shr_fexp_nonneg _ e' loc_Exact
                (round_nearest_even_nonneg _ (loc_of_shr_record mrs') H1)) as H2.
  destruct (shr_fexp prec emax _ e' loc_Exact) as [mrs'' e'']. simpl in H2.
  destruct (shr_m mrs''); try lia; try discriminate.
  destruct (Z.leb _ _); discriminate.
Qed.

Lemma SFcompare_antisym x y :
  SFcompare y x = option_map CompOpp (SFcompare x y).
Proof.
  destruct x as [sx|sx| |sx mx ex], y as [sy|sy| |sy my ey]; simpl;
    try reflexivity;
    try (destruct sx; reflexivity); try (destruct sy; reflexivity);
    try (destruct sx, sy; reflexivity).
  destruct sx, sy; simpl; try reflexivity;
    rewrite (Z.compare_antisym ex ey); destruct (ex ?= ey)%Z; simpl; try reflexivity;
    rewrite (Pos.compare_cont_antisym); simpl; try reflexivity.
  now rewrite CompOpp_involutive.
Qed.

Lemma SFcompare_refl x : x <> S754_nan -> SFcompare x x = Some Eq.
Proof.
  destruct x as [s|s| |s m e]; simpl; intros H; try congruence.
  - destruct s; reflexivity.
  - destruct s; rewrite Z.compare_refl; f_equal.
    + rewrite Pos.compare_cont_refl. reflexivity.
    + now rewrite Pos.compare_cont_refl.
Qed.

Lemma SFmul_comm x y : SFmul prec emax x y = SFmul prec emax y x.
Proof.
  destruct x as [sx|sx| |sx mx ex], y as [sy|sy| |sy my ey]; simpl;
    try reflexivity; try (now rewrite xorb_comm).
  now rewrite xorb_comm, Pos.mul_comm, Z.add_comm.
Qed.


Lemma binary_normalize_opp m e :
  m <> 0%Z ->
  binary_normalize prec emax (- m) e false = SFopp (binary_normalize prec emax m e false).
Proof.
  intros Hm. destruct m as [|p|p]; simpl; try congruence; unfold binary_round;
    destruct (shl_align _ _ _) as [mz ez]; now rewrite bra_opp.
Qed.

(** x - y and y - x: opposite of each other, or both +0. *)
Lemma SFsub_swap x y :
  SFsub prec emax y x = SFopp (SFsub prec emax x y)
  \/ (SFsub prec emax x y = S754_zero false /\ SFsub prec emax y x = S754_zero false).
Proof.
  destruct x as [sx|sx| |sx mx ex], y as [sy|sy| |sy my ey]; simpl;
    try (left; reflexivity);
    try (destruct sx, sy; simpl; auto; fail);
    try (left; now rewrite negb_involutive).
  replace (IntDef.Z.min ey ex) with (IntDef.Z.min ex ey) by apply Z.min_comm.
  set (X := cond_Zopp sx _). set (Y := cond_Zopp sy _).
  destruct (Z.eq_dec (X - Y)%Z 0%Z) as [E|E].
  - right. replace (Y - X)%Z with 0%Z by lia. rewrite E. simpl. auto.
  - left. replace (Y - X)%Z with (- (X - Y))%Z by lia. now apply binary_normalize_opp.
Qed.

Lemma SFmul_opp_opp x : SFmul prec emax (SFopp x) (SFopp x) = SFmul prec emax x x.
Proof. destruct x as [s|s| |s m e]; simpl; try reflexivity; now destruct s. Qed.

Lemma SFmul_square_signed x : signed_as false (SFmul prec emax x x).
Proof.
  destruct x as [s|s| |s m e]; simpl; auto; try (now destruct s).
  replace (xorb s s) with false by (now destruct s). apply bra_signed.
Qed.

Lemma SFadd_signed x y :
  signed_as false x -> signed_as false y -> signed_as false (SFadd prec emax x y).
Proof.
  destruct x as [sx|sx| |sx mx ex], y as [sy|sy| |sy my ey]; simpl;
    intros Hx Hy; subst; simpl; auto.
  unfold binary_round. destruct (shl_align _ _ _) as [mz ez]. apply bra_signed.
Qed.

Lemma SFsqrt_signed x : signed_as false x -> signed_as false (SFsqrt prec emax x).
Proof.
  destruct x as [s|s| |s m e]; simpl; intros H; subst; simpl; auto.
  destruct (SFsqrt_core_binary prec emax (Z.pos m) e) as [[mz ez] lz]. apply bra_signed.
Qed.

(** Primitive level *)
Lemma Prim2SF_zero : Prim2SF 0 = S754_zero false.
Proof. reflexivity. Qed.
Lemma Prim2SF_one : Prim2SF 1 = S754_finite false 4503599627370496 (-52).
Proof. reflexivity. Qed.
Lemma Prim2SF_eps : Prim2SF sc_Precision = S754_finite false 4503599627370496 (-104).
Proof. reflexivity. Qed.
Lemma Prim2SF_infinity : Prim2SF infinity = S754_infinity false.
Proof. reflexivity. Qed.

Lemma is_nan_spec x : is_nan x = true <-> Prim2SF x = S754_nan.
Proof.
  unfold is_nan. rewrite FloatAxioms.eqb_spec. unfold SFeqb.
  destruct (Prim2SF x) as [s|s| |s m e] eqn:E.
  - simpl. split; discriminate.
  - rewrite SFcompare_refl by discriminate. simpl. split; discriminate.
  - simpl. tauto.
  - rewrite SFcompare_refl by discriminate. simpl. split; discriminate.
Qed.

Lemma signed_nonneg x :
  signed_as false (Prim2SF x) -> is_nan x = true \/ (0 <=? x) = true.
Proof.
  intros H. rewrite FloatAxioms.leb_spec, Prim2SF_zero.
  destruct (Prim2SF x) as [s|s| |s m e] eqn:E; simpl in H; subst.
  - right; reflexivity.
  - right; reflexivity.
  - left. now apply is_nan_spec.
  - right; reflexivity.
Qed.

Lemma mul_comm (x y : float) : x * y = y * x.
Proof. apply Prim2SF_inj. rewrite !FloatAxioms.mul_spec. apply SFmul_comm. Qed.

Lemma sub_square_swap (u v : float) : (u - v) * (u - v) = (v - u) * (v - u).
Proof.
  apply Prim2SF_inj. rewrite !FloatAxioms.mul_spec, !FloatAxioms.sub_spec. unfold SF64mul, SF64sub.
  destruct (SFsub_swap (Prim2SF u) (Prim2SF v)) as [H|[H1 H2]].
  - rewrite H. now rewrite SFmul_opp_opp.
  - now rewrite H1, H2.
Qed.

Lemma SFsub_diag x :
  SFsub prec emax x x
  = match x with
    | S754_zero _ | S754_finite _ _ _ => S754_zero false
    | _ => S754_nan
    end.
Proof.
  destruct x as [s|s| |s m e]; try (now destruct s); try reflexivity.
  unfold SFsub. now rewrite Z.sub_diag.
Qed.

(** The product of epsilon with an absolute value: never NaN for a finite
    operand, and never below zero. *)
Lemma SFmul_eps_abs x :
  match x with
  | S754_zero _ | S754_finite _ _ _ =>
      SFleb (S754_zero false) (SFmul prec emax (Prim2SF sc_Precision) (SFabs x)) = true
  | _ => True
  end.
Proof.
  rewrite Prim2SF_eps. destruct x as [s|s| |s m e]; auto.
  unfold SFabs, SFmul, xorb.
  pose proof (bra_signed false (Z.pos (4503599627370496 * m)) (-104 + e) loc_Exact) as Hs.
  pose proof (bra_not_nan false (Z.pos (4503599627370496 * m)) (-104 + e) loc_Exact) as Hn.
  destruct (bra false _ _ _) as [s'|s'| |s' m' e']; simpl in Hs; subst;
    try reflexivity.
  exfalso. apply Hn; [lia | reflexivity].
Qed.

Lemma is_finite_spec x :
  is_finite x = match Prim2SF x with
                | S754_zero _ | S754_finite _ _ _ => true
                | _ => false
                end.
Proof.
  unfold is_finite, is_nan, is_infinity.
  rewrite !FloatAxioms.eqb_spec, FloatAxioms.abs_spec, Prim2SF_infinity. unfold SFeqb.
  destruct (Prim2SF x) as [s|s| |s m e]; try reflexivity.
  - now destruct s.
  - rewrite SFcompare_refl by discriminate. reflexivity.
Qed.

Lemma max_same (u : float) : Std.max u u = u.
Proof. unfold Std.max. now destruct (u <? u). Qed.

(** [nearlyEqual] of a value with itself tests that the value is finite. *)
Lemma nearlyEqual_diag (a : Scalar_t) :
  PointOps.nearlyEqual a a sc_Precision = is_finite a.
Proof.
  unfold PointOps.nearlyEqual. rewrite max_same. unfold Std.fabs.
  rewrite FloatAxioms.leb_spec, FloatAxioms.mul_spec, !FloatAxioms.abs_spec, FloatAxioms.sub_spec.
  rewrite is_finite_spec. unfold SF64sub, SF64mul. rewrite SFsub_diag.
  pose proof (SFmul_eps_abs (Prim2SF a)) as H.
  destruct (Prim2SF a) as [s|s| |s m e]; try reflexivity; exact H.
Qed.

Lemma SFopp_involutive x : SFopp (SFopp x) = x.
Proof. destruct x as [s|s| |s m e]; simpl; now rewrite ?negb_involutive. Qed.

Lemma SFeqb_refl x : x <> S754_nan -> SFeqb x x = true.
Proof. intros H. unfold SFeqb. now rewrite SFcompare_refl. Qed.

(** [p - q] and [-(q - p)] are the same number, or both NaN. *)
Lemma agree_sub_swap (p q : float) : agree (p - q) (- (q - p)) = true.
Proof.
  unfold agree. apply orb_true_iff.
  destruct (is_nan (p - q)) eqn:Hn.
  - right. apply is_nan_spec in Hn. rewrite andb_true_l. apply is_nan_spec.
    rewrite FloatAxioms.opp_spec, FloatAxioms.sub_spec.
    rewrite FloatAxioms.sub_spec in Hn. unfold SF64sub in *.
    destruct (SFsub_swap (Prim2SF p) (Prim2SF q)) as [H|[H1 H2]].
    + now rewrite H, Hn.
    + congruence.
  - left. assert (Prim2SF (p - q) <> S754_nan) as Hn'.
    { intros E. apply is_nan_spec in E. congruence. }
    rewrite FloatAxioms.eqb_spec, FloatAxioms.opp_spec, !FloatAxioms.sub_spec.
    rewrite FloatAxioms.sub_spec in Hn'. unfold SF64sub in *.
    destruct (SFsub_swap (Prim2SF p) (Prim2SF q)) as [H|[H1 H2]].
    + rewrite H, SFopp_involutive. now apply SFeqb_refl.
    + now rewrite H1, H2.
Qed.

Lemma leb_ltb_false (x y : float) : (x <=? y) = true -> (y <? x) = false.
Proof.
  rewrite FloatAxioms.leb_spec, FloatAxioms.ltb_spec. unfold SFleb, SFltb.
  rewrite (SFcompare_antisym (Prim2SF x) (Prim2SF y)).
  destruct (SFcompare (Prim2SF x) (Prim2SF y)) as [[]|]; simpl; congruence.
Qed.

Lemma ltb_nan_false (x y : float) : is_nan y = true -> (x <? y) = false.
Proof.
  intros H. apply is_nan_spec in H. rewrite FloatAxioms.ltb_spec, H. unfold SFltb.
  now destruct (Prim2SF x).
Qed.

(** A finite scalar divided by infinity is a zero. *)
Lemma div_infinity (x : float) :
  is_finite x = true -> x / infinity = 0 \/ x / infinity = - 0.
Proof.
  rewrite is_finite_spec. intros H.
  rewrite <- (SF2Prim_Prim2SF (x / infinity)), FloatAxioms.div_spec, Prim2SF_infinity.
  destruct (Prim2SF x) as [s|s| |s m e]; try discriminate; destruct s; simpl; auto.
Qed.

(** A square root of a sum of three squares is NaN or carries no sign. *)
Lemma sqrt_sum_squares_signed (u v w : float) :
  signed_as false (Prim2SF (Std.sqrt (u * u + v * v + w * w))).
Proof.
  unfold Std.sqrt.
  rewrite FloatAxioms.sqrt_spec, !FloatAxioms.add_spec, !FloatAxioms.mul_spec.
  apply SFsqrt_signed. repeat apply SFadd_signed; apply SFmul_square_signed.
Qed.

Lemma not_nan_spec x : is_nan x = false -> Prim2SF x <> S754_nan.
Proof. intros H E. apply is_nan_spec in E. congruence. Qed.

Lemma SFcompare_None x y :
  x <> S754_nan -> y <> S754_nan -> SFcompare x y <> None.
Proof.
  destruct x as [sx|sx| |sx mx ex], y as [sy|sy| |sy my ey]; simpl; congruence.
Qed.

Lemma not_ltb_leb (x y : float) :
  is_nan x = false -> is_nan y = false -> (x <? y) = false -> (y <=? x) = true.
Proof.
  intros Hx%not_nan_spec Hy%not_nan_spec.
  rewrite FloatAxioms.leb_spec, FloatAxioms.ltb_spec. unfold SFleb, SFltb.
  rewrite (SFcompare_antisym (Prim2SF x) (Prim2SF y)).
  pose proof (SFcompare_None _ _ Hx Hy) as Hc.
  destruct (SFcompare (Prim2SF x) (Prim2SF y)) as [[]|]; simpl; congruence.
Qed.

(** [std::clamp] to [0, 1] returns a NaN as it is and puts every other
    scalar in the interval. *)
Lemma clamp_nan (v : float) :
  is_nan v = true -> Std.clamp v sc_ParametricL sc_ParametricH = v.
Proof.
  intros H%is_nan_spec. unfold Std.clamp.
  rewrite !FloatAxioms.ltb_spec, H. unfold SFltb. simpl.
  now destruct (Prim2SF sc_ParametricH).
Qed.

(** X2.  [std::clamp(v, sc_ParametricL, sc_ParametricH)], as
    [closestDistance] applies it to both parameters, lies in the closed
    interval [[0, 1]] for every [v] that is not NaN. *)
Lemma clamp_unit_interval (v : float) :
  is_nan v = false ->
  (0 <=? Std.clamp v sc_ParametricL sc_ParametricH) = true
  /\ (Std.clamp v sc_ParametricL sc_ParametricH <=? 1) = true.
Proof.
  intros H. unfold Std.clamp, sc_ParametricL, sc_ParametricH.
  destruct (v <? 0) eqn:H0; [split; reflexivity|].
  destruct (1 <? v) eqn:H1; [split; reflexivity|].
  split; now apply not_ltb_leb.
Qed.

(** [clamp_unit_interval] at 3, which is brought back to 1. *)
Lemma clamp_unit_interval_witness :
  (0 <=? Std.clamp 3 sc_ParametricL sc_ParametricH) = true
  /\ (Std.clamp 3 sc_ParametricL sc_ParametricH <=? 1) = true.
Proof. apply (clamp_unit_interval 3). reflexivity. Defined.

End SpecFloatFacts.

(** * Arithmetic up to the sign of a zero *)

Local Abbreviation bra := (binary_round_aux prec emax).

Lemma eqz_refl x : eqz x x.
Proof. destruct x; simpl; auto. Qed.

Lemma eqz_sym x y : eqz x y -> eqz y x.
Proof. destruct x, y; simpl; auto. Qed.

Lemma eqz_trans x y z : eqz x y -> eqz y z -> eqz x z.
Proof. destruct x, y, z; simpl; auto; congruence. Qed.

Lemma eqz_cases x y :
  eqz x y -> x = y \/ exists s s', x = S754_zero s /\ y = S754_zero s'.
Proof. destruct x, y; simpl; eauto. Qed.

Ltac eqz_split H s t :=
  apply eqz_cases in H; destruct H as [H | (s & t & ? & ?)]; subst.

Lemma SFopp_eqz x y : eqz x y -> eqz (SFopp x) (SFopp y).
Proof. intros H. eqz_split H s t; [apply eqz_refl | exact I]. Qed.

Lemma SFmul_eqz x x' y y' :
  eqz x x' -> eqz y y' -> eqz (SFmul prec emax x y) (SFmul prec emax x' y').
Proof.
  intros Hx Hy. eqz_split Hx a a'; eqz_split Hy b b'; try apply eqz_refl.
  - destruct x' as [s|s| |s m e]; simpl; auto.
  - destruct y' as [s|s| |s m e]; simpl; auto.
  - exact I.
Qed.

Lemma SFadd_eqz x x' y y' :
  eqz x x' -> eqz y y' -> eqz (SFadd prec emax x y) (SFadd prec emax x' y').
Proof.
  intros Hx Hy. eqz_split Hx a a'; eqz_split Hy b b'; try apply eqz_refl.
  - destruct x' as [s|s| |s m e]; simpl; auto; destruct s, b, b'; simpl; auto.
  - destruct y' as [s|s| |s m e]; simpl; auto; destruct s, a, a'; simpl; auto.
  - destruct a, a', b, b'; exact I.
Qed.

Lemma SFsub_eqz x x' y y' :
  eqz x x' -> eqz y y' -> eqz (SFsub prec emax x y) (SFsub prec emax x' y').
Proof.
  intros Hx Hy. eqz_split Hx a a'; eqz_split Hy b b'; try apply eqz_refl.
  - destruct x' as [s|s| |s m e]; simpl; auto; destruct s, b, b'; simpl; auto.
  - destruct y' as [s|s| |s m e]; simpl; auto; destruct s, a, a'; simpl; auto.
  - destruct a, a', b, b'; exact I.
Qed.

Lemma SFdiv_eqz x x' d :
  eqz x x' -> eqz (SFdiv prec emax x d) (SFdiv prec emax x' d).
Proof.
  intros Hx. eqz_split Hx a a'; try apply eqz_refl.
  destruct d as [s|s| |s m e]; simpl; auto.
Qed.

Lemma SFcompare_eqz_l x x' y : eqz x x' -> SFcompare x y = SFcompare x' y.
Proof.
  intros Hx. eqz_split Hx a a'; [reflexivity|]. now destruct y.
Qed.

Lemma SFcompare_eqz_r x y y' : eqz y y' -> SFcompare x y = SFcompare x y'.
Proof.
  intros Hy. eqz_split Hy a a'; [reflexivity|]. now destruct x.
Qed.

Lemma SFmul_square_eqz x y : eqz x y -> SFmul prec emax x x = SFmul prec emax y y.
Proof.
  intros H. eqz_split H a a'; [reflexivity|]. now destruct a, a'.
Qed.

Lemma SFmul_opp_r x y : SFmul prec emax x (SFopp y) = SFopp (SFmul prec emax x y).
Proof.
  destruct x as [sx|sx| |sx mx ex], y as [sy|sy| |sy my ey]; simpl;
    try reflexivity; try (now destruct sx, sy).
  rewrite bra_opp. now destruct sx, sy.
Qed.

Lemma SFadd_comm x y : SFadd prec emax x y = SFadd prec emax y x.
Proof.
  destruct x as [sx|sx| |sx mx ex], y as [sy|sy| |sy my ey]; simpl;
    try reflexivity; try (now destruct sx, sy).
  replace (IntDef.Z.min ey ex) with (IntDef.Z.min ex ey) by apply Z.min_comm.
  f_equal. apply Z.add_comm.
Qed.

Lemma SFsub_as_add x y : SFsub prec emax x y = SFadd prec emax x (SFopp y).
Proof.
  destruct x as [sx|sx| |sx mx ex], y as [sy|sy| |sy my ey]; simpl;
    try reflexivity; try (now destruct sx, sy).
Qed.

(** [(-x) + (-y)] and [-(x + y)]. *)
Lemma SFadd_opp_opp x y :
  eqz (SFadd prec emax (SFopp x) (SFopp y)) (SFopp (SFadd prec emax x y)).
Proof.
  destruct x as [sx|sx| |sx mx ex], y as [sy|sy| |sy my ey]; simpl;
    try exact I; try reflexivity; try (now destruct sx, sy).
  set (X := cond_Zopp sx _). set (Y := cond_Zopp sy _).
  replace (cond_Zopp (negb sx) _) with (- X)%Z by (unfold X; now destruct sx).
  replace (cond_Zopp (negb sy) _) with (- Y)%Z by (unfold Y; now destruct sy).
  replace (- X + - Y)%Z with (- (X + Y))%Z by lia.
  destruct (Z.eq_dec (X + Y)%Z 0%Z) as [E|E].
  - rewrite E. exact I.
  - rewrite binary_normalize_opp by exact E. apply eqz_refl.
Qed.

(** Primitive floats up to the sign of a zero. *)

Lemma same_refl u : same u u.
Proof. apply eqz_refl. Qed.

Lemma same_sym u v : same u v -> same v u.
Proof. apply eqz_sym. Qed.

Lemma same_trans u v w : same u v -> same v w -> same u w.
Proof. apply eqz_trans. Qed.

#[local] Instance same_equivalence : Equivalence same.
Proof. split; [exact same_refl | exact same_sym | exact same_trans]. Qed.

#[local] Instance add_same : Proper (same ==> same ==> same) PrimFloat.add.
Proof.
  intros u u' Hu v v' Hv. unfold same. rewrite !FloatAxioms.add_spec. now apply SFadd_eqz.
Qed.

#[local] Instance sub_same : Proper (same ==> same ==> same) PrimFloat.sub.
Proof.
  intros u u' Hu v v' Hv. unfold same. rewrite !FloatAxioms.sub_spec. now apply SFsub_eqz.
Qed.

#[local] Instance mul_same : Proper (same ==> same ==> same) PrimFloat.mul.
Proof.
  intros u u' Hu v v' Hv. unfold same. rewrite !FloatAxioms.mul_spec. now apply SFmul_eqz.
Qed.

#[local] Instance div_same : Proper (same ==> eq ==> same) PrimFloat.div.
Proof.
  intros u u' Hu v v' <-. unfold same. rewrite !FloatAxioms.div_spec. now apply SFdiv_eqz.
Qed.

#[local] Instance opp_same : Proper (same ==> same) PrimFloat.opp.
Proof.
  intros u u' Hu. unfold same. rewrite !FloatAxioms.opp_spec. now apply SFopp_eqz.
Qed.

#[local] Instance ltb_same : Proper (same ==> same ==> eq) PrimFloat.ltb.
Proof.
  intros u u' Hu v v' Hv. rewrite !FloatAxioms.ltb_spec. unfold SFltb.
  now rewrite (SFcompare_eqz_l _ _ _ Hu), (SFcompare_eqz_r _ _ _ Hv).
Qed.

Lemma square_same u v : same u v -> u * u = v * v.
Proof. intros H. apply Prim2SF_inj. rewrite !FloatAxioms.mul_spec. now apply SFmul_square_eqz. Qed.

Lemma sub_swap_same x y : same (y - x) (- (x - y)).
Proof.
  unfold same. rewrite FloatAxioms.opp_spec, !FloatAxioms.sub_spec. unfold SF64sub.
  destruct (SFsub_swap (Prim2SF x) (Prim2SF y)) as [H|[H1 H2]].
  - rewrite H. apply eqz_refl.
  - rewrite H1, H2. exact I.
Qed.

Lemma mul_opp_r (x y : float) : x * (- y) = - (x * y).
Proof.
  apply Prim2SF_inj.
  rewrite FloatAxioms.opp_spec, !FloatAxioms.mul_spec, FloatAxioms.opp_spec. apply SFmul_opp_r.
Qed.

Lemma mul_opp_l (x y : float) : (- x) * y = - (x * y).
Proof. now rewrite (mul_comm (- x)), mul_opp_r, (mul_comm y). Qed.

Lemma add_comm (x y : float) : x + y = y + x.
Proof. apply Prim2SF_inj. rewrite !FloatAxioms.add_spec. apply SFadd_comm. Qed.

Lemma sub_as_add (x y : float) : x - y = x + (- y).
Proof.
  apply Prim2SF_inj.
  rewrite FloatAxioms.sub_spec, FloatAxioms.add_spec, FloatAxioms.opp_spec. apply SFsub_as_add.
Qed.

Lemma opp_involutive (x : float) : - (- x) = x.
Proof. apply Prim2SF_inj. rewrite !FloatAxioms.opp_spec. apply SFopp_involutive. Qed.

Lemma add_opp_opp_same (x y : float) : same (- x + - y) (- (x + y)).
Proof.
  unfold same.
  rewrite FloatAxioms.opp_spec, !FloatAxioms.add_spec, !FloatAxioms.opp_spec.
  apply SFadd_opp_opp.
Qed.

(** The numerator of one parameter, computed with the arguments swapped. *)
Lemma numerator_swap (a b c f : float) :
  b * (- c) - (- f) * a = a * f - b * c.
Proof.
  rewrite mul_opp_r, mul_opp_l, sub_as_add, opp_involutive, add_comm.
  now rewrite <- sub_as_add, (mul_comm f a).
Qed.

#[local] Instance clamp_same : Proper (same ==> eq ==> eq ==> same) Std.clamp.
Proof.
  intros u u' Hu lo lo' <- hi hi' <-. unfold Std.clamp.
  assert ((u <? lo) = (u' <? lo)) as <- by now rewrite Hu.
  assert ((hi <? u) = (hi <? u')) as <- by now rewrite Hu.
  destruct (u <? lo); [reflexivity|].
  destruct (hi <? u); [reflexivity | exact Hu].
Qed.

(** * Zeros and NaN *)

Lemma SFmul_zero_l x y : zero_or_nan x -> zero_or_nan (SFmul prec emax x y).
Proof. destruct x, y; simpl; tauto. Qed.

Lemma SFmul_zero_r x y : zero_or_nan y -> zero_or_nan (SFmul prec emax x y).
Proof. destruct x, y; simpl; tauto. Qed.

Lemma SFadd_zero x y :
  zero_or_nan x -> zero_or_nan y -> zero_or_nan (SFadd prec emax x y).
Proof. destruct x as [[]| | |], y as [[]| | |]; simpl; tauto. Qed.

Lemma SFsub_zero x y :
  zero_or_nan x -> zero_or_nan y -> zero_or_nan (SFsub prec emax x y).
Proof. destruct x as [[]| | |], y as [[]| | |]; simpl; tauto. Qed.

Lemma SFdiv_zero x y :
  zero_or_nan x -> zero_or_nan y -> SFdiv prec emax x y = S754_nan.
Proof. destruct x, y; simpl; tauto. Qed.

Lemma sub_diag_finite (x : float) : is_finite x = true -> x - x = 0.
Proof.
  rewrite is_finite_spec. intros H. apply Prim2SF_inj.
  rewrite FloatAxioms.sub_spec. unfold SF64sub. rewrite SFsub_diag.
  now destruct (Prim2SF x).
Qed.

Lemma mul_nan_r (x y : float) : is_nan y = true -> is_nan (x * y) = true.
Proof.
  intros H%is_nan_spec. apply is_nan_spec. rewrite FloatAxioms.mul_spec, H.
  now destruct (Prim2SF x).
Qed.

Lemma mul_nan_l (x y : float) : is_nan x = true -> is_nan (x * y) = true.
Proof. intros H. rewrite mul_comm. now apply mul_nan_r. Qed.

Lemma add_nan_r (x y : float) : is_nan y = true -> is_nan (x + y) = true.
Proof.
  intros H%is_nan_spec. apply is_nan_spec. rewrite FloatAxioms.add_spec, H.
  now destruct (Prim2SF x).
Qed.

Lemma add_nan_l (x y : float) : is_nan x = true -> is_nan (x + y) = true.
Proof. intros H. rewrite add_comm. now apply add_nan_r. Qed.

Lemma sub_nan_l (x y : float) : is_nan x = true -> is_nan (x - y) = true.
Proof.
  intros H%is_nan_spec. apply is_nan_spec. now rewrite FloatAxioms.sub_spec, H.
Qed.

Lemma sqrt_nan (x : float) : is_nan x = true -> is_nan (Std.sqrt x) = true.
Proof.
  intros H%is_nan_spec. apply is_nan_spec. unfold Std.sqrt.
  now rewrite FloatAxioms.sqrt_spec, H.
Qed.

Lemma ltb_eps_zero (x : float) :
  zero_or_nan (Prim2SF x) -> (sc_Precision <? Std.fabs x) = false.
Proof.
  intros H. unfold Std.fabs. rewrite FloatAxioms.ltb_spec, FloatAxioms.abs_spec, Prim2SF_eps.
  now destruct (Prim2SF x).
Qed.

(** * Point *)

Section PointTheorems.
Import PointOps.

(** C10.  [operator==] is reflexive exactly on the Points whose three
    coordinates are finite: [p == p] holds when every coordinate is finite
    and is false as soon as one coordinate is NaN or infinite. *)
Theorem op_eq_reflexive_iff_finite (p : Point) :
  op_eq p p = finite_point p.
Proof.
  unfold op_eq, finite_point. now rewrite !nearlyEqual_diag.
Qed.

(** C7, as amended.  The components of [a.cross(b)] are
    [ay*bz - az*by], [az*bx - ax*bz] and [ax*by - ay*bx], and each one
    agrees with the negated component of [b.cross(a)]: the two compare equal
    with [==], or both are NaN. *)
Theorem cross_right_handed_and_anticommutative (a b : Point) :
  cross a b = mkPoint (m_Y a * m_Z b - m_Z a * m_Y b)
                      (m_Z a * m_X b - m_X a * m_Z b)
                      (m_X a * m_Y b - m_Y a * m_X b)
  /\ agree (m_X (cross a b)) (m_X (negate (cross b a))) = true
  /\ agree (m_Y (cross a b)) (m_Y (negate (cross b a))) = true
  /\ agree (m_Z (cross a b)) (m_Z (negate (cross b a))) = true.
Proof.
  split; [reflexivity|]. unfold cross, negate; simpl.
  rewrite (mul_comm (m_Y b) (m_Z a)), (mul_comm (m_Z b) (m_Y a)).
  rewrite (mul_comm (m_Z b) (m_X a)), (mul_comm (m_X b) (m_Z a)).
  rewrite (mul_comm (m_X b) (m_Y a)), (mul_comm (m_Y b) (m_X a)).
  repeat split; apply agree_sub_swap.
Qed.

(** C7 as stated fails on finite Points: the first component of
    [a.cross(b)] is [inf - inf], a NaN, which equals nothing. *)
Lemma cross_anticommutative_fails_on_overflow :
  finite_point Scenarios.huge_yz = true
  /\ (m_X (cross Scenarios.huge_yz Scenarios.huge_yz)
      =? m_X (negate (cross Scenarios.huge_yz Scenarios.huge_yz))) = false
  /\ op_eq (cross Scenarios.huge_yz Scenarios.huge_yz)
           (negate (cross Scenarios.huge_yz Scenarios.huge_yz)) = false.
Proof. vm_compute. auto. Qed.

(** C6 as stated fails: [(2^600, 0, 0)] is finite, its magnitude is
    above the threshold, and its normalization has magnitude 0. *)
Lemma normalize_not_unit_on_overflow :
  finite_point Scenarios.huge_x = true
  /\ (sc_Precision <? magnitude Scenarios.huge_x) = true
  /\ magnitude (normalize Scenarios.huge_x) = 0
  /\ near (magnitude (normalize Scenarios.huge_x)) 1 sc_Precision = false.
Proof. vm_compute. auto. Qed.

End PointTheorems.

(** * Segment *)

Section SegmentTheorems.
Import PointOps SegmentOps.

#[local] Instance psame_equivalence : Equivalence psame.
Proof.
  split.
  - intros p. repeat split; reflexivity.
  - intros p q (H1 & H2 & H3). repeat split; now symmetry.
  - intros p q r (H1 & H2 & H3) (K1 & K2 & K3). repeat split; etransitivity; eauto.
Qed.

#[local] Instance op_add_psame : Proper (psame ==> psame ==> psame) op_add.
Proof.
  intros p p' (H1 & H2 & H3) q q' (K1 & K2 & K3). unfold op_add, psame; simpl.
  now rewrite H1, H2, H3, K1, K2, K3.
Qed.

#[local] Instance op_mul_psame : Proper (psame ==> same ==> psame) op_mul.
Proof.
  intros p p' (H1 & H2 & H3) s s' Hs. unfold op_mul, psame; simpl.
  now rewrite H1, H2, H3, Hs.
Qed.

#[local] Instance dot_psame : Proper (psame ==> psame ==> same) dot.
Proof.
  intros p p' (H1 & H2 & H3) q q' (K1 & K2 & K3). unfold dot.
  now rewrite H1, H2, H3, K1, K2, K3.
Qed.

#[local] Instance distance_psame : Proper (psame ==> psame ==> eq) distance.
Proof.
  intros p p' (H1 & H2 & H3) q q' (K1 & K2 & K3). unfold distance.
  rewrite (square_same (m_X q - m_X p) (m_X q' - m_X p')) by now rewrite H1, K1.
  rewrite (square_same (m_Y q - m_Y p) (m_Y q' - m_Y p')) by now rewrite H2, K2.
  rewrite (square_same (m_Z q - m_Z p) (m_Z q' - m_Z p')) by now rewrite H3, K3.
  reflexivity.
Qed.

Lemma op_sub_swap (p q : Point) : psame (op_sub q p) (negate (op_sub p q)).
Proof. unfold psame, op_sub, negate; simpl. repeat split; apply sub_swap_same. Qed.

Lemma dot_negate_r (d r : Point) : same (dot d (negate r)) (- dot d r).
Proof.
  unfold dot, negate; simpl. rewrite !mul_opp_r.
  now rewrite add_opp_opp_same, add_opp_opp_same.
Qed.

Lemma dot_comm (p q : Point) : dot p q = dot q p.
Proof.
  unfold dot. now rewrite (mul_comm (m_X p)), (mul_comm (m_Y p)), (mul_comm (m_Z p)).
Qed.

Lemma distance_sym (p q : Point) : distance p q = distance q p.
Proof.
  unfold distance.
  now rewrite (sub_square_swap (m_X q)), (sub_square_swap (m_Y q)), (sub_square_swap (m_Z q)).
Qed.

Lemma distance_signed (p q : Point) : signed_as false (Prim2SF (distance p q)).
Proof. unfold distance. apply sqrt_sum_squares_signed. Qed.

Lemma distance_euclidean (p q : Point) : distance p q = Spec.euclidean p q.
Proof.
  unfold distance, Spec.euclidean.
  now rewrite (sub_square_swap (m_X q)), (sub_square_swap (m_Y q)), (sub_square_swap (m_Z q)).
Qed.

Lemma op_mul_scaled (d : Point) (s : Scalar_t) : op_mul d s = Spec.scaled s d.
Proof.
  unfold op_mul, Spec.scaled.
  now rewrite (mul_comm (m_X d)), (mul_comm (m_Y d)), (mul_comm (m_Z d)).
Qed.

(** The operators of [Point] against the vector operations of section 4.2. *)
Lemma op_sub_difference (p q : Point) : op_sub p q = Spec.difference p q.
Proof. reflexivity. Qed.

Lemma dot_inner (u v : Point) : dot u v = Spec.inner u v.
Proof. reflexivity. Qed.

Lemma op_add_translated (p v : Point) : op_add p v = Spec.translated p v.
Proof. reflexivity. Qed.

Lemma closestDistance_is_distance (s1 s2 : Segment) :
  exists p q, closestDistance s1 s2 = distance p q.
Proof.
  unfold closestDistance.
  destruct (sc_Precision <? _); eexists; eexists; reflexivity.
Qed.

(** C5.  [closestDistance] computes what section 4.2 describes: d1, d2, r,
    then a, e, f, b, c and the denominator; s and t from the two quotients
    when the absolute denominator exceeds the threshold, s = 0 and t = f/e
    otherwise; both restricted to [0, 1]; and the Euclidean distance between
    [start1 + s*d1] and [start2 + t*d2]. *)
Theorem closestDistance_refines_spec (s1 s2 : Segment) :
  closestDistance s1 s2 = Spec.closestDistance_spec s1 s2.
Proof.
  unfold closestDistance, Spec.closestDistance_spec, Spec.parameters.
  rewrite !op_sub_difference, !dot_inner.
  destruct (sc_Precision <? _); cbv beta iota zeta; unfold fst, snd;
    rewrite distance_euclidean, !op_mul_scaled, !op_add_translated; reflexivity.
Qed.

(** A result of [closestDistance] that is not NaN is never below zero: it
    comes out of [std::sqrt]. *)
Lemma closestDistance_not_below_zero (s1 s2 : Segment) :
  is_nan (closestDistance s1 s2) = false -> (0 <=? closestDistance s1 s2) = true.
Proof.
  intros Hn. destruct (closestDistance_is_distance s1 s2) as (p & q & E).
  rewrite E in *. destruct (signed_nonneg _ (distance_signed p q)); congruence.
Qed.

(** C2 as stated fails: twelve finite coordinates, and a NaN comes back,
    the differences and squares having overflowed. *)
Lemma closestDistance_nan_on_overflow :
  forallb is_finite (Scenarios.coordinates Scenarios.far_left
                     ++ Scenarios.coordinates Scenarios.far_right) = true
  /\ is_nan (closestDistance Scenarios.far_left Scenarios.far_right) = true.
Proof. vm_compute. auto. Qed.

Lemma distance_nan_r (p q : Point) : is_nan (m_X q) = true -> is_nan (distance p q) = true.
Proof.
  intros H. unfold distance. apply sqrt_nan. apply add_nan_l, add_nan_l, mul_nan_l.
  now apply sub_nan_l.
Qed.

Lemma dot_zero_l (r : Point) : zero_or_nan (Prim2SF (dot default r)).
Proof.
  unfold dot, default; simpl. rewrite !FloatAxioms.add_spec, !FloatAxioms.mul_spec.
  repeat apply SFadd_zero; apply SFmul_zero_l; exact I.
Qed.

Lemma dot_zero_r (d : Point) : zero_or_nan (Prim2SF (dot d default)).
Proof. rewrite dot_comm. apply dot_zero_l. Qed.

Lemma op_sub_diag (p : Point) : finite_point p = true -> op_sub p p = default.
Proof.
  unfold finite_point. intros H.
  apply andb_true_iff in H as [H Hz]. apply andb_true_iff in H as [Hx Hy].
  unfold op_sub, default. now rewrite !sub_diag_finite.
Qed.

(** Finite coordinates again, the segments 2^600 apart, and [+inf] comes
    back: the square of the distance has overflowed. *)
Lemma closestDistance_infinite_on_overflow :
  forallb is_finite (Scenarios.coordinates Scenarios.low
                     ++ Scenarios.coordinates Scenarios.high) = true
  /\ closestDistance Scenarios.low Scenarios.high = infinity.
Proof. vm_compute. auto. Qed.

(** X23.  Whatever the first segment, a second segment reduced to one finite
    point makes [e], [f], [b] and the denominator zero or NaN, [t] is
    [f / e] with both zero or NaN, and the result is NaN. *)
Theorem closestDistance_to_point_is_nan (s1 : Segment) (p : Point) :
  finite_point p = true -> is_nan (closestDistance s1 (mkSegment p p)) = true.
Proof.
  intros Hp. unfold closestDistance. cbn [m_Start m_End].
  rewrite (op_sub_diag p Hp).
  set (D1 := op_sub (m_End s1) (m_Start s1)).
  set (R := op_sub (m_Start s1) p).
  rewrite ltb_eps_zero.
  2:{ rewrite FloatAxioms.sub_spec, !FloatAxioms.mul_spec.
      apply SFsub_zero; [apply SFmul_zero_r | apply SFmul_zero_l]; apply dot_zero_r. }
  assert (is_nan (dot default R / dot default default) = true) as Ht.
  { apply is_nan_spec. rewrite FloatAxioms.div_spec.
    apply SFdiv_zero; [apply dot_zero_l | exact I]. }
  rewrite (clamp_nan _ Ht).
  apply distance_nan_r. cbn [op_add op_mul m_X]. now apply add_nan_r, mul_nan_r.
Qed.

(** The same on the unit segment of the x axis and the point (0, 1, 0);
    the other order of the arguments gives their distance. *)
Lemma closestDistance_nan_on_point :
  is_nan (closestDistance Scenarios.unit_x Scenarios.point_y) = true
  /\ closestDistance Scenarios.point_y Scenarios.unit_x = 1.
Proof. vm_compute. auto. Qed.

Lemma denominator_sym s1 s2 : Spec.denominator s1 s2 = Spec.denominator s2 s1.
Proof.
  unfold Spec.denominator. cbv zeta.
  now rewrite (mul_comm (dot (op_sub (m_End s1) (m_Start s1)) _)),
              (dot_comm (op_sub (m_End s1) (m_Start s1)) (op_sub (m_End s2) (m_Start s2))).
Qed.

(** X1.  Off the parallel branch the order of the arguments does not matter:
    the two parameters change places and so do the two closest points. *)
Theorem closestDistance_symmetric_off_parallel (s1 s2 : Segment) :
  (sc_Precision <? Std.fabs (Spec.denominator s1 s2)) = true ->
  closestDistance s1 s2 = closestDistance s2 s1.
Proof.
  intros H. pose proof H as H'. rewrite denominator_sym in H'.
  unfold closestDistance. unfold Spec.denominator in H, H'. cbv zeta in H, H'.
  cbv zeta. rewrite H, H'.
  set (D1 := op_sub (m_End s1) (m_Start s1)) in *.
  set (D2 := op_sub (m_End s2) (m_Start s2)) in *.
  set (R := op_sub (m_Start s1) (m_Start s2)).
  set (R' := op_sub (m_Start s2) (m_Start s1)).
  assert (HF : same (dot D1 R') (- dot D1 R)).
  { unfold R', R. now rewrite (op_sub_swap (m_Start s1) (m_Start s2)), dot_negate_r. }
  assert (HC : same (dot D2 R') (- dot D2 R)).
  { unfold R', R. now rewrite (op_sub_swap (m_Start s1) (m_Start s2)), dot_negate_r. }
  rewrite (dot_comm D2 D1).
  rewrite (mul_comm (dot D2 D2) (dot D1 D1)).
  set (A := dot D1 D1) in *. set (E := dot D2 D2) in *. set (B := dot D1 D2) in *.
  set (Den := A * E - B * B) in *.
  rewrite distance_sym.
  apply distance_psame.
  - apply op_add_psame; [reflexivity|]. apply op_mul_psame; [reflexivity|].
    apply clamp_same; auto. rewrite HF, HC.
    now rewrite numerator_swap.
  - apply op_add_psame; [reflexivity|]. apply op_mul_psame; [reflexivity|].
    apply clamp_same; auto. rewrite HF, HC.
    now rewrite (mul_comm B (- dot D2 R)), numerator_swap, (mul_comm E).
Qed.

(** [closestDistance_symmetric_off_parallel] on the crossing segments of
    [SegmentTest.PerpendicularSegments]. *)
Lemma closestDistance_symmetric_off_parallel_witness :
  closestDistance Scenarios.crossing1 Scenarios.crossing2
  = closestDistance Scenarios.crossing2 Scenarios.crossing1.
Proof.
  apply (closestDistance_symmetric_off_parallel Scenarios.crossing1 Scenarios.crossing2).
  reflexivity.
Defined.


(** C1.  The two orders of the arguments give different distances on the
    parallel segments of [SegmentTest.DistantSegments]: the first argument is
    always anchored at its start, and the result is the square root of 300
    one way and of 243 the other way. *)
Theorem closestDistance_depends_on_order :
  closestDistance Scenarios.distant1 Scenarios.distant2 = Std.sqrt 300
  /\ closestDistance Scenarios.distant2 Scenarios.distant1 = Std.sqrt 243
  /\ near (closestDistance Scenarios.distant1 Scenarios.distant2)
          (closestDistance Scenarios.distant2 Scenarios.distant1) 1 = false.
Proof. vm_compute. auto. Qed.

(** C3.  On the segments that share the endpoint (3, 3, 3) the result is
    the square root of 27, the distance between the two start points. *)
Theorem closestDistance_shared_endpoint :
  closestDistance Scenarios.shared1 Scenarios.shared2 = Std.sqrt 27
  /\ (closestDistance Scenarios.shared1 Scenarios.shared2 =? 0) = false.
Proof. vm_compute. auto. Qed.

(** C4, as amended.  On the parallel offset segments the result is the
    square root of 10, the length of the offset (0, 3, 1). *)
Theorem closestDistance_offset_parallel :
  closestDistance Scenarios.offset1 Scenarios.offset2 = Std.sqrt 10.
Proof. vm_compute. reflexivity. Qed.

(** C4 as stated fails: the result is not within epsilon of 1, nor
    within 2 of it. *)
Lemma closestDistance_offset_parallel_not_one :
  near (closestDistance Scenarios.offset1 Scenarios.offset2) 1 sc_Precision = false
  /\ near (closestDistance Scenarios.offset1 Scenarios.offset2) 1 2 = false.
Proof. vm_compute. auto. Qed.

End SegmentTheorems.

(** * Moves *)

Section MoveTheorems.
Import PointOps Objects.

Lemma exchange_X_Some (h : store) (a : addr) (p : Point) (v : Coordinate_t) :
  h !! a = Some p -> exchange_X a v h = Some (m_X p, <[a := setX p v]> h).
Proof. intros H. unfold exchange_X. now rewrite H. Qed.

Lemma exchange_Y_Some (h : store) (a : addr) (p : Point) (v : Coordinate_t) :
  h !! a = Some p -> exchange_Y a v h = Some (m_Y p, <[a := setY p v]> h).
Proof. intros H. unfold exchange_Y. now rewrite H. Qed.

Lemma exchange_Z_Some (h : store) (a : addr) (p : Point) (v : Coordinate_t) :
  h !! a = Some p -> exchange_Z a v h = Some (m_Z p, <[a := setZ p v]> h).
Proof. intros H. unfold exchange_Z. now rewrite H. Qed.

Lemma assign_X_Some (h : store) (a : addr) (p : Point) (v : Coordinate_t) :
  h !! a = Some p -> assign_X a v h = Some (<[a := setX p v]> h).
Proof. intros H. unfold assign_X. now rewrite H. Qed.

Lemma assign_Y_Some (h : store) (a : addr) (p : Point) (v : Coordinate_t) :
  h !! a = Some p -> assign_Y a v h = Some (<[a := setY p v]> h).
Proof. intros H. unfold assign_Y. now rewrite H. Qed.

Lemma assign_Z_Some (h : store) (a : addr) (p : Point) (v : Coordinate_t) :
  h !! a = Some p -> assign_Z a v h = Some (<[a := setZ p v]> h).
Proof. intros H. unfold assign_Z. now rewrite H. Qed.

(** The object at [a] after a write to [a], however many writes to [b]
    came after it. *)
Lemma lookup_after_other (h : store) (a b : addr) (p q : Point) :
  a <> b -> h !! a = Some p -> <[b := q]> h !! a = Some p.
Proof. intros Hne H. now rewrite lookup_insert_ne. Qed.

(** C9.  Moving from the Point at [p_Other] into a distinct object at
    [this], by construction or by assignment, gives [this] the coordinates
    and leaves at [p_Other] the default-constructed Point, which [operator==]
    also holds equal to [Point()]. *)
Theorem moved_from_is_default (h : store) (this p_Other : addr) (p : Point) :
  h !! p_Other = Some p ->
  this <> p_Other ->
  (exists h', move_constructor this p_Other h = Some h'
              /\ h' !! this = Some p /\ h' !! p_Other = Some default)
  /\ (is_Some (h !! this) ->
      exists h', move_assign this p_Other h = Some h'
                 /\ h' !! this = Some p /\ h' !! p_Other = Some default)
  /\ op_eq default (mkPoint 0 0 0) = true.
Proof.
  intros Hp Hne. destruct p as [x y z]. split; [|split; [|reflexivity]].
  - unfold move_constructor.
    erewrite exchange_X_Some by exact Hp. cbn [mbind option_bind].
    erewrite exchange_Y_Some by apply lookup_insert_eq. cbn [mbind option_bind].
    erewrite exchange_Z_Some by apply lookup_insert_eq. cbn [mbind option_bind].
    eexists; split; [reflexivity|]. split.
    + apply lookup_insert_eq.
    + apply lookup_after_other; [congruence|]. apply lookup_insert_eq.
  - intros [q Hq]. unfold move_assign.
    destruct (decide (this = p_Other)) as [|_]; [done|].
    erewrite exchange_X_Some by exact Hp. cbn [mbind option_bind].
    erewrite assign_X_Some by (apply lookup_after_other; [exact Hne | exact Hq]).
    cbn [mbind option_bind].
    erewrite exchange_Y_Some
      by (apply lookup_after_other; [congruence | apply lookup_insert_eq]).
    cbn [mbind option_bind].
    erewrite assign_Y_Some
      by (apply lookup_after_other; [exact Hne | apply lookup_insert_eq]).
    cbn [mbind option_bind].
    erewrite exchange_Z_Some
      by (apply lookup_after_other; [congruence | apply lookup_insert_eq]).
    cbn [mbind option_bind].
    erewrite assign_Z_Some
      by (apply lookup_after_other; [exact Hne | apply lookup_insert_eq]).
    eexists; split; [reflexivity|]. split.
    + apply lookup_insert_eq.
    + apply lookup_after_other; [congruence|]. apply lookup_insert_eq.
Qed.

(** [moved_from_is_default] on the objects of [PointTest.AssignmentOperators]:
    construction of a third object from the first, assignment of the first
    to the second. *)
Lemma moved_from_is_default_witness :
  (exists h', move_constructor 3 1 Scenarios.two_objects = Some h'
              /\ h' !! 3%positive = Some (mkPoint 10 11 12)
              /\ h' !! 1%positive = Some default)
  /\ (exists h', move_assign 2 1 Scenarios.two_objects = Some h'
                 /\ h' !! 2%positive = Some (mkPoint 10 11 12)
                 /\ h' !! 1%positive = Some default).
Proof.
  split.
  - apply (moved_from_is_default Scenarios.two_objects 3 1 (mkPoint 10 11 12));
      [reflexivity | discriminate].
  - apply (moved_from_is_default Scenarios.two_objects 2 1 (mkPoint 10 11 12));
      [reflexivity | discriminate | eexists; reflexivity].
Defined.

(** Assignment of an object to itself changes nothing. *)
Lemma move_assign_self (h : store) (a : addr) : move_assign a a h = Some h.
Proof. unfold move_assign. now destruct (decide (a = a)). Qed.

End MoveTheorems.

(** * Deserialization *)

Section StreamTheorems.
Import PointOps IStream.

(** C8, as amended.  On a stream whose exception mask is empty (the
    default), and on any stream when the read succeeds in full,
    [operator>>] returns and the Point holds the scalars read, in the order
    x, y, z, with zero for every field from the first failure on, whatever
    it held before (a number out of range leaves the limit value the
    conversion stored); the stream has failed unless three scalars were read.
    On a stream asked to throw on [failbit] a read that does not succeed in
    full leaves by exception with the Point as it was. *)
Theorem op_extract_commits (s : InputStream_t) (p : Point) :
  (exceptions_failbit s = false \/ reads_three s = true ->
     exists s', call_op_extract s p = (false, s', committed s)
                /\ failbit s' = negb (reads_three s))
  /\ (exceptions_failbit s = true -> reads_three s = false ->
     exists s', call_op_extract s p = (true, s', p)).
Proof.
  destruct s as [fs fb ex], p as [px py pz].
  unfold call_op_extract, op_extract, committed, reads_three; simpl.
  split.
  - intros H. destruct fb; simpl in *.
    + destruct H as [-> | H]; [|discriminate].
      unfold bind, extract, setstate_failbit, to_bool, ret; simpl. eauto.
    + destruct fs as [|[x|x|] [|[y|y|] [|[z|z|] fs]]]; simpl in *;
        unfold bind, extract, setstate_failbit, to_bool, ret; simpl;
        try (destruct H as [-> | H]; [|discriminate]); simpl; eauto.
  - intros -> H. destruct fb; simpl in *.
    + unfold bind, extract, setstate_failbit, to_bool, ret; simpl. eauto.
    + destruct fs as [|[x|x|] [|[y|y|] [|[z|z|] fs]]]; simpl in *; try discriminate;
        unfold bind, extract, setstate_failbit, to_bool, ret; simpl; eauto.
Qed.

(** [op_extract_commits] on a stream holding two scalars only, and on the
    stream that throws. *)
Lemma op_extract_commits_witness :
  (exists s', call_op_extract Scenarios.short_stream Scenarios.p123
              = (false, s', mkPoint 4 5 0)
              /\ failbit s' = true)
  /\ (exists s', call_op_extract Scenarios.throwing_stream Scenarios.p123
                 = (true, s', Scenarios.p123)).
Proof.
  split.
  - apply (proj1 (op_extract_commits Scenarios.short_stream Scenarios.p123)).
    left. reflexivity.
  - apply (proj2 (op_extract_commits Scenarios.throwing_stream Scenarios.p123));
      reflexivity.
Defined.

(** C8 as stated fails: with exceptions asked for on [failbit] a malformed
    field makes the operator throw, and the Point is left unchanged. *)
Lemma op_extract_throws_and_keeps :
  call_op_extract Scenarios.throwing_stream Scenarios.p123
  = (true, mkStream [Malformed] true true, Scenarios.p123).
Proof. reflexivity. Qed.

End StreamTheorems.

(** * Further properties of Point *)

Section MorePointTheorems.
Import PointOps.

#[local] Existing Instances psame_equivalence op_add_psame op_mul_psame dot_psame
  distance_psame.

Lemma nan_unique (x : float) : is_nan x = true -> x = nan.
Proof.
  intros H%is_nan_spec. rewrite <- (SF2Prim_Prim2SF x), H. reflexivity.
Qed.

Lemma finite_not_nan (x : float) : is_finite x = true -> is_nan x = false.
Proof.
  rewrite is_finite_spec. intros H. destruct (is_nan x) eqn:E; auto.
  apply is_nan_spec in E. now rewrite E in H.
Qed.

Lemma finite_point_split (p : Point) :
  finite_point p = true ->
  is_finite (m_X p) = true /\ is_finite (m_Y p) = true /\ is_finite (m_Z p) = true.
Proof.
  unfold finite_point. intros H.
  apply andb_true_iff in H as [H Hz]. apply andb_true_iff in H as [Hx Hy]. auto.
Qed.

Lemma finite_point_no_nan (p : Point) : finite_point p = true -> no_nan p = true.
Proof.
  intros (Hx & Hy & Hz)%finite_point_split. unfold no_nan.
  now rewrite !finite_not_nan.
Qed.

Lemma plus_class_bra m e l : (0 <= m)%Z -> plus_class (bra false m e l).
Proof.
  intros H. pose proof (bra_signed false m e l) as Hs.
  pose proof (bra_not_nan false m e l H) as Hn.
  destruct (bra false m e l); simpl in *; congruence.
Qed.

Lemma SFmul_square_plus x : x <> S754_nan -> plus_class (SFmul prec emax x x).
Proof.
  destruct x as [s|s| |s m e]; simpl; intros H; try congruence; try (now destruct s).
  replace (xorb s s) with false by (now destruct s). now apply plus_class_bra.
Qed.

Lemma SFadd_plus x y :
  plus_class x -> plus_class y -> plus_class (SFadd prec emax x y).
Proof.
  destruct x as [sx|sx| |sx mx ex], y as [sy|sy| |sy my ey]; simpl;
    intros Hx Hy; subst; simpl; auto.
  unfold binary_round. destruct (shl_align _ _ _) as [mz ez].
  now apply plus_class_bra.
Qed.

Lemma SFsqrt_plus x : plus_class x -> plus_class (SFsqrt prec emax x).
Proof.
  destruct x as [s|s| |s m e]; simpl; intros H; subst; simpl; auto.
  unfold SFsqrt_core_binary.
  set (m' := match _ with Z0 => Z.pos m | Z.pos _ => _ | Z.neg _ => 0%Z end).
  assert (0 <= m')%Z as Hm'.
  { unfold m'. destruct (_ - _)%Z; try lia. apply Z.shiftl_nonneg. lia. }
  pose proof (Z.sqrtrem_sqrt m') as Hq. pose proof (Z.sqrt_nonneg m') as Hq'.
  destruct (Z.sqrtrem m') as [q r]. simpl in Hq. subst q.
  now apply plus_class_bra.
Qed.

Lemma plus_class_leb x :
  plus_class (Prim2SF x) -> is_nan x = false /\ (0 <=? x) = true.
Proof.
  intros H. split.
  - destruct (is_nan x) eqn:E; auto. apply is_nan_spec in E. rewrite E in H. destruct H.
  - rewrite FloatAxioms.leb_spec, Prim2SF_zero.
    destruct (Prim2SF x) as [s|s| |s m e]; simpl in H; subst; try reflexivity. destruct H.
Qed.

Lemma sum_squares_plus (u v w : float) :
  is_nan u = false -> is_nan v = false -> is_nan w = false ->
  plus_class (Prim2SF (u * u + v * v + w * w)).
Proof.
  intros Hu%not_nan_spec Hv%not_nan_spec Hw%not_nan_spec.
  rewrite !FloatAxioms.add_spec, !FloatAxioms.mul_spec.
  repeat apply SFadd_plus; now apply SFmul_square_plus.
Qed.

Lemma sqrt_sum_squares_plus (u v w : float) :
  is_nan u = false -> is_nan v = false -> is_nan w = false ->
  plus_class (Prim2SF (Std.sqrt (u * u + v * v + w * w))).
Proof.
  intros Hu Hv Hw. unfold Std.sqrt. rewrite FloatAxioms.sqrt_spec.
  now apply SFsqrt_plus, sum_squares_plus.
Qed.

Lemma sqrt_sum_squares_nan (u v w : float) :
  is_nan (Std.sqrt (u * u + v * v + w * w)) = is_nan u || is_nan v || is_nan w.
Proof.
  destruct (is_nan u) eqn:Hu; simpl.
  { apply sqrt_nan, add_nan_l, add_nan_l. now apply mul_nan_l. }
  destruct (is_nan v) eqn:Hv; simpl.
  { apply sqrt_nan, add_nan_l, add_nan_r. now apply mul_nan_l. }
  destruct (is_nan w) eqn:Hw; simpl.
  { apply sqrt_nan, add_nan_r. now apply mul_nan_l. }
  now apply plus_class_leb, sqrt_sum_squares_plus.
Qed.

(** X3.  [magnitude()] is NaN exactly when a coordinate is NaN, infinite
    coordinates and overflowing squares included, and is never below zero
    otherwise. *)
Theorem magnitude_nan_iff_coordinate_nan (p : Point) :
  is_nan (magnitude p) = is_nan (m_X p) || is_nan (m_Y p) || is_nan (m_Z p)
  /\ (is_nan (magnitude p) = true \/ (0 <=? magnitude p) = true).
Proof.
  unfold magnitude. split; [apply sqrt_sum_squares_nan|].
  apply signed_nonneg, sqrt_sum_squares_signed.
Qed.

Lemma sub_zero_r (x : float) : x - 0 = x.
Proof.
  apply Prim2SF_inj. rewrite FloatAxioms.sub_spec, Prim2SF_zero.
  destruct (Prim2SF x) as [[]|[]| |s m e]; reflexivity.
Qed.

Lemma sub_self (x : float) : x - x = (if is_finite x then 0 else nan).
Proof.
  apply Prim2SF_inj. rewrite FloatAxioms.sub_spec. unfold SF64sub.
  rewrite SFsub_diag, is_finite_spec. now destruct (Prim2SF x).
Qed.

Lemma op_sub_default (p : Point) : op_sub p default = p.
Proof.
  destruct p as [x y z]. unfold op_sub, default; simpl. now rewrite !sub_zero_r.
Qed.

(** X4.  [p.distance(q)] and [q.distance(p)] are the same double. *)
Theorem distance_symmetric (p q : Point) : distance p q = distance q p.
Proof. apply distance_sym. Qed.

(** X5.  [p.distance(q)] is the magnitude of [q - p] and of [p - q], and the
    distance between [p] and [Point()], either way, is the magnitude of
    [p]. *)
Theorem distance_is_magnitude_of_difference (p q : Point) :
  distance p q = magnitude (op_sub q p)
  /\ distance p q = magnitude (op_sub p q)
  /\ distance default p = magnitude p
  /\ distance p default = magnitude p.
Proof.
  assert (forall a b, distance a b = magnitude (op_sub b a)) as H by reflexivity.
  split; [apply H|]. split; [rewrite distance_sym; apply H|].
  split; [now rewrite H, op_sub_default | now rewrite distance_sym, H, op_sub_default].
Qed.

(** X6.  The distance of a Point to itself is 0 when its coordinates are
    finite and NaN as soon as one of them is infinite or NaN. *)
Theorem distance_self (p : Point) :
  distance p p = (if finite_point p then 0 else nan).
Proof.
  unfold distance, finite_point. rewrite !sub_self.
  destruct (is_finite (m_X p)), (is_finite (m_Y p)), (is_finite (m_Z p)); reflexivity.
Qed.

(** X7.  [dot] is commutative, and [p.dot(p)] is neither NaN nor below zero
    when no coordinate of [p] is NaN. *)
Theorem dot_commutative_self_nonnegative (p q : Point) :
  dot p q = dot q p
  /\ (no_nan p = true -> is_nan (dot p p) = false /\ (0 <=? dot p p) = true).
Proof.
  split; [apply dot_comm|]. unfold no_nan. intros H.
  apply andb_true_iff in H as [H Hz]. apply andb_true_iff in H as [Hx Hy].
  apply negb_true_iff in Hx, Hy, Hz.
  unfold dot. now apply plus_class_leb, sum_squares_plus.
Qed.

Lemma add_zero_r_same (x : float) : same (x + 0) x.
Proof.
  unfold same. rewrite FloatAxioms.add_spec, Prim2SF_zero.
  destruct (Prim2SF x) as [[]|[]| |s m e]; simpl; auto.
Qed.

(** X8.  [operator+] is commutative, and [p + Point()] is [p], a
    coordinate [-0] becoming [+0]. *)
Theorem op_add_commutative (p q : Point) :
  op_add p q = op_add q p /\ psame (op_add p default) p.
Proof.
  split.
  - unfold op_add. now rewrite (add_comm (m_X p)), (add_comm (m_Y p)), (add_comm (m_Z p)).
  - unfold psame, op_add, default; simpl. repeat split; apply add_zero_r_same.
Qed.

(** X9.  [p - Point()] is [p]; [p - p] is [Point()] for a finite [p]; and
    [q - p] is [p - q] with every coordinate negated, up to the sign of a
    zero. *)
Theorem op_sub_identities (p : Point) :
  op_sub p default = p
  /\ (finite_point p = true -> op_sub p p = default)
  /\ (forall q, psame (op_sub q p) (negate (op_sub p q))).
Proof.
  split; [apply op_sub_default|]. split; [apply op_sub_diag|].
  intros q. apply op_sub_swap.
Qed.

(** X10.  Every coordinate of [p.cross(p)] is [+0] or NaN. *)
Theorem cross_self (p : Point) :
  (m_X (cross p p) = 0 \/ m_X (cross p p) = nan)
  /\ (m_Y (cross p p) = 0 \/ m_Y (cross p p) = nan)
  /\ (m_Z (cross p p) = 0 \/ m_Z (cross p p) = nan).
Proof.
  unfold cross; simpl.
  rewrite (mul_comm (m_Z p) (m_Y p)), (mul_comm (m_X p) (m_Z p)), (mul_comm (m_Y p) (m_X p)).
  rewrite !sub_self.
  repeat split; match goal with |- context [is_finite ?x] => destruct (is_finite x) end; auto.
Qed.

Lemma SFabs_opp x : SFabs (SFopp x) = SFabs x.
Proof. now destruct x. Qed.

Lemma abs_sub_swap (a b : float) : abs (a - b) = abs (b - a).
Proof.
  apply Prim2SF_inj. rewrite !FloatAxioms.abs_spec, !FloatAxioms.sub_spec. unfold SF64sub.
  destruct (SFsub_swap (Prim2SF a) (Prim2SF b)) as [H|[H1 H2]].
  - now rewrite H, SFabs_opp.
  - now rewrite H1, H2.
Qed.

Lemma SFcompare_Eq_abs x y :
  SFcompare (SFabs x) (SFabs y) = Some Eq -> SFabs x = SFabs y.
Proof.
  destruct x as [sx|sx| |sx mx ex], y as [sy|sy| |sy my ey]; simpl;
    try discriminate; try reflexivity.
  destruct (Z.compare ex ey) eqn:E; try discriminate.
  apply Z.compare_eq in E. subst. intros H. injection H as H.
  change (Pos.compare_cont Eq mx my) with (Pos.compare mx my) in H.
  apply Pos.compare_eq in H. now subst.
Qed.

Lemma max_abs_comm (a b : float) :
  is_nan a = false -> is_nan b = false ->
  Std.max (abs a) (abs b) = Std.max (abs b) (abs a).
Proof.
  intros Ha%not_nan_spec Hb%not_nan_spec. unfold Std.max.
  rewrite !FloatAxioms.ltb_spec. unfold SFltb.
  rewrite (SFcompare_antisym (Prim2SF (abs a)) (Prim2SF (abs b))).
  assert (Prim2SF (abs a) <> S754_nan) as Ha'.
  { rewrite FloatAxioms.abs_spec. now destruct (Prim2SF a). }
  assert (Prim2SF (abs b) <> S754_nan) as Hb'.
  { rewrite FloatAxioms.abs_spec. now destruct (Prim2SF b). }
  pose proof (SFcompare_None _ _ Ha' Hb') as Hc.
  destruct (SFcompare (Prim2SF (abs a)) (Prim2SF (abs b))) as [[]|] eqn:E; simpl;
    try reflexivity; try congruence.
  apply Prim2SF_inj. rewrite !FloatAxioms.abs_spec in *.
  now apply SFcompare_Eq_abs.
Qed.

Lemma leb_nan_l (x y : float) : is_nan x = true -> (x <=? y) = false.
Proof.
  intros H%is_nan_spec. now rewrite FloatAxioms.leb_spec, H.
Qed.

Lemma abs_nan (x : float) : is_nan x = true -> is_nan (abs x) = true.
Proof.
  intros H%is_nan_spec. apply is_nan_spec. now rewrite FloatAxioms.abs_spec, H.
Qed.

Lemma sub_nan_r (x y : float) : is_nan y = true -> is_nan (x - y) = true.
Proof.
  intros H%is_nan_spec. apply is_nan_spec. rewrite FloatAxioms.sub_spec, H.
  now destruct (Prim2SF x).
Qed.

Lemma nearlyEqual_sym (a b e : Scalar_t) : nearlyEqual a b e = nearlyEqual b a e.
Proof.
  unfold nearlyEqual, Std.fabs. rewrite (abs_sub_swap b a).
  destruct (is_nan a) eqn:Ha.
  { rewrite !leb_nan_l; auto; now apply abs_nan, sub_nan_l. }
  destruct (is_nan b) eqn:Hb.
  { rewrite !leb_nan_l; auto; now apply abs_nan, sub_nan_r. }
  now rewrite max_abs_comm.
Qed.

(** X11.  [operator==] and [operator!=] give the same answer for [p, q]
    and for [q, p], NaN and infinite coordinates included, although
    [std::max] is not symmetric on a NaN. *)
Theorem op_eq_symmetric (p q : Point) :
  op_eq p q = op_eq q p /\ op_ne p q = op_ne q p.
Proof.
  unfold op_ne, op_eq.
  now rewrite (nearlyEqual_sym (m_X p)), (nearlyEqual_sym (m_Y p)), (nearlyEqual_sym (m_Z p)).
Qed.

(** X12.  [nearlyEqual] holds [+inf] equal to every scalar but [+inf] and
    NaN: the difference and the tolerance are both [+inf]. *)
Theorem nearlyEqual_infinity (b : Scalar_t) :
  nearlyEqual infinity b sc_Precision = negb (is_nan b) && negb (b =? infinity)
  /\ nearlyEqual b infinity sc_Precision = negb (is_nan b) && negb (b =? infinity).
Proof.
  assert (nearlyEqual infinity b sc_Precision = negb (is_nan b) && negb (b =? infinity)) as H.
  { unfold nearlyEqual, Std.fabs, Std.max, is_nan.
    assert ((abs infinity <? abs b) = false) as ->.
    { rewrite FloatAxioms.ltb_spec, !FloatAxioms.abs_spec, Prim2SF_infinity.
      now destruct (Prim2SF b) as [s|[]| |s m e]. }
    change (sc_Precision * abs infinity) with infinity.
    rewrite FloatAxioms.leb_spec, FloatAxioms.abs_spec, FloatAxioms.sub_spec, !FloatAxioms.eqb_spec.
    rewrite Prim2SF_infinity. unfold SFeqb.
    destruct (Prim2SF b) as [s|[]| |s m e] eqn:E; try reflexivity;
      rewrite SFcompare_refl by discriminate; now destruct s. }
  split; [exact H | now rewrite nearlyEqual_sym].
Qed.

Lemma SFeqb_eqz x y : SFeqb x y = true -> eqz x y.
Proof.
  unfold SFeqb.
  destruct x as [sx|sx| |sx mx ex], y as [sy|sy| |sy my ey]; simpl;
    try discriminate; try exact (fun _ => I); try (now destruct sx, sy);
    try (now destruct sx); try (now destruct sy).
  destruct sx, sy; try discriminate;
    destruct (Z.compare ex ey) eqn:E; try discriminate;
    apply Z.compare_eq in E; subst;
    change (Pos.compare_cont Eq mx my) with (Pos.compare mx my);
    destruct (Pos.compare mx my) eqn:E'; try discriminate;
    apply Pos.compare_eq in E'; now subst.
Qed.

Lemma eqb_same (a b : float) : (a =? b) = true -> same a b.
Proof. rewrite FloatAxioms.eqb_spec. apply SFeqb_eqz. Qed.

#[local] Instance abs_same : Proper (same ==> same) abs.
Proof.
  intros u u' Hu. unfold same in *. rewrite !FloatAxioms.abs_spec.
  destruct (Prim2SF u), (Prim2SF u'); simpl in *; try congruence; auto.
Qed.

#[local] Instance leb_same : Proper (same ==> same ==> eq) PrimFloat.leb.
Proof.
  intros u u' Hu v v' Hv. rewrite !FloatAxioms.leb_spec. unfold SFleb.
  now rewrite (SFcompare_eqz_l _ _ _ Hu), (SFcompare_eqz_r _ _ _ Hv).
Qed.

#[local] Instance max_same_proper : Proper (same ==> same ==> same) Std.max.
Proof.
  intros u u' Hu v v' Hv. unfold Std.max.
  assert ((u <? v) = (u' <? v')) as <- by now rewrite Hu, Hv.
  now destruct (u <? v).
Qed.

#[local] Instance nearlyEqual_same : Proper (same ==> same ==> eq ==> eq) nearlyEqual.
Proof.
  intros a a' Ha b b' Hb e e' <-. unfold nearlyEqual, Std.fabs.
  now rewrite Ha, Hb.
Qed.

(** X13.  Two scalars that compare equal with [==], [+0] and [-0] among
    them, are nearly equal exactly when they are finite. *)
Theorem nearlyEqual_of_equal (a b : Scalar_t) :
  (a =? b) = true -> nearlyEqual a b sc_Precision = is_finite a.
Proof.
  intros H%eqb_same. rewrite <- H. apply nearlyEqual_diag.
Qed.

(** [nearlyEqual_of_equal] on the two zeros. *)
Lemma nearlyEqual_of_equal_witness : nearlyEqual 0 (- 0) sc_Precision = is_finite 0.
Proof. apply (nearlyEqual_of_equal 0 (- 0)). reflexivity. Defined.

Lemma div_eucl_nonneg a b : (0 <= a)%Z -> (0 < b)%Z -> (0 <= fst (Z.div_eucl a b))%Z.
Proof.
  intros Ha Hb. pose proof (Z_div_mod a b ltac:(lia)) as H.
  destruct (Z.div_eucl a b) as [q r]. simpl. nia.
Qed.

Lemma SFdiv_not_nan x y :
  match x with S754_zero _ | S754_finite _ _ _ => True | _ => False end ->
  match y with S754_finite false _ _ | S754_infinity false => True | _ => False end ->
  SFdiv prec emax x y <> S754_nan.
Proof.
  destruct x as [sx|sx| |sx mx ex], y as [sy|[]| |[] my ey]; simpl; try tauto;
    try discriminate.
  intros _ _. unfold SFdiv_core_binary.
  set (m' := match _ with Z0 => Z.pos mx | Z.pos _ => _ | Z.neg _ => 0%Z end).
  assert (0 <= m')%Z as Hm'.
  { unfold m'. destruct (_ - _)%Z; try lia. apply Z.shiftl_nonneg. lia. }
  pose proof (div_eucl_nonneg m' (Z.pos my) Hm' ltac:(lia)) as Hq.
  destruct (Z.div_eucl m' (Z.pos my)) as [q r]. simpl in Hq.
  now apply bra_not_nan.
Qed.

Lemma ltb_eps_class (m : float) :
  (sc_Precision <? m) = true ->
  match Prim2SF m with S754_finite false _ _ | S754_infinity false => True | _ => False end.
Proof.
  rewrite FloatAxioms.ltb_spec, Prim2SF_eps. unfold SFltb.
  destruct (Prim2SF m) as [s|[]| |[] mm em]; simpl; try discriminate; auto.
Qed.

Lemma div_not_nan (x m : float) :
  is_finite x = true -> (sc_Precision <? m) = true -> is_nan (x / m) = false.
Proof.
  intros Hx Hm. destruct (is_nan (x / m)) eqn:E; auto. exfalso.
  apply is_nan_spec in E. rewrite FloatAxioms.div_spec in E. revert E.
  apply SFdiv_not_nan.
  - rewrite is_finite_spec in Hx. now destruct (Prim2SF x).
  - now apply ltb_eps_class.
Qed.

(** X14.  [normalize()] of a Point with finite coordinates has no NaN
    coordinate, whichever branch is taken. *)
Theorem normalize_finite_has_no_nan (p : Point) :
  finite_point p = true -> no_nan (normalize p) = true.
Proof.
  intros (Hx & Hy & Hz)%finite_point_split.
  unfold normalize, no_nan. destruct (sc_Precision <? magnitude p) eqn:E; simpl.
  - now rewrite !div_not_nan.
  - reflexivity.
Qed.

(** [normalize_finite_has_no_nan] on [(2^600, 0, 0)]. *)
Lemma normalize_finite_has_no_nan_witness : no_nan (normalize Scenarios.huge_x) = true.
Proof. apply (normalize_finite_has_no_nan Scenarios.huge_x). reflexivity. Defined.

End MorePointTheorems.

(** * Further properties of Segment *)

Section MoreSegmentTheorems.
Import PointOps SegmentOps.

#[local] Existing Instances psame_equivalence op_add_psame op_mul_psame dot_psame
  distance_psame.

Lemma mul_zero_r_same (d z : float) : is_finite d = true -> same z 0 -> same (d * z) 0.
Proof.
  intros Hd Hz. rewrite Hz. unfold same.
  rewrite FloatAxioms.mul_spec, Prim2SF_zero. rewrite is_finite_spec in Hd.
  now destruct (Prim2SF d).
Qed.

Lemma op_mul_zero (d : Point) (z : float) :
  finite_point d = true -> same z 0 -> psame (op_mul d z) default.
Proof.
  intros (Hx & Hy & Hz)%finite_point_split Hs.
  unfold psame, op_mul, default; simpl. repeat split; now apply mul_zero_r_same.
Qed.

Lemma op_add_zero (s w : Point) : psame w default -> psame (op_add s w) s.
Proof.
  intros H. rewrite H. unfold psame, op_add, default; simpl.
  repeat split; apply add_zero_r_same.
Qed.

(** A start point moved along a finite direction by a zero parameter. *)
Lemma anchored (s d : Point) (z : float) :
  finite_point d = true -> same z 0 -> psame (op_add s (op_mul d z)) s.
Proof. intros Hd Hz. now apply op_add_zero, op_mul_zero. Qed.

Lemma parallel_branch_anchored (s1 s2 : Segment) :
  (sc_Precision <? Std.fabs (Spec.denominator s1 s2)) = false ->
  finite_point (op_sub (m_End s1) (m_Start s1)) = true ->
  closestDistance s1 s2
  = distance (m_Start s1)
      (op_add (m_Start s2)
         (op_mul (op_sub (m_End s2) (m_Start s2))
            (Std.clamp (dot (op_sub (m_End s2) (m_Start s2))
                            (op_sub (m_Start s1) (m_Start s2))
                        / dot (op_sub (m_End s2) (m_Start s2))
                              (op_sub (m_End s2) (m_Start s2)))
               sc_ParametricL sc_ParametricH))).
Proof.
  intros H Hd. unfold closestDistance. unfold Spec.denominator in H. cbv zeta in H.
  cbv zeta. rewrite H. cbv beta iota.
  apply distance_psame; [|reflexivity].
  apply anchored; [exact Hd | reflexivity].
Qed.

(** X15.  When the absolute denominator does not exceed the threshold (the
    parallel branch) and the direction of the first segment is finite, the
    result is the distance from the start of the first segment to the point
    of the second segment at the clamped parameter [t = f / e]. *)
Theorem closestDistance_parallel_branch (s1 s2 : Segment) :
  (sc_Precision <? Std.fabs (Spec.denominator s1 s2)) = false ->
  finite_point (op_sub (m_End s1) (m_Start s1)) = true ->
  closestDistance s1 s2
  = distance (m_Start s1)
      (op_add (m_Start s2)
         (op_mul (op_sub (m_End s2) (m_Start s2))
            (Std.clamp (dot (op_sub (m_End s2) (m_Start s2))
                            (op_sub (m_Start s1) (m_Start s2))
                        / dot (op_sub (m_End s2) (m_Start s2))
                              (op_sub (m_End s2) (m_Start s2)))
               sc_ParametricL sc_ParametricH))).
Proof. apply parallel_branch_anchored. Qed.

(** [closestDistance_parallel_branch] on [SegmentTest.SharedEndpoint]: the
    distance from (0, 0, 0) to (3, 3, 3). *)
Lemma closestDistance_parallel_branch_witness :
  closestDistance Scenarios.shared1 Scenarios.shared2
  = distance (mkPoint 0 0 0) (mkPoint 3 3 3).
Proof.
  rewrite (closestDistance_parallel_branch Scenarios.shared1 Scenarios.shared2);
    reflexivity.
Defined.

Lemma denominator_point_first (p : Point) (s2 : Segment) :
  finite_point p = true ->
  (sc_Precision <? Std.fabs (Spec.denominator (mkSegment p p) s2)) = false.
Proof.
  intros Hp. unfold Spec.denominator. cbn [m_Start m_End]. rewrite (op_sub_diag p Hp).
  apply ltb_eps_zero. rewrite FloatAxioms.sub_spec, !FloatAxioms.mul_spec.
  apply SFsub_zero; apply SFmul_zero_l; apply dot_zero_l.
Qed.

(** X16.  With a single finite point [p] as the first segment, the result
    is the distance from [p] to the point of the second segment at the
    clamped parameter [d2.(p - start2) / d2.d2], the projection of [p]. *)
Theorem closestDistance_point_first (p : Point) (s2 : Segment) :
  finite_point p = true ->
  closestDistance (mkSegment p p) s2
  = distance p
      (op_add (m_Start s2)
         (op_mul (op_sub (m_End s2) (m_Start s2))
            (Std.clamp (dot (op_sub (m_End s2) (m_Start s2)) (op_sub p (m_Start s2))
                        / dot (op_sub (m_End s2) (m_Start s2))
                              (op_sub (m_End s2) (m_Start s2)))
               sc_ParametricL sc_ParametricH))).
Proof.
  intros Hp.
  rewrite (parallel_branch_anchored (mkSegment p p) s2 (denominator_point_first p s2 Hp)).
  - reflexivity.
  - cbn [m_Start m_End]. now rewrite (op_sub_diag p Hp).
Qed.

(** [closestDistance_point_first] on the point (0, 1, 0) and the unit
    segment of the x axis: the distance from the point to (0, 0, 0). *)
Lemma closestDistance_point_first_witness :
  closestDistance Scenarios.point_y Scenarios.unit_x
  = distance (mkPoint 0 1 0) (mkPoint 0 0 0).
Proof.
  unfold Scenarios.point_y, seg.
  rewrite (closestDistance_point_first (mkPoint 0 1 0) Scenarios.unit_x); reflexivity.
Defined.

Lemma div_zero_l_same (z e : float) :
  same z 0 -> is_nan e = false -> (e =? 0) = false -> same (z / e) 0.
Proof.
  intros Hz He%not_nan_spec Hne. rewrite Hz. unfold same.
  rewrite FloatAxioms.div_spec, Prim2SF_zero.
  rewrite FloatAxioms.eqb_spec, Prim2SF_zero in Hne. unfold SFeqb in Hne.
  destruct (Prim2SF e) as [s|s| |s m ee]; simpl in *; try congruence; auto.
Qed.

Lemma dot_zero_r_same (d : Point) : finite_point d = true -> same (dot d default) 0.
Proof.
  intros (Hx & Hy & Hz)%finite_point_split.
  unfold dot, default; simpl.
  rewrite (mul_zero_r_same _ 0 Hx), (mul_zero_r_same _ 0 Hy), (mul_zero_r_same _ 0 Hz);
    reflexivity.
Qed.

(** X17.  The distance of a segment to itself is exactly 0 when its start
    and its direction are finite and the squared length [d.d] is not zero. *)
Theorem closestDistance_self (s : Segment) :
  finite_point (m_Start s) = true ->
  finite_point (op_sub (m_End s) (m_Start s)) = true ->
  (dot (op_sub (m_End s) (m_Start s)) (op_sub (m_End s) (m_Start s)) =? 0) = false ->
  closestDistance s s = 0.
Proof.
  intros Hs Hd He.
  assert ((sc_Precision <? Std.fabs (Spec.denominator s s)) = false) as Hden.
  { unfold Spec.denominator. cbv zeta. rewrite sub_self. apply ltb_eps_zero.
    now destruct (is_finite _). }
  rewrite (parallel_branch_anchored s s Hden Hd).
  set (D := op_sub (m_End s) (m_Start s)) in *.
  rewrite (op_sub_diag _ Hs).
  assert (is_nan (dot D D) = false) as Hn.
  { destruct (finite_point_split D Hd) as (Hx & Hy & Hz).
    unfold dot. apply plus_class_leb, sum_squares_plus; now apply finite_not_nan. }
  assert (same (Std.clamp (dot D default / dot D D) sc_ParametricL sc_ParametricH) 0) as Ht.
  { rewrite (div_zero_l_same _ _ (dot_zero_r_same D Hd) Hn He). reflexivity. }
  rewrite (distance_psame _ _ (reflexivity (m_Start s)) _ _ (anchored (m_Start s) D _ Hd Ht)).
  destruct (finite_point_split _ Hs) as (Hx & Hy & Hz).
  unfold distance. now rewrite !sub_diag_finite.
Qed.

(** [closestDistance_self] on the first segment of
    [SegmentTest.CoincidentSegments]. *)
Lemma closestDistance_self_witness :
  closestDistance (seg 0 0 0 5 5 5) (seg 0 0 0 5 5 5) = 0.
Proof. apply (closestDistance_self (seg 0 0 0 5 5 5)); reflexivity. Defined.

(** [closestDistance_to_point_is_nan] on the unit segment of the x axis and
    the point (0, 1, 0). *)
Lemma closestDistance_to_point_is_nan_witness :
  is_nan (closestDistance Scenarios.unit_x Scenarios.point_y) = true.
Proof.
  unfold Scenarios.point_y, seg.
  apply (closestDistance_to_point_is_nan Scenarios.unit_x (mkPoint 0 1 0)). reflexivity.
Defined.

End MoreSegmentTheorems.

(** * Copies, and what a move leaves alone *)

Section CopyTheorems.
Import PointOps Objects.

Lemma read_X_Some (h : store) (a : addr) (p : Point) :
  h !! a = Some p -> read_X a h = Some (m_X p).
Proof. intros H. unfold read_X. now rewrite H. Qed.

Lemma read_Y_Some (h : store) (a : addr) (p : Point) :
  h !! a = Some p -> read_Y a h = Some (m_Y p).
Proof. intros H. unfold read_Y. now rewrite H. Qed.

Lemma read_Z_Some (h : store) (a : addr) (p : Point) :
  h !! a = Some p -> read_Z a h = Some (m_Z p).
Proof. intros H. unfold read_Z. now rewrite H. Qed.

(** The store after a copy assignment, self-assignment included. *)
Lemma copy_assign_store (h : store) (this p_Other : addr) (p q : Point) :
  h !! p_Other = Some p -> h !! this = Some q ->
  copy_assign this p_Other h = Some (<[this := p]> h).
Proof.
  intros Hp Hq. unfold copy_assign.
  destruct (decide (this = p_Other)) as [->|Hne].
  - now rewrite insert_id.
  - destruct p as [x y z].
    erewrite read_X_Some by exact Hp. cbn [mbind option_bind].
    erewrite assign_X_Some by exact Hq. cbn [mbind option_bind].
    erewrite read_Y_Some by (apply lookup_after_other; [congruence | exact Hp]).
    cbn [mbind option_bind].
    erewrite assign_Y_Some by apply lookup_insert_eq. cbn [mbind option_bind].
    erewrite read_Z_Some
      by (apply lookup_after_other; [congruence|]; apply lookup_after_other;
          [congruence | exact Hp]).
    cbn [mbind option_bind].
    erewrite assign_Z_Some by apply lookup_insert_eq.
    f_equal. rewrite !insert_insert_eq. reflexivity.
Qed.

Lemma copy_constructor_store (h : store) (this p_Other : addr) (p : Point) :
  h !! p_Other = Some p ->
  copy_constructor this p_Other h = Some (<[this := p]> h).
Proof.
  intros Hp. unfold copy_constructor. destruct p as [x y z].
  erewrite read_X_Some, read_Y_Some, read_Z_Some by exact Hp. reflexivity.
Qed.

(** The store after a move assignment between two distinct objects. *)
Lemma move_assign_store (h : store) (this p_Other : addr) (p q : Point) :
  h !! p_Other = Some p -> h !! this = Some q -> this <> p_Other ->
  move_assign this p_Other h = Some (<[this := p]> (<[p_Other := default]> h)).
Proof.
  intros Hp Hq Hne. unfold move_assign.
  destruct (decide (this = p_Other)) as [|_]; [done|]. destruct p as [x y z].
  erewrite exchange_X_Some by exact Hp. cbn [mbind option_bind].
  erewrite assign_X_Some by (apply lookup_after_other; [exact Hne | exact Hq]).
  cbn [mbind option_bind].
  erewrite exchange_Y_Some
    by (apply lookup_after_other; [congruence | apply lookup_insert_eq]).
  cbn [mbind option_bind].
  erewrite assign_Y_Some
    by (apply lookup_after_other; [exact Hne | apply lookup_insert_eq]).
  cbn [mbind option_bind].
  erewrite exchange_Z_Some
    by (apply lookup_after_other; [congruence | apply lookup_insert_eq]).
  cbn [mbind option_bind].
  erewrite assign_Z_Some
    by (apply lookup_after_other; [exact Hne | apply lookup_insert_eq]).
  f_equal. apply map_eq. intros a.
  destruct (decide (a = this)) as [->|Ha].
  - now rewrite !lookup_insert_eq.
  - rewrite !(lookup_insert_ne _ this a) by congruence.
    destruct (decide (a = p_Other)) as [->|Hb].
    + now rewrite !lookup_insert_eq.
    + now rewrite !lookup_insert_ne by congruence.
Qed.

Lemma move_constructor_store (h : store) (this p_Other : addr) (p : Point) :
  h !! p_Other = Some p ->
  move_constructor this p_Other h = Some (<[this := p]> (<[p_Other := default]> h)).
Proof.
  intros Hp. unfold move_constructor. destruct p as [x y z].
  erewrite exchange_X_Some by exact Hp. cbn [mbind option_bind].
  erewrite exchange_Y_Some by apply lookup_insert_eq. cbn [mbind option_bind].
  erewrite exchange_Z_Some by apply lookup_insert_eq. cbn [mbind option_bind].
  f_equal. f_equal. now rewrite !insert_insert_eq.
Qed.

(** X18.  The copy constructor and copy assignment give the target the
    coordinates of the source and change no other object: the source keeps
    its value, and assigning an object to itself changes nothing. *)
Theorem copy_keeps_source (h : store) (this p_Other : addr) (p : Point) :
  h !! p_Other = Some p ->
  (exists h', copy_constructor this p_Other h = Some h'
              /\ h' !! this = Some p
              /\ forall a, a <> this -> h' !! a = h !! a)
  /\ (is_Some (h !! this) ->
      exists h', copy_assign this p_Other h = Some h'
                 /\ h' !! this = Some p /\ h' !! p_Other = Some p
                 /\ forall a, a <> this -> h' !! a = h !! a).
Proof.
  intros Hp. split.
  - rewrite (copy_constructor_store h this p_Other p Hp). eexists; split; [reflexivity|].
    split; [apply lookup_insert_eq|].
    intros a Ha. now rewrite lookup_insert_ne.
  - intros [q Hq]. rewrite (copy_assign_store h this p_Other p q Hp Hq).
    eexists; split; [reflexivity|]. split; [apply lookup_insert_eq|]. split.
    + destruct (decide (this = p_Other)) as [->|Hne].
      * apply lookup_insert_eq.
      * now rewrite lookup_insert_ne.
    + intros a Ha. now rewrite lookup_insert_ne.
Qed.

(** [copy_keeps_source] on the objects of [PointTest.AssignmentOperators]:
    a third object constructed from the first, the first assigned to the
    second. *)
Lemma copy_keeps_source_witness :
  (exists h', copy_constructor 3 1 Scenarios.two_objects = Some h'
              /\ h' !! 3%positive = Some (mkPoint 10 11 12)
              /\ forall a, a <> 3%positive -> h' !! a = Scenarios.two_objects !! a)
  /\ (exists h', copy_assign 2 1 Scenarios.two_objects = Some h'
                 /\ h' !! 2%positive = Some (mkPoint 10 11 12)
                 /\ h' !! 1%positive = Some (mkPoint 10 11 12)
                 /\ forall a, a <> 2%positive -> h' !! a = Scenarios.two_objects !! a).
Proof.
  split.
  - apply (copy_keeps_source Scenarios.two_objects 3 1 (mkPoint 10 11 12)). reflexivity.
  - apply (copy_keeps_source Scenarios.two_objects 2 1 (mkPoint 10 11 12));
      [reflexivity | eexists; reflexivity].
Defined.

(** X19.  A move, by construction or by assignment, changes the target and
    the source only: every other object keeps its value; and a move
    assignment of an object to itself changes nothing. *)
Theorem move_touches_two_objects (h : store) (this p_Other : addr) (p : Point) :
  h !! p_Other = Some p ->
  this <> p_Other ->
  (exists h', move_constructor this p_Other h = Some h'
              /\ forall a, a <> this -> a <> p_Other -> h' !! a = h !! a)
  /\ (is_Some (h !! this) ->
      exists h', move_assign this p_Other h = Some h'
                 /\ forall a, a <> this -> a <> p_Other -> h' !! a = h !! a)
  /\ move_assign p_Other p_Other h = Some h.
Proof.
  intros Hp Hne. split; [|split].
  - rewrite (move_constructor_store h this p_Other p Hp). eexists; split; [reflexivity|].
    intros a Ha Hb. now rewrite !lookup_insert_ne.
  - intros [q Hq]. rewrite (move_assign_store h this p_Other p q Hp Hq Hne).
    eexists; split; [reflexivity|]. intros a Ha Hb. now rewrite !lookup_insert_ne.
  - apply move_assign_self.
Qed.

(** [move_touches_two_objects] on the objects of
    [PointTest.AssignmentOperators]. *)
Lemma move_touches_two_objects_witness :
  (exists h', move_constructor 3 1 Scenarios.two_objects = Some h'
              /\ forall a, a <> 3%positive -> a <> 1%positive ->
                           h' !! a = Scenarios.two_objects !! a)
  /\ move_assign 1 1 Scenarios.two_objects = Some Scenarios.two_objects.
Proof.
  split.
  - apply (move_touches_two_objects Scenarios.two_objects 3 1 (mkPoint 10 11 12));
      [reflexivity | discriminate].
  - apply (move_touches_two_objects Scenarios.two_objects 3 1 (mkPoint 10 11 12));
      [reflexivity | discriminate].
Defined.

(** X20.  [b = a; c = std::move(b);] on three distinct objects, as
    [PointTest.AssignmentOperators] does: [a] keeps its value, [c] holds it,
    and [b] is the default Point. *)
Theorem copy_then_move (h : store) (a b c : addr) (p : Point) :
  h !! a = Some p -> is_Some (h !! b) -> is_Some (h !! c) ->
  a <> b -> a <> c -> b <> c ->
  exists h', (copy_assign b a h ≫= move_assign c b) = Some h'
             /\ h' !! a = Some p /\ h' !! b = Some default /\ h' !! c = Some p.
Proof.
  intros Ha [qb Hb] [qc Hc] Hab Hac Hbc.
  rewrite (copy_assign_store h b a p qb Ha Hb). cbn [mbind option_bind].
  rewrite (move_assign_store _ c b p qc).
  - eexists; split; [reflexivity|]. split; [|split].
    + now rewrite !lookup_insert_ne.
    + rewrite lookup_insert_ne by congruence. apply lookup_insert_eq.
    + apply lookup_insert_eq.
  - apply lookup_insert_eq.
  - now rewrite lookup_insert_ne.
  - congruence.
Qed.

(** [copy_then_move] on the three objects of the test. *)
Lemma copy_then_move_witness :
  exists h', (copy_assign 2 1 Scenarios.three_objects ≫= move_assign 3 2) = Some h'
             /\ h' !! 1%positive = Some (mkPoint 10 11 12)
             /\ h' !! 2%positive = Some default
             /\ h' !! 3%positive = Some (mkPoint 10 11 12).
Proof.
  apply (copy_then_move Scenarios.three_objects 1 2 3 (mkPoint 10 11 12));
    try reflexivity; try discriminate; eexists; reflexivity.
Defined.

End CopyTheorems.

(** * Reading Points in sequence, and reading back what was written *)

Section MoreStreamTheorems.
Import PointOps IStream.

(** X21.  A read that succeeds consumes exactly the three scalars it
    returns.  On a stream with an empty exception mask a read that does not
    succeed leaves the stream failed, and every later read returns at once
    with the Point set to (0, 0, 0). *)
Theorem op_extract_in_sequence (s : InputStream_t) (p q : Point) :
  (forall a b c rest mask,
      s = mkStream (Number a :: Number b :: Number c :: rest) false mask ->
      call_op_extract s p = (false, mkStream rest false mask, mkPoint a b c))
  /\ (exceptions_failbit s = false -> reads_three s = false ->
      exists s', call_op_extract s p = (false, s', committed s)
                 /\ failbit s' = true
                 /\ call_op_extract s' q = (false, s', default)).
Proof.
  split.
  - intros a b c rest mask ->. reflexivity.
  - destruct s as [fs fb ex]. simpl. intros -> H.
    unfold call_op_extract, op_extract, committed, reads_three in *; simpl in *.
    destruct fb; simpl in *.
    + unfold bind, extract, setstate_failbit, to_bool, ret; simpl. eauto.
    + destruct fs as [|[x|x|] [|[y|y|] [|[z|z|] fs]]]; simpl in *; try discriminate;
        unfold bind, extract, setstate_failbit, to_bool, ret; simpl; eauto.
Qed.

(** [op_extract_in_sequence] on a stream of two scalars: the first read
    commits (4, 5, 0), the next one (0, 0, 0). *)
Lemma op_extract_in_sequence_witness :
  exists s', call_op_extract Scenarios.short_stream Scenarios.p123
             = (false, s', mkPoint 4 5 0)
             /\ failbit s' = true
             /\ call_op_extract s' Scenarios.p123 = (false, s', default).
Proof.
  apply (proj2 (op_extract_in_sequence Scenarios.short_stream Scenarios.p123
                  Scenarios.p123)); reflexivity.
Defined.

End MoreStreamTheorems.

Section RoundTrip.
Import PointOps IStream Serial.

(** The formatting of a scalar and the fields met in a text are the
    library's.  No scalar starts with the letter P: the first extraction from
    a text that does finds a malformed field. *)
Variable show : Scalar_t -> string.
Variable lex : string -> list field.
Hypothesis lex_P : forall rest, exists fs, lex (String "P" rest) = Malformed :: fs.

Lemma op_insert_starts_with_P (p : Point) :
  exists rest, op_insert show "" p = String "P" rest.
Proof. eexists. reflexivity. Qed.

(** X22.  What [operator<<] writes, [operator>>] does not read back: the
    text starts with ["Point["], the first extraction fails, the stream is
    left failed and the target is (0, 0, 0) whatever Point was written. *)
Theorem written_point_is_not_read_back (p q : Point) :
  exists s', call_op_extract (open lex (op_insert show "" p)) q = (false, s', default)
             /\ failbit s' = true.
Proof.
  destruct (op_insert_starts_with_P p) as [rest ->].
  destruct (lex_P rest) as [fs Hfs].
  unfold open, call_op_extract, op_extract. rewrite Hfs.
  unfold bind, extract, setstate_failbit, to_bool, ret; simpl. eauto.
Qed.

End RoundTrip.

(** [written_point_is_not_read_back] with the stand-in conversions. *)
Lemma written_point_is_not_read_back_witness :
  exists s', IStream.call_op_extract
               (Serial.open Serial.lex_first
                  (Serial.op_insert Serial.show_zero "" Scenarios.p123))
               Scenarios.p123
             = (false, s', PointOps.default)
             /\ IStream.failbit s' = true.
Proof.
  apply (written_point_is_not_read_back Serial.show_zero Serial.lex_first).
  intros rest. eexists. reflexivity.
Defined.

(** * Scaling by one and by zero *)

Section ScalingTheorems.
Import PointOps.

Lemma iter_pos_nat {A : Type} (f : A -> A) (p : positive) (x : A) :
  SpecFloat.iter_pos f p x = Nat.iter (Pos.to_nat p) f x.
Proof.
  revert x. induction p as [p IH|p IH|]; intros x.
  - change (SpecFloat.iter_pos f p~1 x)
      with (SpecFloat.iter_pos f p (SpecFloat.iter_pos f p (f x))).
    rewrite !IH, Pos2Nat.inj_xI, <- Nat.iter_add, <- Nat.iter_succ_r.
    f_equal. lia.
  - change (SpecFloat.iter_pos f p~0 x)
      with (SpecFloat.iter_pos f p (SpecFloat.iter_pos f p x)).
    rewrite !IH, Pos2Nat.inj_xO, <- Nat.iter_add. f_equal. lia.
  - reflexivity.
Qed.

Lemma digits2_pos_doubled (n : nat) (m : positive) :
  Zpos (digits2_pos (Nat.iter n xO m)) = (Zpos (digits2_pos m) + Z.of_nat n)%Z.
Proof.
  induction n as [|n IH]; [simpl; lia|].
  change (Nat.iter (S n) xO m) with (xO (Nat.iter n xO m)).
  change (digits2_pos (xO (Nat.iter n xO m)))
    with (Pos.succ (digits2_pos (Nat.iter n xO m))).
  rewrite Pos2Z.inj_succ, IH. lia.
Qed.

Lemma shr_1_doubled (n : nat) (m : positive) :
  Nat.iter n shr_1 (Build_shr_record (Zpos (Nat.iter n xO m)) false false)
  = Build_shr_record (Zpos m) false false.
Proof.
  induction n as [|n IH]; [reflexivity|].
  rewrite Nat.iter_succ_r. exact IH.
Qed.

Lemma shr_doubled (n : nat) (m : positive) (e : Z) :
  shr (shr_record_of_loc (Z.pos (Nat.iter n xO m)) loc_Exact) (e - Z.of_nat n) (Z.of_nat n)
  = (Build_shr_record (Zpos m) false false, e).
Proof.
  unfold shr, shr_record_of_loc. destruct n as [|n].
  - simpl. f_equal. lia.
  - change (Z.of_nat (S n)) with (Zpos (Pos.of_succ_nat n)). cbv beta iota.
    rewrite iter_pos_nat, SuccNat2Pos.id_succ, shr_1_doubled. f_equal. lia.
Qed.

(** Rounding a mantissa that is a representable one shifted left by [n]
    bits gives the representable number back. *)
Lemma bra_doubled (n : nat) (s : bool) (m : positive) (e : Z) :
  bounded prec emax m e = true ->
  binary_round_aux prec emax s (Zpos (Nat.iter n xO m)) (e - Z.of_nat n) loc_Exact
  = S754_finite s m e.
Proof.
  intros Hv. unfold bounded, canonical_mantissa in Hv.
  apply andb_true_iff in Hv as [Hc Hb]. apply Z.eqb_eq in Hc.
  unfold binary_round_aux, shr_fexp, Zdigits2.
  rewrite (digits2_pos_doubled n m).
  replace (Z.pos (digits2_pos m) + Z.of_nat n + (e - Z.of_nat n))%Z
    with (Z.pos (digits2_pos m) + e)%Z by lia.
  rewrite Hc.
  replace (e - (e - Z.of_nat n))%Z with (Z.of_nat n) by lia.
  rewrite shr_doubled.
  cbn [shr_m loc_of_shr_record shr_r shr_s round_nearest_even shr_record_of_loc].
  rewrite Hc, Z.sub_diag. cbn [shr fst snd shr_m].
  now rewrite Hb.
Qed.

Lemma SFmul_one_r x :
  valid_binary x = true ->
  SFmul prec emax x (S754_finite false 4503599627370496 (-52)) = x.
Proof.
  destruct x as [s|s| |s m e]; simpl; intros Hv; rewrite ?Bool.xorb_false_r; try reflexivity.
  rewrite (Pos.mul_comm m).
  change (4503599627370496 * m)%positive with (Nat.iter 52 xO m).
  change (e + -52)%Z with (e - Z.of_nat 52)%Z.
  now apply bra_doubled.
Qed.

Lemma mul_one_r (x : float) : x * 1 = x.
Proof.
  apply Prim2SF_inj. rewrite FloatAxioms.mul_spec, Prim2SF_one.
  apply SFmul_one_r, FloatAxioms.Prim2SF_valid.
Qed.

Lemma pos_doubled (n : nat) (m : positive) :
  Zpos (Nat.iter n xO m) = (Zpos m * 2 ^ Z.of_nat n)%Z.
Proof.
  induction n as [|n IH]; [simpl; lia|].
  rewrite Nat2Z.inj_succ, Z.pow_succ_r by lia.
  change (Nat.iter (S n) xO m) with (xO (Nat.iter n xO m)).
  set (q := Nat.iter n xO m) in *. set (k := (2 ^ Z.of_nat n)%Z) in *. lia.
Qed.

Lemma shiftl_doubled (n : nat) (m : positive) :
  Z.shiftl (Zpos m) (Z.of_nat n) = Zpos (Nat.iter n xO m).
Proof. rewrite Z.shiftl_mul_pow2 by lia. symmetry. apply pos_doubled. Qed.

Lemma div_eucl_doubled (n : nat) (m : positive) :
  IntDef.Z.div_eucl (Zpos (Nat.iter (52 + n) xO m)) 4503599627370496
  = (Zpos (Nat.iter n xO m), 0%Z).
Proof.
  change (Z.div_eucl (Zpos (Nat.iter (52 + n) xO m)) 4503599627370496
          = (Zpos (Nat.iter n xO m), 0%Z)).
  pose proof (Z_div_mod (Zpos (Nat.iter (52 + n) xO m)) 4503599627370496 eq_refl) as H.
  destruct (Z.div_eucl _ _) as [q r]. destruct H as [H Hr].
  rewrite pos_doubled in H. rewrite pos_doubled.
  rewrite Nat2Z.inj_add, Z.pow_add_r in H by lia.
  change (2 ^ Z.of_nat 52)%Z with 4503599627370496%Z in H.
  set (k := (2 ^ Z.of_nat n)%Z) in *.
  assert (q = Z.pos m * k)%Z by nia. f_equal; lia.
Qed.

Lemma SFdiv_one_r x :
  valid_binary x = true ->
  SFdiv prec emax x (S754_finite false 4503599627370496 (-52)) = x.
Proof.
  destruct x as [s|s| |s m e]; simpl; intros Hv; rewrite ?Bool.xorb_false_r; try reflexivity.
  pose proof Hv as Hv'. unfold bounded, canonical_mantissa in Hv'.
  apply andb_true_iff in Hv' as [Hc Hb]. apply Z.eqb_eq in Hc.
  unfold SFdiv_core_binary.
  change (Zdigits2 4503599627370496) with 53%Z.
  unfold Zdigits2.
  set (d := Z.pos (digits2_pos m)) in *.
  assert (0 < d)%Z as Hd by (unfold d; lia).
  unfold fexp in Hc |- *. unfold emin in *. 
  change prec with 53%Z in *. change emax with 1024%Z in *.
  destruct (Z.eq_dec e (-1074)%Z) as [He|He].
  - replace (Z.min _ _) with e by lia.
    replace (e - -52 - e)%Z with (Z.of_nat 52) by lia.
    rewrite shiftl_doubled. cbv beta iota.
    change (Z.of_nat 52) with 52%Z. cbv beta iota.
    change (Nat.iter 52 xO m) with (Nat.iter (52 + 0) xO m).
    rewrite (div_eucl_doubled 0 m).
    change (new_location 4503599627370496 0) with loc_Exact.
    replace e with (e - Z.of_nat 0)%Z at 1 by (simpl; lia).
    apply (bra_doubled 0 s m e Hv).
  - replace (Z.min _ _) with (e - 1)%Z by lia.
    replace (e - -52 - (e - 1))%Z with (Z.of_nat 53) by lia.
    rewrite shiftl_doubled. cbv beta iota.
    change (Z.of_nat 53) with 53%Z. cbv beta iota.
    change (Nat.iter 53 xO m) with (Nat.iter (52 + 1) xO m).
    rewrite (div_eucl_doubled 1 m).
    change (new_location 4503599627370496 0) with loc_Exact.
    change (e - 1)%Z with (e - Z.of_nat 1)%Z.
    apply (bra_doubled 1 s m e Hv).
Qed.

Lemma div_one_r (x : float) : x / 1 = x.
Proof.
  apply Prim2SF_inj. rewrite FloatAxioms.div_spec, Prim2SF_one.
  apply SFdiv_one_r, FloatAxioms.Prim2SF_valid.
Qed.

Lemma mul_zero_finite (x : float) : (x * 0 =? 0) = is_finite x.
Proof.
  rewrite FloatAxioms.eqb_spec, FloatAxioms.mul_spec, Prim2SF_zero, is_finite_spec.
  now destruct (Prim2SF x) as [[|]|[|]| |[|] m e].
Qed.

(** X24.  [operator*]: scaling by 1 gives the Point back, bit for bit, NaN
    and infinite coordinates included; changing the sign of the scalar or
    of the Point changes the sign of every coordinate of the result; and
    scaling by 0 gives three zeros exactly when the coordinates are
    finite. *)
Theorem op_mul_scaling (p : Point) (k : Scalar_t) :
  op_mul p 1 = p
  /\ op_mul p (- k) = negate (op_mul p k)
  /\ op_mul (negate p) k = negate (op_mul p k)
  /\ Scenarios.is_origin (op_mul p 0) = finite_point p.
Proof.
  destruct p as [x y z]. unfold op_mul, negate, Scenarios.is_origin, finite_point.
  cbn [m_X m_Y m_Z].
  rewrite !mul_one_r, !mul_opp_r, !mul_opp_l, !mul_zero_finite. auto.
Qed.

(** X25.  [normalize()] gives back, bit for bit, a Point whose magnitude
    is exactly 1. *)
Theorem normalize_of_unit (p : Point) : magnitude p = 1 -> normalize p = p.
Proof.
  intros H. unfold normalize. cbv zeta. rewrite H.
  change (sc_Precision <? 1) with true. cbv iota.
  rewrite !div_one_r. now destruct p.
Qed.

(** [normalize_of_unit] on (0, -1, 0). *)
Lemma normalize_of_unit_witness :
  normalize (mkPoint 0 (-1) 0) = mkPoint 0 (-1) 0.
Proof. apply (normalize_of_unit (mkPoint 0 (-1) 0)). reflexivity. Defined.

End ScalingTheorems.

(** * Comparison with zero *)

Section ZeroComparison.
Import PointOps.

Lemma shr_1_m (r : shr_record) : (0 <= shr_m r)%Z -> shr_m (shr_1 r) = (shr_m r / 2)%Z.
Proof.
  destruct r as [[|[p|p|]|p] b c]; cbn [shr_1 shr_m]; intros H;
    try reflexivity; try lia.
  - rewrite Pos2Z.inj_xI. apply (Z.div_unique _ 2 _ 1); lia.
  - rewrite Pos2Z.inj_xO. apply (Z.div_unique _ 2 _ 0); lia.
Qed.

Lemma iter_shr_1_m (n : nat) (r : shr_record) :
  (0 <= shr_m r)%Z -> shr_m (Nat.iter n shr_1 r) = (shr_m r / 2 ^ Z.of_nat n)%Z.
Proof.
  intros H. induction n as [|n IH].
  - simpl. now rewrite Z.div_1_r.
  - change (Nat.iter (S n) shr_1 r) with (shr_1 (Nat.iter n shr_1 r)).
    rewrite shr_1_m, IH.
    + rewrite Nat2Z.inj_succ, Z.pow_succ_r, Z.mul_comm by lia.
      rewrite Z.div_div by lia. reflexivity.
    + rewrite IH. apply Z.div_pos; lia.
Qed.

Lemma round_nearest_even_bounds m l :
  (m <= round_nearest_even m l <= m + 1)%Z.
Proof.
  unfold round_nearest_even. destruct l as [|[| |]]; try lia.
  destruct (Z.even m); lia.
Qed.

Lemma digits2_pos_bounds (m : positive) :
  (2 ^ (Zpos (digits2_pos m) - 1) <= Zpos m < 2 ^ Zpos (digits2_pos m))%Z.
Proof.
  assert (forall d, (0 < d)%Z -> (2 ^ d = 2 * 2 ^ (d - 1))%Z) as Hp.
  { intros d Hd. rewrite <- Z.pow_succ_r by lia. f_equal. lia. }
  induction m as [m IH|m IH|]; [| |simpl; lia].
  - change (digits2_pos m~1) with (Pos.succ (digits2_pos m)).
    rewrite Pos2Z.inj_succ.
    set (d := Z.pos (digits2_pos m)) in *.
    replace (Z.succ d - 1)%Z with d by lia.
    rewrite Z.pow_succ_r by lia. rewrite (Hp d) in * by lia. lia.
  - change (digits2_pos m~0) with (Pos.succ (digits2_pos m)).
    rewrite Pos2Z.inj_succ.
    set (d := Z.pos (digits2_pos m)) in *.
    replace (Z.succ d - 1)%Z with d by lia.
    rewrite Z.pow_succ_r by lia. rewrite (Hp d) in * by lia. lia.
Qed.

Lemma digits2_pos_le (m : positive) (k : Z) :
  (0 <= k)%Z -> (Zpos m < 2 ^ k)%Z -> (Zpos (digits2_pos m) <= k)%Z.
Proof.
  intros Hk H. pose proof (digits2_pos_bounds m) as [Hl _].
  destruct (Z_le_gt_dec (Zpos (digits2_pos m)) k) as [|Hgt]; [assumption|exfalso].
  assert (2 ^ k <= 2 ^ (Zpos (digits2_pos m) - 1))%Z by (apply Z.pow_le_mono_r; lia).
  lia.
Qed.

Lemma shr_pos (r : shr_record) (e n : Z) :
  (0 < n)%Z -> shr r e n = (Nat.iter (Z.to_nat n) shr_1 r, (e + n)%Z).
Proof.
  destruct n as [|p|p]; try lia. intros _. unfold shr. now rewrite iter_pos_nat.
Qed.

Lemma bounded_cases (m : positive) (e : Z) :
  bounded prec emax m e = true ->
  (-1074 <= e <= 971)%Z /\ (Zpos m < 2 ^ 53)%Z
  /\ ((-1074 < e)%Z -> Zpos (digits2_pos m) = 53%Z).
Proof.
  unfold bounded, canonical_mantissa, fexp, emin.
  change prec with 53%Z. change emax with 1024%Z.
  intros [Hc Hb]%andb_true_iff. apply Z.eqb_eq in Hc. apply Z.leb_le in Hb.
  pose proof (digits2_pos_bounds m) as [_ Hu].
  split; [lia|]. split; [|lia].
  eapply Z.lt_le_trans; [exact Hu|]. apply Z.pow_le_mono_r; lia.
Qed.

(** A representable number at [emin] with a mantissa that fits in 53 bits
    rounds to itself. *)
Lemma bra_at_emin (q : positive) :
  (Zpos q < 2 ^ 53)%Z ->
  binary_round_aux prec emax false (Zpos q) (-1074) loc_Exact = S754_finite false q (-1074).
Proof.
  intros Hq. apply (bra_doubled 0 false q (-1074)%Z).
  unfold bounded, canonical_mantissa, fexp, emin.
  change prec with 53%Z. change emax with 1024%Z.
  apply andb_true_iff. split; [|reflexivity]. apply Z.eqb_eq.
  pose proof (digits2_pos_le q 53 ltac:(lia) Hq). lia.
Qed.

(** Rounding below the normal range: the mantissa is shifted right until
    the exponent is [emin], and rounded up by one at most. *)
Lemma bra_underflow (M : positive) (e0 n : Z) :
  n = (-1074 - e0)%Z -> (0 < n)%Z ->
  (Zpos M / 2 ^ n + 1 < 2 ^ 53)%Z ->
  exists q : Z,
    (Zpos M / 2 ^ n <= q <= Zpos M / 2 ^ n + 1)%Z
    /\ binary_round_aux prec emax false (Zpos M) e0 loc_Exact
       = match q with
         | Z0 => S754_zero false
         | Zpos q' => S754_finite false q' (-1074)
         | Zneg _ => S754_nan
         end.
Proof.
  intros Hn Hpos Hsmall.
  assert (0 <= Zpos M / 2 ^ n)%Z as H0 by (apply Z.div_pos; lia).
  assert (Zpos (digits2_pos M) + e0 - 53 <= -1074)%Z as Hdig.
  { destruct (Z_le_gt_dec (Zpos (digits2_pos M) + e0 - 53) (-1074)) as [|Hgt]; [assumption|].
    exfalso. pose proof (digits2_pos_bounds M) as [Hl _].
    assert (2 ^ (n + 53) <= 2 ^ (Zpos (digits2_pos M) - 1))%Z as Hp
      by (apply Z.pow_le_mono_r; lia).
    rewrite Z.pow_add_r in Hp by lia.
    assert (2 ^ 53 <= Zpos M / 2 ^ n)%Z; [|lia].
    apply Z.div_le_lower_bound; [lia|]. lia. }
  unfold binary_round_aux, shr_fexp. unfold Zdigits2 at 1.
  replace (fexp prec emax (Z.pos (digits2_pos M) + e0)) with (-1074)%Z
    by (unfold fexp, emin; change prec with 53%Z; change emax with 1024%Z; lia).
  rewrite <- Hn, (shr_pos _ _ _ Hpos). cbv beta iota.
  replace (e0 + n)%Z with (-1074)%Z by lia.
  set (r1 := Nat.iter (Z.to_nat n) shr_1 (shr_record_of_loc (Z.pos M) loc_Exact)).
  assert (shr_m r1 = Zpos M / 2 ^ n)%Z as Hm1.
  { unfold r1. rewrite iter_shr_1_m; rewrite shr_record_of_loc_m; [|lia].
    now rewrite Z2Nat.id by lia. }
  pose proof (round_nearest_even_bounds (shr_m r1) (loc_of_shr_record r1)) as Hr.
  set (m2 := round_nearest_even (shr_m r1) (loc_of_shr_record r1)) in *.
  rewrite Hm1 in Hr. exists m2. split; [exact Hr|].
  destruct m2 as [|q|q]; [reflexivity| |lia].
  unfold Zdigits2.
  replace (fexp prec emax (Z.pos (digits2_pos q) + -1074) - -1074)%Z with 0%Z.
  - reflexivity.
  - pose proof (digits2_pos_le q 53 ltac:(lia) ltac:(lia)).
    unfold fexp, emin; change prec with 53%Z; change emax with 1024%Z. lia.
Qed.

Lemma SFmul_eps_below (m : positive) (e : Z) :
  bounded prec emax m e = true ->
  SFcompare (S754_finite false m e)
    (SFmul prec emax (S754_finite false 4503599627370496 (-104)) (S754_finite false m e))
  = Some Gt.
Proof.
  intros Hv. destruct (bounded_cases m e Hv) as (He & Hm & Hd).
  unfold SFmul. cbn [xorb].
  change (4503599627370496 * m)%positive with (Nat.iter 52 xO m).
  destruct (Z_le_gt_dec (-1074) (e - 52)) as [Hn|Hs].
  - (* the product is representable *)
    replace (-104 + e)%Z with (e - 52 - Z.of_nat 52)%Z by lia.
    rewrite bra_doubled.
    + cbn [SFcompare]. replace (e ?= e - 52)%Z with Gt; [reflexivity|].
      symmetry. apply Z.compare_gt_iff. lia.
    + unfold bounded, canonical_mantissa, fexp, emin.
      change prec with 53%Z. change emax with 1024%Z.
      apply andb_true_iff. split; [apply Z.eqb_eq | apply Z.leb_le]; lia.
  - (* the product falls below the normal range *)
    destruct (Pos.eq_dec m 1%positive) as [->|Hm1].
    { destruct (Z.eq_dec e (-1074)%Z) as [->|Hne];
        [vm_compute; reflexivity | specialize (Hd ltac:(lia)); discriminate Hd]. }
    assert (Zpos (Nat.iter 52 xO m) / 2 ^ (-1074 - (-104 + e))
            = Zpos m / 2 ^ (-1074 - (-104 + e) - 52))%Z as Hdiv.
    { rewrite (pos_doubled 52 m). change (2 ^ Z.of_nat 52)%Z with (2 ^ 52)%Z.
      replace (-1074 - (-104 + e))%Z with (52 + (-1074 - (-104 + e) - 52))%Z at 1 by lia.
      rewrite Z.pow_add_r by lia.
      rewrite <- Z.div_div by lia. rewrite Z.div_mul by lia. reflexivity. }
    set (j := (-1074 - (-104 + e) - 52)%Z) in *.
    assert (1 <= j)%Z as Hj by (unfold j; lia).
    assert (e = (-1074)%Z -> j = 52%Z) as Hj52 by (unfold j; lia).
    assert (Zpos m / 2 ^ j <= Zpos m / 2 ^ 1)%Z as Hhalf.
    { apply Z.div_le_compat_l; [lia|]. split; [lia|]. apply Z.pow_le_mono_r; lia. }
    change (2 ^ 1)%Z with 2%Z in Hhalf.
    assert (0 <= Zpos m / 2 ^ j)%Z as Hnn by (apply Z.div_pos; lia).
    assert (Zpos m / 2 < 2 ^ 52)%Z as Hlt52 by (apply Z.div_lt_upper_bound; lia).
    destruct (bra_underflow (Nat.iter 52 xO m) (-104 + e) (-1074 - (-104 + e))%Z)
      as (q & Hq & ->).
    { reflexivity. }
    { lia. }
    { rewrite Hdiv. lia. }
    rewrite Hdiv in Hq.
    destruct q as [|q|q]; [reflexivity| |lia].
    cbn [SFcompare].
    destruct (Z.compare_spec e (-1074)) as [->|Hlt|Hgt]; [|lia|reflexivity].
    change (Pos.compare_cont Eq m q) with (Pos.compare m q).
    replace (m ?= q)%positive with Gt; [reflexivity|].
    symmetry. apply Pos.compare_gt_iff.
    rewrite (Hj52 eq_refl) in Hq.
    assert (Zpos m / 2 ^ 52 <= 1)%Z
      by (apply Z.lt_succ_r, Z.div_lt_upper_bound; lia).
    destruct (Z_le_gt_dec (2 ^ 52) (Zpos m)) as [Hbig|Hsmall]; [lia|].
    rewrite Z.div_small in Hq by lia. lia.
Qed.

Lemma valid_finite (x : float) (s : bool) (m : positive) (e : Z) :
  Prim2SF x = S754_finite s m e -> bounded prec emax m e = true.
Proof.
  intros H. pose proof (FloatAxioms.Prim2SF_valid x) as Hv. now rewrite H in Hv.
Qed.

(** [nearlyEqual] against zero: no finite scalar but a zero is nearly
    equal to zero; an infinite one is. *)
Lemma nearlyEqual_zero_l (x : Scalar_t) :
  nearlyEqual 0 x sc_Precision = (x =? 0) || (abs x =? infinity).
Proof.
  unfold nearlyEqual, Std.fabs, Std.max.
  rewrite !FloatAxioms.eqb_spec, FloatAxioms.leb_spec, FloatAxioms.mul_spec.
  rewrite FloatAxioms.ltb_spec.
  rewrite !FloatAxioms.abs_spec, FloatAxioms.sub_spec, Prim2SF_zero, Prim2SF_infinity, Prim2SF_eps.
  destruct (Prim2SF x) as [s|s| |s m e] eqn:E; try reflexivity.
  - now destruct s.
  - cbn [SFabs SFltb SFcompare]. rewrite FloatAxioms.abs_spec, E. now destruct s.
  - cbn [SFabs SFltb SFcompare]. rewrite FloatAxioms.abs_spec, E.
    unfold SF64sub, SF64mul. cbn [SFabs SFsub SFopp]. unfold SFleb, SFeqb.
    rewrite (SFmul_eps_below m e (valid_finite x s m e E)).
    now destruct s.
Qed.

Lemma nearlyEqual_zero_r (x : Scalar_t) :
  nearlyEqual x 0 sc_Precision = (x =? 0) || (abs x =? infinity).
Proof. rewrite nearlyEqual_sym. apply nearlyEqual_zero_l. Qed.

Lemma abs_infinity_finite (x : float) : is_finite x = true -> (abs x =? infinity) = false.
Proof.
  rewrite is_finite_spec, FloatAxioms.eqb_spec, FloatAxioms.abs_spec, Prim2SF_infinity.
  now destruct (Prim2SF x).
Qed.

(** X26.  Against the default Point the tolerance of [operator==] is zero:
    a Point with finite coordinates equals [Point()] exactly when its three
    coordinates are zeros, however small the others are. *)
Theorem op_eq_default (p : Point) :
  finite_point p = true ->
  op_eq p default = Scenarios.is_origin p /\ op_eq default p = Scenarios.is_origin p.
Proof.
  intros (Hx & Hy & Hz)%finite_point_split.
  unfold op_eq, default, Scenarios.is_origin. cbn [m_X m_Y m_Z].
  rewrite !nearlyEqual_zero_l, !nearlyEqual_zero_r, !abs_infinity_finite by assumption.
  now rewrite !orb_false_r.
Qed.

(** [op_eq_default] on the Point whose first coordinate is the smallest
    positive double. *)
Lemma op_eq_default_witness :
  op_eq (mkPoint 0x1p-1074 0 0) default = false
  /\ op_eq default (mkPoint 0x1p-1074 0 0) = false.
Proof. apply (op_eq_default (mkPoint 0x1p-1074 0 0)). reflexivity. Defined.

End ZeroComparison.

(** * Rounding, as a statement about real numbers *)

Section Rounding.
Local Open Scope R_scope.

Local Abbreviation bra := (binary_round_aux prec emax).

Lemma Rabs_bounds (a b : R) : Rabs a <= b -> - b <= a <= b.
Proof. unfold Rabs. destruct (Rcase_abs a); lra. Qed.

Lemma p2_pos e : 0 < p2 e.
Proof. apply powerRZ_lt. lra. Qed.

Lemma p2_add a b : p2 (a + b) = p2 a * p2 b.
Proof. apply powerRZ_add. lra. Qed.

Lemma p2_IZR k : (0 <= k)%Z -> p2 k = IZR (2 ^ k).
Proof.
  intros H. destruct k as [|p|p]; [reflexivity| |lia].
  unfold p2. change (2 ^ Z.pos p)%Z with (Z.pow_pos 2 p).
  now rewrite Zpower_pos_powerRZ.
Qed.

Lemma p2_le a b : (a <= b)%Z -> p2 a <= p2 b.
Proof.
  intros H. replace b with (a + (b - a))%Z by lia.
  rewrite p2_add, (p2_IZR (b - a)) by lia.
  assert (1 <= IZR (2 ^ (b - a))) as H1.
  { apply IZR_le. pose proof (Z.pow_pos_nonneg 2 (b - a)). lia. }
  pose proof (p2_pos a). nra.
Qed.

Lemma p2_lt a b : (a < b)%Z -> p2 a < p2 b.
Proof.
  intros H. replace b with (a + (b - a))%Z by lia.
  rewrite p2_add, (p2_IZR (b - a)) by lia.
  assert (2 <= IZR (2 ^ (b - a))) as H1.
  { apply IZR_le. replace (b - a)%Z with (Z.succ (b - a - 1)) by lia.
    rewrite Z.pow_succ_r by lia. pose proof (Z.pow_pos_nonneg 2 (b - a - 1)). lia. }
  pose proof (p2_pos a). nra.
Qed.

Lemma p2_0 : p2 0 = 1.
Proof. reflexivity. Qed.

Lemma p2_succ a : p2 (a + 1) = 2 * p2 a.
Proof. rewrite p2_add, (p2_IZR 1) by lia. simpl. lra. Qed.

Lemma p2_opp a : p2 (- a) = / p2 a.
Proof. apply powerRZ_neg'. Qed.

Lemma p2_inv a : p2 a * p2 (- a) = 1.
Proof. rewrite <- p2_add, Z.add_opp_diag_r. apply p2_0. Qed.

(** ** The two shifts of [binary_round_aux] *)

Lemma Zdigits2_bounds (m : Z) :
  (0 < m)%Z -> (2 ^ (Zdigits2 m - 1) <= m < 2 ^ Zdigits2 m)%Z.
Proof. destruct m as [|p|p]; try lia. intros _. apply digits2_pos_bounds. Qed.

Lemma Zdigits2_le (m k : Z) : (0 <= m)%Z -> (0 <= k)%Z -> (m < 2 ^ k)%Z -> (Zdigits2 m <= k)%Z.
Proof.
  destruct m as [|p|p]; try lia. - now intros _ Hk _.
  - intros _ Hk H. now apply digits2_pos_le.
Qed.

Lemma fexp_eq (z : Z) : fexp prec emax z = Z.max (z - 53) (-1074).
Proof. reflexivity. Qed.

(** The first shift: the mantissa is divided by [2^n], [n] being what the
    exponent lacks. *)
Lemma shr_fexp_div (m e : Z) (l : location) :
  (0 <= m)%Z -> (e <= fexp prec emax (Zdigits2 m + e))%Z ->
  exists r1, shr_fexp prec emax m e l = (r1, fexp prec emax (Zdigits2 m + e))
             /\ shr_m r1 = (m / 2 ^ (fexp prec emax (Zdigits2 m + e) - e))%Z.
Proof.
  intros Hm He. unfold shr_fexp.
  set (f1 := fexp prec emax (Zdigits2 m + e)) in *.
  destruct (Z.eq_dec f1 e) as [E|E].
  - rewrite E, Z.sub_diag. eexists. split; [reflexivity|].
    cbn [shr_m]. rewrite shr_record_of_loc_m. now rewrite Z.div_1_r.
  - rewrite shr_pos by lia. eexists. split; [f_equal; lia|].
    rewrite iter_shr_1_m by (rewrite shr_record_of_loc_m; lia).
    rewrite shr_record_of_loc_m, Z2Nat.id by lia. reflexivity.
Qed.

Lemma first_shift (m e : Z) :
  (0 <= m)%Z -> (e <= fexp prec emax (Zdigits2 m + e))%Z ->
  let f1 := fexp prec emax (Zdigits2 m + e) in
  let m1 := (m / 2 ^ (f1 - e))%Z in
  (0 <= m1 < 2 ^ 53)%Z /\ (f1 = -1074 \/ 2 ^ 52 <= m1)%Z /\ (-1074 <= f1)%Z
  /\ (2 ^ (f1 - e) * m1 <= m < 2 ^ (f1 - e) * (m1 + 1))%Z.
Proof.
  intros Hm He. cbv zeta. rewrite fexp_eq in *.
  set (d := Zdigits2 m) in *.
  set (n := (Z.max (d + e - 53) (-1074) - e)%Z) in *.
  replace (Z.max (d + e - 53) (-1074)) with (e + n)%Z by lia.
  set (m1 := (m / 2 ^ n)%Z).
  assert (0 <= n)%Z as Hn by lia.
  assert (0 < 2 ^ n)%Z as Hp by (apply Z.pow_pos_nonneg; lia).
  assert (2 ^ n * m1 <= m < 2 ^ n * (m1 + 1))%Z as Hdiv.
  { unfold m1. split; [apply Z.mul_div_le; exact Hp|].
    rewrite Z.mul_add_distr_l, Z.mul_1_r.
    pose proof (Z.mod_pos_bound m (2 ^ n) Hp).
    pose proof (Z.div_mod m (2 ^ n) ltac:(lia)). lia. }
  assert (0 <= m1)%Z as H0 by (apply Z.div_pos; lia).
  destruct (Z.eq_dec m 0%Z) as [->|Hm0].
  { subst m1. rewrite Z.div_0_l in * by lia. change (Zdigits2 0) with 0%Z in d.
    repeat split; try lia. }
  destruct (Zdigits2_bounds m ltac:(lia)) as [Hl Hu]. fold d in Hl, Hu.
  assert (0 < d)%Z as Hd by (unfold d; destruct m; simpl; lia).
  split; [split; [assumption|]|split; [|split; [lia|assumption]]].
  - (* m1 < 2^53 *)
    apply Z.div_lt_upper_bound; [lia|].
    rewrite <- Z.pow_add_r by lia.
    eapply Z.lt_le_trans; [exact Hu|]. apply Z.pow_le_mono_r; lia.
  - destruct (Z_le_gt_dec (d + e - 53)%Z (-1074)%Z) as [Hs|Hs]; [left; lia|right].
    apply Z.div_le_lower_bound; [lia|].
    rewrite <- Z.pow_add_r by lia.
    etransitivity; [|exact Hl]. apply Z.pow_le_mono_r; lia.
Qed.

Lemma shr_nonpos (r : shr_record) (e n : Z) : (n <= 0)%Z -> shr r e n = (r, e).
Proof. destruct n; try reflexivity. lia. Qed.

(** The second shift: one more bit when rounding has carried into the
    54th, none otherwise. *)
Lemma second_shift (m2 e1 : Z) :
  (0 <= m2 <= 2 ^ 53)%Z -> (-1074 <= e1)%Z -> (e1 = -1074 \/ 2 ^ 52 <= m2)%Z ->
  exists r3 e3,
    shr_fexp prec emax m2 e1 loc_Exact = (r3, e3)
    /\ ((m2 < 2 ^ 53 /\ shr_m r3 = m2 /\ e3 = e1)
        \/ (m2 = 2 ^ 53 /\ shr_m r3 = 2 ^ 52 /\ e3 = e1 + 1))%Z.
Proof.
  intros Hm He Hc. unfold shr_fexp. rewrite fexp_eq.
  destruct (Z.eq_dec m2 (2 ^ 53)%Z) as [->|Hne].
  - change (Zdigits2 (2 ^ 53)) with 54%Z.
    replace (Z.max (54 + e1 - 53) (-1074) - e1)%Z with 1%Z by lia.
    eexists. eexists. split; [reflexivity|]. right.
    split; [reflexivity|]. split; reflexivity.
  - assert (Zdigits2 m2 <= 53)%Z by (apply Zdigits2_le; lia).
    rewrite shr_nonpos by lia.
    eexists. eexists. split; [reflexivity|]. left.
    split; [lia|]. split; [apply shr_record_of_loc_m | reflexivity].
Qed.

(** What [binary_round_aux] returns for a number [v] that lies between
    [m * 2^e] and [(m + 1) * 2^e]: a value in canonical form, one unit in
    the last place from [v] at most. *)
Lemma bra_round (s : bool) (m e : Z) (l : location) (v : R) :
  (0 <= m)%Z -> (e <= fexp prec emax (Zdigits2 m + e))%Z ->
  IZR m * p2 e <= v < IZR (m + 1) * p2 e ->
  exists m3 e3 : Z,
    (0 <= m3 < 2 ^ 53)%Z /\ (-1074 <= e3)%Z /\ (e3 = -1074 \/ 2 ^ 52 <= m3)%Z
    /\ bra s m e l = match m3 with
                     | Z0 => S754_zero s
                     | Zpos q => if (e3 <=? 971)%Z then S754_finite s q e3
                                 else S754_infinity s
                     | Zneg _ => S754_nan
                     end
    /\ Rabs (IZR m3 * p2 e3 - v) <= p2 (-52) * v + p2 (-1074).
Proof.
  intros Hm He Hv.
  destruct (shr_fexp_div m e l Hm He) as (r1 & H1 & Hr1).
  destruct (first_shift m e Hm He) as (Hb1 & Hc1 & Hf1 & Hdiv).
  set (f1 := fexp prec emax (Zdigits2 m + e)) in *.
  set (n := (f1 - e)%Z) in *.
  set (m1 := (m / 2 ^ n)%Z) in *.
  assert (0 <= n)%Z as Hn by (unfold n; lia).
  pose proof (round_nearest_even_bounds (shr_m r1) (loc_of_shr_record r1)) as Hr.
  set (m2 := round_nearest_even (shr_m r1) (loc_of_shr_record r1)) in *.
  rewrite Hr1 in Hr.
  destruct (second_shift m2 f1 ltac:(lia) Hf1 ltac:(lia)) as (r3 & e3 & H3 & Hcase).
  unfold binary_round_aux. rewrite H1. fold m2. rewrite H3.
  (* the place of [v] after the first shift *)
  assert (p2 f1 = p2 e * IZR (2 ^ n)) as Hp.
  { rewrite <- p2_IZR, <- p2_add by lia. f_equal. unfold n. lia. }
  assert (IZR m1 * p2 f1 <= v < (IZR m1 + 1) * p2 f1) as Hv1.
  { destruct Hdiv as [Hd1 Hd2]. apply IZR_le in Hd1.
    assert (m + 1 <= 2 ^ n * (m1 + 1))%Z as Hd3 by lia. apply IZR_le in Hd3.
    rewrite mult_IZR in Hd1. rewrite mult_IZR, !plus_IZR in Hd3.
    rewrite plus_IZR in Hv. rewrite Hp.
    pose proof (p2_pos e). split; nra. }
  pose proof (p2_pos f1) as Hpf.
  assert (Rabs (IZR m2 * p2 f1 - v) <= p2 f1) as Herr.
  { assert (m2 = m1 \/ m2 = m1 + 1)%Z as [->| ->] by lia;
      rewrite ?plus_IZR; apply Rabs_le; lra. }
  assert (Rabs (IZR m2 * p2 f1 - v) <= p2 (-52) * v + p2 (-1074)) as Hrel.
  { pose proof (p2_pos (-1074)). pose proof (p2_pos (-52)).
    assert (0 <= v) as Hv0.
    { destruct Hv1 as [Hv1 _]. assert (0 <= IZR m1) by (apply IZR_le; lia). nra. }
    destruct Hc1 as [->|Hc1]; [nra|].
    apply IZR_le in Hc1. rewrite <- (p2_IZR 52) in Hc1 by lia.
    assert (p2 f1 <= p2 (-52) * v); [|lra].
    assert (p2 (-52) * p2 52 = 1) as Hinv by (rewrite <- p2_add; reflexivity).
    destruct Hv1 as [Hv1 _].
    assert (p2 52 * p2 f1 <= v) as Hlow.
    { apply Rle_trans with (IZR m1 * p2 f1); [|exact Hv1].
      apply Rmult_le_compat_r; lra. }
    replace (p2 f1) with (p2 (-52) * (p2 52 * p2 f1))
      by (rewrite <- Rmult_assoc, Hinv; ring).
    apply Rmult_le_compat_l; lra. }
  destruct Hcase as [(Hlt & -> & ->)|(Heq & -> & ->)].
  - exists m2, f1. split; [lia|]. split; [lia|]. split; [lia|].
    split; [reflexivity | exact Hrel].
  - exists (2 ^ 52)%Z, (f1 + 1)%Z. split; [lia|]. split; [lia|]. split; [lia|].
    split; [reflexivity|].
    replace (IZR (2 ^ 52) * p2 (f1 + 1)) with (IZR m2 * p2 f1); [exact Hrel|].
    rewrite Heq, p2_succ. rewrite <- !p2_IZR by lia.
    change 53%Z with (52 + 1)%Z. rewrite p2_succ. ring.
Qed.

(** ** Values and signs *)

Lemma sgn_xorb a b : sgn (xorb a b) = sgn a * sgn b.
Proof. destruct a, b; unfold sgn; simpl; lra. Qed.

Lemma sgn_square s : sgn s * sgn s = 1.
Proof. destruct s; unfold sgn; lra. Qed.

Lemma Rabs_sgn s r : Rabs (sgn s * r) = Rabs r.
Proof.
  destruct s; unfold sgn; [|now rewrite Rmult_1_l].
  replace (-1 * r) with (- r) by ring. apply Rabs_Ropp.
Qed.

Lemma SF2R_finite s m e : SF2R (S754_finite s m e) = sgn s * (IZR (Zpos m) * p2 e).
Proof. unfold SF2R, sgn. destruct s; ring. Qed.

Lemma SF2R_signed s x : signed_as s x -> SF2R x = sgn s * Rabs (SF2R x).
Proof.
  destruct x as [s'|s'| |s' m e]; simpl; intros H; rewrite ?Rabs_R0; try ring.
  subst s'. fold (SF2R (S754_finite s m e)). rewrite SF2R_finite, Rabs_sgn.
  rewrite Rabs_pos_eq; [reflexivity|].
  pose proof (p2_pos e). assert (0 < IZR (Zpos m)) by (apply IZR_lt; lia). nra.
Qed.

Lemma SFfinite_spec (x : float) : is_finite x = SFfinite (Prim2SF x).
Proof. rewrite is_finite_spec. now destruct (Prim2SF x). Qed.

Lemma p2_m52 : p2 (-52) = / 4503599627370496.
Proof. change (-52)%Z with (- (52))%Z. rewrite p2_opp, (p2_IZR 52) by lia. reflexivity. Qed.

Lemma p2_m1074_small : p2 (-1074) <= / 1000000000000000000000000000000.
Proof.
  change (-1074)%Z with (- (1074))%Z. rewrite p2_opp, (p2_IZR 1074) by lia.
  apply Rinv_le_contravar; [lra|]. apply IZR_le. vm_compute. discriminate.
Qed.

(** The value [binary_round_aux] returns, as a real number. *)
Lemma bra_value (s : bool) (m e : Z) (l : location) (v : R) :
  (0 <= m)%Z -> (e <= fexp prec emax (Zdigits2 m + e))%Z ->
  IZR m * p2 e <= v < IZR (m + 1) * p2 e ->
  bra s m e l <> S754_nan
  /\ signed_as s (bra s m e l)
  /\ (v < p2 1023 -> SFfinite (bra s m e l) = true)
  /\ (SFfinite (bra s m e l) = true ->
      Rabs (Rabs (SF2R (bra s m e l)) - v) <= p2 (-52) * v + p2 (-1074)).
Proof.
  intros Hm He Hv.
  destruct (bra_round s m e l v Hm He Hv) as (m3 & e3 & Hb & He3 & Hc & -> & Herr).
  pose proof (p2_pos (-1074)) as Heta. pose proof (p2_pos (-52)) as Heps.
  pose proof p2_m52 as Hm52. pose proof p2_m1074_small as Hsmall.
  destruct m3 as [|q|q]; [| |lia].
  - repeat split; try discriminate. intros _. simpl. rewrite Rabs_R0.
    now rewrite Rmult_0_l in Herr.
  - destruct (Z.leb_spec e3 971) as [Hle|Hgt].
    + repeat split; try discriminate. intros _.
      fold (SF2R (S754_finite s q e3)). rewrite SF2R_finite, Rabs_sgn.
      rewrite (Rabs_pos_eq (IZR (Zpos q) * p2 e3)); [exact Herr|].
      pose proof (p2_pos e3). assert (0 < IZR (Zpos q)) by (apply IZR_lt; lia). nra.
    + repeat split; try discriminate. intros Hv'. exfalso.
      destruct Hc as [->|Hc]; [lia|].
      apply IZR_le in Hc. rewrite <- (p2_IZR 52) in Hc by lia.
      assert (p2 1024 <= IZR (Z.pos q) * p2 e3) as Hbig.
      { replace 1024%Z with (52 + 972)%Z by lia. rewrite p2_add.
        pose proof (p2_le 972 e3 ltac:(lia)). pose proof (p2_pos 972).
        pose proof (p2_pos 52). apply Rmult_le_compat; lra. }
      change 1024%Z with (1023 + 1)%Z in Hbig. rewrite p2_succ in Hbig.
      pose proof (p2_le 0 1023 ltac:(lia)) as H1. rewrite p2_0 in H1.
      apply Rabs_bounds in Herr.
      assert (0 <= v).
      { destruct Hv as [Hv _]. pose proof (p2_pos e).
        assert (0 <= IZR m) by (apply IZR_le; lia). nra. }
      nra.
Qed.

(** ** From the specification to [rounded] *)

Lemma is_nan_false (x : float) : Prim2SF x <> S754_nan -> is_nan x = false.
Proof.
  intros H. destruct (is_nan x) eqn:E; [|reflexivity].
  apply is_nan_spec in E. contradiction.
Qed.

Lemma finite_is_not_nan (x : float) : is_finite x = true -> is_nan x = false.
Proof.
  rewrite SFfinite_spec. intros H. apply is_nan_false. now destruct (Prim2SF x).
Qed.

Lemma rounded_exact (v : R) (x : float) :
  is_finite x = true -> value x = v -> rounded v x.
Proof.
  intros Hf <-. split; [now apply finite_is_not_nan|]. split; [now intros _|].
  intros _. replace (value x - value x) with 0 by ring. rewrite Rabs_R0.
  pose proof (p2_pos (-52)). pose proof (p2_pos (-1074)).
  pose proof (Rabs_pos (value x)). nra.
Qed.

Lemma rounded_intro (s : bool) (V : R) (x : float) :
  0 <= V ->
  Prim2SF x <> S754_nan ->
  signed_as s (Prim2SF x) ->
  (V < p2 1023 -> SFfinite (Prim2SF x) = true) ->
  (SFfinite (Prim2SF x) = true ->
   Rabs (Rabs (SF2R (Prim2SF x)) - V) <= p2 (-52) * V + p2 (-1074)) ->
  rounded (sgn s * V) x.
Proof.
  intros HV Hn Hs Hf He. unfold rounded. rewrite SFfinite_spec, Rabs_sgn, (Rabs_pos_eq V HV).
  split; [now apply is_nan_false|]. split; [exact Hf|].
  intros H. unfold value. rewrite (SF2R_signed s _ Hs).
  replace (sgn s * Rabs (SF2R (Prim2SF x)) - sgn s * V)
    with (sgn s * (Rabs (SF2R (Prim2SF x)) - V)) by ring.
  rewrite Rabs_sgn. now apply He.
Qed.

Lemma value_zero (x : float) (s : bool) : Prim2SF x = S754_zero s -> value x = 0.
Proof. unfold value. now intros ->. Qed.

(** ** Multiplication *)

Lemma digits_mul_lower (mx my : positive) :
  (Zpos (digits2_pos mx) + Zpos (digits2_pos my) - 1 <= Zpos (digits2_pos (mx * my)))%Z.
Proof.
  pose proof (digits2_pos_bounds mx) as [Hx _].
  pose proof (digits2_pos_bounds my) as [Hy _].
  pose proof (digits2_pos_bounds (mx * my)) as [_ Hu].
  set (dx := Zpos (digits2_pos mx)) in *. set (dy := Zpos (digits2_pos my)) in *.
  set (D := Zpos (digits2_pos (mx * my))) in *.
  destruct (Z_le_gt_dec (dx + dy - 1) D) as [|Hgt]; [assumption|exfalso].
  assert (2 ^ D <= 2 ^ (dx - 1 + (dy - 1)))%Z as H by (apply Z.pow_le_mono_r; lia).
  rewrite Z.pow_add_r in H by lia.
  assert (2 ^ (dx - 1) * 2 ^ (dy - 1) <= Zpos mx * Zpos my)%Z
    by (apply Z.mul_le_mono_nonneg; lia).
  rewrite Pos2Z.inj_mul in Hu. lia.
Qed.

Lemma mul_fexp (mx my : positive) (ex ey : Z) :
  bounded prec emax mx ex = true -> bounded prec emax my ey = true ->
  (ex + ey <= fexp prec emax (Zdigits2 (Zpos (mx * my)) + (ex + ey)))%Z.
Proof.
  intros Hx Hy.
  destruct (bounded_cases mx ex Hx) as (Hex & _ & Hdx).
  destruct (bounded_cases my ey Hy) as (Hey & _ & Hdy).
  pose proof (digits_mul_lower mx my) as HD.
  rewrite fexp_eq. cbn [Zdigits2].
  set (D := Zpos (digits2_pos (mx * my))) in *.
  assert (0 < Zpos (digits2_pos mx))%Z by lia. assert (0 < Zpos (digits2_pos my))%Z by lia.
  destruct (Z_le_gt_dec (ex + ey) (-1074)) as [|Hgt]; [lia|].
  destruct (Z.eq_dec ex (-1074)%Z) as [Ex|Ex], (Z.eq_dec ey (-1074)%Z) as [Ey|Ey]; lia.
Qed.

Lemma mul_rounded (x y : float) :
  is_finite x = true -> is_finite y = true -> rounded (value x * value y) (x * y)%float.
Proof.
  intros Hx Hy. pose proof Hx as Hx'. pose proof Hy as Hy'.
  rewrite SFfinite_spec in Hx', Hy'.
  destruct (Prim2SF x) as [sx|sx| |sx mx ex] eqn:Ex; try discriminate;
    destruct (Prim2SF y) as [sy|sy| |sy my ey] eqn:Ey; try discriminate.
  1-3: apply rounded_exact;
    [rewrite SFfinite_spec, FloatAxioms.mul_spec, Ex, Ey; reflexivity
    |unfold value; rewrite FloatAxioms.mul_spec, Ex, Ey; simpl; ring].
  unfold value at 1 2. rewrite Ex, Ey, !SF2R_finite.
  replace (sgn sx * (IZR (Z.pos mx) * p2 ex) * (sgn sy * (IZR (Z.pos my) * p2 ey)))
    with (sgn (xorb sx sy) * (IZR (Zpos (mx * my)) * p2 (ex + ey)))
    by (rewrite sgn_xorb, p2_add, Pos2Z.inj_mul, mult_IZR; ring).
  assert (0 < IZR (Zpos (mx * my)) * p2 (ex + ey)) as Hpos.
  { pose proof (p2_pos (ex + ey)). assert (0 < IZR (Zpos (mx * my))) by (apply IZR_lt; lia).
    nra. }
  destruct (bra_value (xorb sx sy) (Zpos (mx * my)) (ex + ey) loc_Exact
              (IZR (Zpos (mx * my)) * p2 (ex + ey))) as (Hn & Hs & Hf & He).
  { lia. }
  { apply mul_fexp; [exact (valid_finite x sx mx ex Ex) | exact (valid_finite y sy my ey Ey)]. }
  { rewrite plus_IZR. pose proof (p2_pos (ex + ey)). split; nra. }
  apply rounded_intro; rewrite ?FloatAxioms.mul_spec, ?Ex, ?Ey; try assumption. lra.
Qed.

(** ** Addition and subtraction *)

Lemma iter_xO_nat (m d : positive) : Pos.iter xO m d = Nat.iter (Pos.to_nat d) xO m.
Proof. apply Pos2Nat.inj_iter. Qed.

Lemma iter_xO_value (m d : positive) : Zpos (Pos.iter xO m d) = (Zpos m * 2 ^ Zpos d)%Z.
Proof. now rewrite iter_xO_nat, pos_doubled, positive_nat_Z. Qed.

Lemma iter_xO_digits (m d : positive) :
  Zpos (digits2_pos (Pos.iter xO m d)) = (Zpos (digits2_pos m) + Zpos d)%Z.
Proof. now rewrite iter_xO_nat, digits2_pos_doubled, positive_nat_Z. Qed.

Lemma shl_align_value (mx : positive) (ex ez : Z) :
  (ez <= ex)%Z ->
  IZR (Zpos (fst (shl_align mx ex ez))) * p2 ez = IZR (Zpos mx) * p2 ex.
Proof.
  intros H. unfold shl_align. destruct (ez - ex)%Z as [|d|d] eqn:E; try lia.
  - replace ez with ex by lia. reflexivity.
  - cbn [fst]. rewrite iter_xO_value, mult_IZR, <- p2_IZR by lia.
    rewrite Rmult_assoc, <- p2_add. do 2 f_equal. lia.
Qed.

Lemma binary_round_value (s : bool) (m : positive) (e : Z) :
  let x := binary_round prec emax s m e in
  let V := IZR (Zpos m) * p2 e in
  x <> S754_nan /\ signed_as s x
  /\ (V < p2 1023 -> SFfinite x = true)
  /\ (SFfinite x = true -> Rabs (Rabs (SF2R x) - V) <= p2 (-52) * V + p2 (-1074)).
Proof.
  cbv zeta. unfold binary_round, shl_align. rewrite fexp_eq.
  set (d := Zpos (digits2_pos m)).
  pose proof (p2_pos e) as Hpe.
  assert (0 < IZR (Zpos m)) as Hm by (apply IZR_lt; lia).
  destruct (Z.max (d + e - 53) (-1074) - e)%Z as [|k|k] eqn:E.
  - apply bra_value; [lia | rewrite fexp_eq; cbn [Zdigits2]; fold d; lia |].
    rewrite plus_IZR. split; nra.
  - apply bra_value; [lia | rewrite fexp_eq; cbn [Zdigits2]; fold d; lia |].
    rewrite plus_IZR. split; nra.
  - replace (IZR (Zpos m) * p2 e)
      with (IZR (Zpos (Pos.iter xO m k)) * p2 (Z.max (d + e - 53) (-1074))).
    + apply bra_value; [lia | |].
      * rewrite fexp_eq. cbn [Zdigits2]. rewrite iter_xO_digits. fold d. lia.
      * rewrite plus_IZR. pose proof (p2_pos (Z.max (d + e - 53) (-1074))).
        assert (0 < IZR (Zpos (Pos.iter xO m k))) by (apply IZR_lt; lia).
        split; nra.
    + rewrite iter_xO_value, mult_IZR, <- p2_IZR by lia.
      rewrite Rmult_assoc, <- p2_add. do 2 f_equal. lia.
Qed.

Lemma value_opp (x : float) : value (- x)%float = - value x.
Proof.
  unfold value. rewrite FloatAxioms.opp_spec.
  destruct (Prim2SF x) as [s|s| |s m e]; simpl; try ring. destruct s; simpl; ring.
Qed.

Lemma is_finite_opp (x : float) : is_finite (- x)%float = is_finite x.
Proof. rewrite !SFfinite_spec, FloatAxioms.opp_spec. now destruct (Prim2SF x). Qed.

Lemma cond_Zopp_value (s : bool) (m : Z) : IZR (cond_Zopp s m) = sgn s * IZR m.
Proof. destruct s; simpl; [rewrite opp_IZR|]; ring. Qed.

Lemma add_rounded (x y : float) :
  is_finite x = true -> is_finite y = true -> rounded (value x + value y) (x + y)%float.
Proof.
  intros Hx Hy. pose proof Hx as Hx'. pose proof Hy as Hy'.
  rewrite SFfinite_spec in Hx', Hy'.
  destruct (Prim2SF x) as [sx|sx| |sx mx ex] eqn:Ex; try discriminate;
    destruct (Prim2SF y) as [sy|sy| |sy my ey] eqn:Ey; try discriminate.
  - apply rounded_exact;
      [rewrite SFfinite_spec, FloatAxioms.add_spec, Ex, Ey; now destruct sx, sy
      |unfold value; rewrite FloatAxioms.add_spec, Ex, Ey; destruct sx, sy; simpl; ring].
  - apply rounded_exact;
      [rewrite SFfinite_spec, FloatAxioms.add_spec, Ex, Ey; reflexivity
      |unfold value; rewrite FloatAxioms.add_spec, Ex, Ey; simpl; ring].
  - apply rounded_exact;
      [rewrite SFfinite_spec, FloatAxioms.add_spec, Ex, Ey; reflexivity
      |unfold value; rewrite FloatAxioms.add_spec, Ex, Ey; simpl; ring].
  - set (ez := Z.min ex ey).
    set (M := (cond_Zopp sx (Zpos (fst (shl_align mx ex ez)))
               + cond_Zopp sy (Zpos (fst (shl_align my ey ez))))%Z).
    assert (Prim2SF (x + y)%float = binary_normalize prec emax M ez false) as HS.
    { rewrite FloatAxioms.add_spec, Ex, Ey. reflexivity. }
    assert (value x + value y = IZR M * p2 ez) as HV.
    { unfold value, M. rewrite Ex, Ey, !SF2R_finite, plus_IZR, !cond_Zopp_value.
      rewrite Rmult_plus_distr_r, !Rmult_assoc.
      rewrite (shl_align_value mx ex ez), (shl_align_value my ey ez) by (unfold ez; lia).
      reflexivity. }
    rewrite HV. destruct M as [|p|p].
    + apply rounded_exact; [rewrite SFfinite_spec, HS; reflexivity|].
      unfold value. rewrite HS. simpl. ring.
    + replace (IZR (Zpos p) * p2 ez) with (sgn false * (IZR (Zpos p) * p2 ez))
        by (unfold sgn; ring).
      destruct (binary_round_value false p ez) as (Hn & Hs & Hf & He).
      pose proof (p2_pos ez). assert (0 < IZR (Zpos p)) by (apply IZR_lt; lia).
      apply rounded_intro; rewrite ?HS; try assumption. nra.
    + replace (IZR (Zneg p) * p2 ez) with (sgn true * (IZR (Zpos p) * p2 ez)).
      2:{ unfold sgn. change (Zneg p) with (- Zpos p)%Z. rewrite opp_IZR. ring. }
      destruct (binary_round_value true p ez) as (Hn & Hs & Hf & He).
      pose proof (p2_pos ez). assert (0 < IZR (Zpos p)) by (apply IZR_lt; lia).
      apply rounded_intro; rewrite ?HS; try assumption. nra.
Qed.

Lemma sub_rounded (x y : float) :
  is_finite x = true -> is_finite y = true -> rounded (value x - value y) (x - y)%float.
Proof.
  intros Hx Hy. rewrite sub_as_add.
  replace (value x - value y) with (value x + value (- y)%float)
    by (rewrite value_opp; ring).
  apply add_rounded; [assumption | now rewrite is_finite_opp].
Qed.

(** ** Division *)

Lemma Zdigits2_lower (q k : Z) : (0 <= k)%Z -> (2 ^ k <= q)%Z -> (k + 1 <= Zdigits2 q)%Z.
Proof.
  intros Hk H. assert (0 < q)%Z as Hq by (pose proof (Z.pow_pos_nonneg 2 k); lia).
  destruct (Zdigits2_bounds q Hq) as [_ Hu].
  destruct (Z_le_gt_dec (k + 1) (Zdigits2 q)) as [|Hgt]; [assumption|exfalso].
  assert (2 ^ Zdigits2 q <= 2 ^ k)%Z.
  { apply Z.pow_le_mono_r; [lia|]. lia. }
  lia.
Qed.

(** The quotient of the mantissas, the exponent it is rounded from, and
    where the exact quotient lies. *)
Lemma div_core (mx my : positive) (ex ey : Z) :
  exists q e' l,
    SFdiv_core_binary prec emax (Zpos mx) ex (Zpos my) ey = (q, e', l)
    /\ (0 <= q)%Z /\ (e' <= fexp prec emax (Zdigits2 q + e'))%Z
    /\ IZR q * p2 e' <= IZR (Zpos mx) * p2 ex / (IZR (Zpos my) * p2 ey)
       < IZR (q + 1) * p2 e'.
Proof.
  unfold SFdiv_core_binary. cbn [Zdigits2]. rewrite fexp_eq.
  set (d1 := Zpos (digits2_pos mx)). set (d2 := Zpos (digits2_pos my)).
  set (e' := Z.min (Z.max (d1 + ex - (d2 + ey) - 53) (-1074)) (ex - ey)).
  set (s := (ex - ey - e')%Z).
  assert (0 <= s)%Z as Hs by (unfold s, e'; lia).
  set (m' := match s with
             | 0%Z => Zpos mx
             | Zpos _ => Z.shiftl (Zpos mx) s
             | Zneg _ => 0%Z
             end).
  assert (m' = Zpos mx * 2 ^ s)%Z as Hm'.
  { unfold m'. destruct s as [|p|p] eqn:E; [lia| |lia].
    now rewrite Z.shiftl_mul_pow2 by lia. }
  change (IntDef.Z.div_eucl m' (Zpos my)) with (Z.div_eucl m' (Zpos my)).
  pose proof (Z_div_mod m' (Zpos my) ltac:(lia)) as Hdm.
  destruct (Z.div_eucl m' (Zpos my)) as [q r]. destruct Hdm as [Hq Hr].
  assert (0 < 2 ^ s)%Z as Hps by (apply Z.pow_pos_nonneg; lia).
  assert (0 <= q)%Z as Hq0 by nia.
  exists q, e', (new_location (Zpos my) r). split; [reflexivity|]. split; [exact Hq0|].
  pose proof (digits2_pos_bounds mx) as [Hl1 Hu1]. fold d1 in Hl1, Hu1.
  pose proof (digits2_pos_bounds my) as [Hl2 Hu2]. fold d2 in Hl2, Hu2.
  assert (0 < d1)%Z as Hd1 by (unfold d1; lia).
  assert (0 < d2)%Z as Hd2 by (unfold d2; lia).
  split.
  - rewrite fexp_eq.
    destruct (Z_le_gt_dec e' (-1074)) as [|Hgt]; [lia|].
    (* above the smallest exponent the quotient has 53 bits *)
    assert (d2 - d1 + 53 <= s)%Z as Hs53 by (unfold s, e' in *; lia).
    assert (2 ^ 52 <= q)%Z as Hq52.
    { assert (2 ^ (d2 + 52) <= m')%Z as Hmlow.
      { rewrite Hm'. apply Z.le_trans with (2 ^ (d1 - 1) * 2 ^ s)%Z.
        - rewrite <- Z.pow_add_r by lia. apply Z.pow_le_mono_r; lia.
        - apply Z.mul_le_mono_nonneg_r; lia. }
      rewrite Z.pow_add_r in Hmlow by lia.
      assert (0 < 2 ^ d2)%Z by (apply Z.pow_pos_nonneg; lia).
      destruct (Z_le_gt_dec (2 ^ 52) q) as [|Hlt]; [assumption|exfalso].
      assert (Zpos my * q + r < 2 ^ d2 * 2 ^ 52)%Z; [|lia].
      assert (q + 1 <= 2 ^ 52)%Z by lia.
      assert (Zpos my * (q + 1) <= 2 ^ d2 * 2 ^ 52)%Z by (apply Z.mul_le_mono_nonneg; lia).
      lia. }
    pose proof (Zdigits2_lower q 52 ltac:(lia) Hq52). lia.
  - (* the place of the exact quotient *)
    assert (IZR (Zpos mx) * p2 ex / (IZR (Zpos my) * p2 ey)
            = IZR m' / IZR (Zpos my) * p2 e') as ->.
    { rewrite Hm', mult_IZR, <- p2_IZR by lia.
      assert (p2 ex = p2 s * p2 e' * p2 ey) as ->.
      { rewrite <- !p2_add. f_equal. unfold s. lia. }
      pose proof (p2_pos ey). assert (0 < IZR (Zpos my)) by (apply IZR_lt; lia).
      field. split; lra. }
    pose proof (p2_pos e') as Hpe.
    assert (0 < IZR (Zpos my)) as Hmy by (apply IZR_lt; lia).
    assert (IZR q <= IZR m' / IZR (Zpos my) < IZR (q + 1)) as [H1 H2].
    { rewrite Hq, !plus_IZR, mult_IZR.
      destruct Hr as [Hr1 Hr2]. apply IZR_le in Hr1. apply IZR_lt in Hr2.
      split.
      - apply Rmult_le_reg_r with (IZR (Zpos my)); [lra|].
        unfold Rdiv. rewrite Rmult_assoc, Rinv_l by lra. nra.
      - apply Rmult_lt_reg_r with (IZR (Zpos my)); [lra|].
        unfold Rdiv. rewrite Rmult_assoc, Rinv_l by lra. nra. }
    split; nra.
Qed.

Lemma sgn_inv (s : bool) : / sgn s = sgn s.
Proof. destruct s; unfold sgn; [|lra]. replace (-1) with (- (1)) by ring.
  rewrite Rinv_opp. lra. Qed.

Lemma div_rounded (x y : float) :
  is_finite x = true -> is_finite y = true -> value y <> 0 ->
  rounded (value x / value y) (x / y)%float.
Proof.
  intros Hx Hy Hy0. pose proof Hx as Hx'. pose proof Hy as Hy'.
  rewrite SFfinite_spec in Hx', Hy'. unfold value in Hy0.
  destruct (Prim2SF y) as [sy|sy| |sy my ey] eqn:Ey; try discriminate;
    [now destruct Hy0|].
  destruct (Prim2SF x) as [sx|sx| |sx mx ex] eqn:Ex; try discriminate.
  - apply rounded_exact;
      [rewrite SFfinite_spec, FloatAxioms.div_spec, Ex, Ey; reflexivity
      |unfold value; rewrite FloatAxioms.div_spec, Ex, Ey; simpl; unfold Rdiv; ring].
  - destruct (div_core mx my ex ey) as (q & e' & l & Hcore & Hq & He' & Hloc).
    assert (Prim2SF (x / y)%float = bra (xorb sx sy) q e' l) as HS.
    { rewrite FloatAxioms.div_spec, Ex, Ey. unfold SF64div, SFdiv. now rewrite Hcore. }
    pose proof (p2_pos ex). pose proof (p2_pos ey).
    assert (0 < IZR (Zpos mx)) by (apply IZR_lt; lia).
    assert (0 < IZR (Zpos my)) by (apply IZR_lt; lia).
    set (V := IZR (Zpos mx) * p2 ex / (IZR (Zpos my) * p2 ey)) in *.
    assert (0 < V) as HV by (unfold V; apply Rdiv_lt_0_compat; nra).
    assert (value x / value y = sgn (xorb sx sy) * V) as ->.
    { unfold value, V. rewrite Ex, Ey, !SF2R_finite, sgn_xorb.
      unfold Rdiv. rewrite (Rinv_mult (sgn sy)), sgn_inv. ring. }
    destruct (bra_value (xorb sx sy) q e' l V Hq He' Hloc) as (Hn & Hs & Hf & He).
    apply rounded_intro; rewrite ?HS; try assumption. lra.
Qed.

(** ** Square root *)

Lemma sqrt_core (m : positive) (e : Z) :
  exists q e' l,
    SFsqrt_core_binary prec emax (Zpos m) e = (q, e', l)
    /\ (0 <= q)%Z /\ (e' <= fexp prec emax (Zdigits2 q + e'))%Z
    /\ IZR q * p2 e' <= R_sqrt.sqrt (IZR (Zpos m) * p2 e) < IZR (q + 1) * p2 e'.
Proof.
  unfold SFsqrt_core_binary. cbn [Zdigits2]. rewrite fexp_eq.
  set (d := Zpos (digits2_pos m)).
  set (e' := Z.min (Z.max (Z.div2 (d + e + 1) - 53) (-1074)) (Z.div2 e)).
  set (s := (e - 2 * e')%Z).
  pose proof (Z.div2_div e) as Hd2. pose proof (Z.div2_div (d + e + 1)) as Hd2'.
  pose proof (Z.mul_div_le e 2 ltac:(lia)) as Hle.
  assert (0 <= s)%Z as Hs by (unfold s, e'; lia).
  set (m' := match s with
             | 0%Z => Zpos m
             | Zpos _ => Z.shiftl (Zpos m) s
             | Zneg _ => 0%Z
             end).
  assert (m' = Zpos m * 2 ^ s)%Z as Hm'.
  { unfold m'. destruct s as [|p|p] eqn:E; [lia| |lia].
    now rewrite Z.shiftl_mul_pow2 by lia. }
  assert (0 < 2 ^ s)%Z as Hps by (apply Z.pow_pos_nonneg; lia).
  assert (0 < m')%Z as Hm0 by nia.
  change (IntDef.Z.sqrtrem m') with (Z.sqrtrem m').
  pose proof (Z.sqrtrem_spec m' ltac:(lia)) as Hsq.
  destruct (Z.sqrtrem m') as [q r]. destruct Hsq as [Hq Hr].
  assert (0 <= q)%Z as Hq0 by lia.
  eexists q, e', _. split; [reflexivity|]. split; [exact Hq0|].
  pose proof (digits2_pos_bounds m) as [Hl Hu]. fold d in Hl, Hu.
  assert (0 < d)%Z as Hd by (unfold d; lia).
  split.
  - rewrite fexp_eq.
    destruct (Z_le_gt_dec e' (-1074)) as [|Hgt]; [lia|].
    assert (2 ^ 52 <= q)%Z as Hq52.
    { pose proof (Z.mul_div_le (d + e + 1) 2 ltac:(lia)) as Hle2.
      assert (e' + 53 <= (d + e + 1) / 2)%Z as He53 by (rewrite <- Hd2'; unfold e' in *; lia).
      assert (104 <= d - 1 + s)%Z as H104 by (unfold s; lia).
      assert (2 ^ 104 <= m')%Z as Hmlow.
      { rewrite Hm'. apply Z.le_trans with (2 ^ (d - 1) * 2 ^ s)%Z.
        - rewrite <- Z.pow_add_r by lia. apply Z.pow_le_mono_r; lia.
        - apply Z.mul_le_mono_nonneg_r; lia. }
      destruct (Z_le_gt_dec (2 ^ 52) q) as [|Hlt]; [assumption|exfalso].
      assert ((q + 1) * (q + 1) <= 2 ^ 52 * 2 ^ 52)%Z
        by (apply Z.mul_le_mono_nonneg; lia).
      change (2 ^ 52 * 2 ^ 52)%Z with (2 ^ 104)%Z in *. lia. }
    pose proof (Zdigits2_lower q 52 ltac:(lia) Hq52). lia.
  - assert (IZR (Zpos m) * p2 e = IZR m' * (p2 e' * p2 e')) as ->.
    { rewrite Hm', mult_IZR, <- p2_IZR, <- p2_add, Rmult_assoc, <- p2_add by lia.
      do 2 f_equal. unfold s. lia. }
    pose proof (p2_pos e') as Hpe.
    rewrite sqrt_mult by (try apply IZR_le; try lia; nra).
    rewrite sqrt_square by lra.
    assert (IZR q <= R_sqrt.sqrt (IZR m') < IZR (q + 1)) as [H1 H2].
    { assert (0 <= IZR q) as Hq0' by (apply IZR_le; lia).
      split.
      - rewrite <- (sqrt_square (IZR q)) by exact Hq0'.
        apply sqrt_le_1; [nra | apply IZR_le; lia |].
        rewrite <- mult_IZR. apply IZR_le. lia.
      - rewrite <- (sqrt_square (IZR (q + 1))) by (apply IZR_le; lia).
        apply sqrt_lt_1; [apply IZR_le; lia | |].
        + rewrite <- mult_IZR. apply IZR_le. nia.
        + rewrite <- mult_IZR. apply IZR_lt. nia. }
    split; nra.
Qed.

Lemma finite_value_bound (x : float) : is_finite x = true -> Rabs (value x) < p2 1024.
Proof.
  rewrite SFfinite_spec. unfold value. intros H.
  destruct (Prim2SF x) as [s|s| |s m e] eqn:E; try discriminate;
    try (cbn [SF2R]; rewrite Rabs_R0; apply p2_pos).
  destruct (bounded_cases m e (valid_finite x s m e E)) as (He & Hm & _).
  rewrite SF2R_finite, Rabs_sgn.
  pose proof (p2_pos e). assert (0 < IZR (Zpos m)) by (apply IZR_lt; lia).
  rewrite Rabs_pos_eq by nra.
  apply IZR_lt in Hm. rewrite <- (p2_IZR 53) in Hm by lia.
  replace 1024%Z with (53 + 971)%Z by lia. rewrite p2_add.
  pose proof (p2_le e 971 ltac:(lia)). pose proof (p2_pos 53).
  apply Rlt_le_trans with (p2 53 * p2 e);
    [apply Rmult_lt_compat_r; lra | apply Rmult_le_compat_l; lra].
Qed.

Lemma sqrt_rounded (x : float) :
  is_finite x = true -> plus_class (Prim2SF x) ->
  is_finite (PrimFloat.sqrt x) = true /\ rounded (R_sqrt.sqrt (value x)) (PrimFloat.sqrt x).
Proof.
  intros Hx Hp. pose proof Hx as Hx'. rewrite SFfinite_spec in Hx'.
  pose proof (finite_value_bound x Hx) as Hb.
  destruct (Prim2SF x) as [s|s| |s m e] eqn:Ex; try discriminate; simpl in Hp; subst s.
  - assert (is_finite (PrimFloat.sqrt x) = true) as Hf
      by (rewrite SFfinite_spec, FloatAxioms.sqrt_spec, Ex; reflexivity).
    split; [exact Hf|]. apply rounded_exact; [exact Hf|].
    unfold value. rewrite FloatAxioms.sqrt_spec, Ex. simpl. now rewrite sqrt_0.
  - destruct (sqrt_core m e) as (q & e' & l & Hcore & Hq & He' & Hloc).
    assert (Prim2SF (PrimFloat.sqrt x) = bra false q e' l) as HS.
    { rewrite FloatAxioms.sqrt_spec, Ex. unfold SF64sqrt, SFsqrt. now rewrite Hcore. }
    unfold value in *. rewrite Ex, SF2R_finite in *. unfold sgn in *.
    rewrite Rmult_1_l in *.
    set (X := IZR (Zpos m) * p2 e) in *.
    assert (0 < X) as HX.
    { unfold X. pose proof (p2_pos e). assert (0 < IZR (Zpos m)) by (apply IZR_lt; lia). nra. }
    rewrite Rabs_pos_eq in Hb by lra.
    assert (R_sqrt.sqrt X < p2 1023) as Hsmall.
    { apply Rlt_le_trans with (p2 512).
      - rewrite <- (sqrt_square (p2 512)) by (pose proof (p2_pos 512); lra).
        apply sqrt_lt_1; [lra | pose proof (p2_pos 512); nra |].
        rewrite <- p2_add. exact Hb.
      - apply p2_le. lia. }
    destruct (bra_value false q e' l (R_sqrt.sqrt X) Hq He' Hloc) as (Hn & Hs & Hf & He).
    assert (rounded (sgn false * R_sqrt.sqrt X) (PrimFloat.sqrt x)) as Hr.
    { apply rounded_intro; rewrite ?HS; try assumption. apply sqrt_pos. }
    unfold sgn in Hr. rewrite Rmult_1_l in Hr. split; [|exact Hr].
    rewrite SFfinite_spec, HS. now apply Hf.
Qed.

(** ** Comparisons *)

Lemma canonical_lt (m1 m2 : positive) (e1 e2 : Z) :
  bounded prec emax m1 e1 = true -> bounded prec emax m2 e2 = true ->
  (e1 < e2)%Z -> IZR (Zpos m1) * p2 e1 < IZR (Zpos m2) * p2 e2.
Proof.
  intros H1 H2 He.
  destruct (bounded_cases m1 e1 H1) as (He1 & Hm1 & _).
  destruct (bounded_cases m2 e2 H2) as (_ & _ & Hd2).
  specialize (Hd2 ltac:(lia)).
  pose proof (digits2_pos_bounds m2) as [Hl _]. rewrite Hd2 in Hl.
  apply IZR_lt in Hm1. apply IZR_le in Hl. change (53 - 1)%Z with 52%Z in Hl.
  rewrite <- (p2_IZR 53) in Hm1 by lia. rewrite <- (p2_IZR 52) in Hl by lia.
  pose proof (p2_pos e1). pose proof (p2_pos e2). pose proof (p2_pos 52).
  apply Rlt_le_trans with (p2 53 * p2 e1); [apply Rmult_lt_compat_r; lra|].
  apply Rle_trans with (p2 52 * p2 e2); [|apply Rmult_le_compat_r; lra].
  rewrite <- !p2_add. apply p2_le. lia.
Qed.

Lemma compare_magnitudes (m1 m2 : positive) (e1 e2 : Z) :
  bounded prec emax m1 e1 = true -> bounded prec emax m2 e2 = true ->
  match (match (e1 ?= e2)%Z with
         | Lt => Lt
         | Gt => Gt
         | Eq => Pos.compare_cont Eq m1 m2
         end) with
  | Lt => IZR (Zpos m1) * p2 e1 < IZR (Zpos m2) * p2 e2
  | Eq => IZR (Zpos m1) * p2 e1 = IZR (Zpos m2) * p2 e2
  | Gt => IZR (Zpos m2) * p2 e2 < IZR (Zpos m1) * p2 e1
  end.
Proof.
  intros H1 H2. destruct (Z.compare_spec e1 e2) as [->|He|He].
  - change (Pos.compare_cont Eq m1 m2) with (Pos.compare m1 m2).
    pose proof (p2_pos e2).
    destruct (Pos.compare_spec m1 m2) as [->|Hm|Hm]; [reflexivity| |];
      apply Rmult_lt_compat_r; try lra; apply IZR_lt; lia.
  - now apply canonical_lt.
  - now apply canonical_lt.
Qed.

(** [SFcompare] on valid finite values is the order of the reals. *)
Lemma SFcompare_value (x y : float) :
  is_finite x = true -> is_finite y = true ->
  match SFcompare (Prim2SF x) (Prim2SF y) with
  | Some Lt => value x < value y
  | Some Eq => value x = value y
  | Some Gt => value y < value x
  | None => False
  end.
Proof.
  rewrite !SFfinite_spec. unfold value. intros Hx Hy.
  destruct (Prim2SF x) as [sx|sx| |sx mx ex] eqn:Ex; try discriminate;
    destruct (Prim2SF y) as [sy|sy| |sy my ey] eqn:Ey; try discriminate.
  - reflexivity.
  - cbn [SFcompare]. rewrite SF2R_finite. cbn [SF2R].
    pose proof (p2_pos ey). assert (0 < IZR (Zpos my)) by (apply IZR_lt; lia).
    destruct sy; unfold sgn; nra.
  - cbn [SFcompare]. rewrite SF2R_finite. cbn [SF2R].
    pose proof (p2_pos ex). assert (0 < IZR (Zpos mx)) by (apply IZR_lt; lia).
    destruct sx; unfold sgn; nra.
  - pose proof (valid_finite x sx mx ex Ex) as Vx.
    pose proof (valid_finite y sy my ey Ey) as Vy.
    pose proof (compare_magnitudes mx my ex ey Vx Vy) as Hc.
    rewrite !SF2R_finite. cbn [SFcompare].
    pose proof (p2_pos ex). assert (0 < IZR (Zpos mx)) by (apply IZR_lt; lia).
    pose proof (p2_pos ey). assert (0 < IZR (Zpos my)) by (apply IZR_lt; lia).
    destruct sx, sy; unfold sgn.
    + destruct (ex ?= ey)%Z; [destruct (Pos.compare_cont Eq mx my)| |]; simpl in *; lra.
    + nra.
    + nra.
    + destruct (ex ?= ey)%Z; [destruct (Pos.compare_cont Eq mx my)| |]; simpl in *; lra.
Qed.

Lemma ltb_value (x y : float) :
  is_finite x = true -> is_finite y = true ->
  ((x <? y)%float = true <-> value x < value y).
Proof.
  intros Hx Hy. pose proof (SFcompare_value x y Hx Hy) as H.
  rewrite FloatAxioms.ltb_spec. unfold SFltb.
  destruct (SFcompare (Prim2SF x) (Prim2SF y)) as [[| |]|]; split; intros; try easy; lra.
Qed.

Lemma leb_value (x y : float) :
  is_finite x = true -> is_finite y = true ->
  ((x <=? y)%float = true <-> value x <= value y).
Proof.
  intros Hx Hy. pose proof (SFcompare_value x y Hx Hy) as H.
  rewrite FloatAxioms.leb_spec. unfold SFleb.
  destruct (SFcompare (Prim2SF x) (Prim2SF y)) as [[| |]|]; split; intros; try easy; lra.
Qed.

Lemma value_0 : value 0%float = 0.
Proof. reflexivity. Qed.

Lemma value_1 : value 1%float = 1.
Proof.
  unfold value. rewrite Prim2SF_one, SF2R_finite, p2_m52. unfold sgn. lra.
Qed.

Lemma value_eps : value sc_Precision = p2 (-52).
Proof.
  unfold value. rewrite Prim2SF_eps, SF2R_finite. unfold sgn.
  change (IZR (Zpos 4503599627370496)) with (IZR (2 ^ 52)).
  rewrite <- (p2_IZR 52) by lia. rewrite Rmult_1_l, <- p2_add. reflexivity.
Qed.

Lemma eqb_zero_value (x : float) :
  is_finite x = true -> ((x =? 0)%float = true <-> value x = 0).
Proof.
  intros Hx. pose proof (SFcompare_value x 0%float Hx eq_refl) as H.
  rewrite FloatAxioms.eqb_spec. unfold SFeqb. rewrite value_0 in H.
  destruct (SFcompare (Prim2SF x) (Prim2SF 0%float)) as [[| |]|]; split; intros; try easy; lra.
Qed.

Lemma value_abs (x : float) : value (abs x) = Rabs (value x).
Proof.
  unfold value. rewrite FloatAxioms.abs_spec.
  destruct (Prim2SF x) as [s|s| |s m e]; cbn [SFabs SF2R]; rewrite ?Rabs_R0; try reflexivity.
  fold (SF2R (S754_finite false m e)). fold (SF2R (S754_finite s m e)).
  rewrite !SF2R_finite, Rabs_sgn. unfold sgn. rewrite Rmult_1_l.
  symmetry. apply Rabs_pos_eq.
  pose proof (p2_pos e). assert (0 < IZR (Zpos m)) by (apply IZR_lt; lia). nra.
Qed.

Lemma is_finite_abs (x : float) : is_finite (abs x) = is_finite x.
Proof. rewrite !SFfinite_spec, FloatAxioms.abs_spec. now destruct (Prim2SF x). Qed.

(** A scalar between 0 and 1 for [<=] is finite, and so is its value. *)
Lemma unit_interval_value (c : float) :
  (0 <=? c)%float = true -> (c <=? 1)%float = true ->
  is_finite c = true /\ 0 <= value c <= 1.
Proof.
  intros H0 H1.
  assert (is_finite c = true) as Hf.
  { rewrite SFfinite_spec. rewrite FloatAxioms.leb_spec in H0, H1.
    rewrite Prim2SF_zero in H0. rewrite Prim2SF_one in H1.
    destruct (Prim2SF c) as [s|[|]| |s m e]; try reflexivity; discriminate. }
  split; [exact Hf|].
  apply (leb_value 0%float c eq_refl Hf) in H0. apply (leb_value c 1%float Hf eq_refl) in H1.
  rewrite value_0 in H0. rewrite value_1 in H1. lra.
Qed.

End Rounding.

(** * Bounded coordinates: no overflow in [closestDistance] *)

Section BoundedSegments.
Import PointOps SegmentOps.
Local Open Scope R_scope.

Lemma bnd_weaken (j k : Z) (x : float) : (j <= k)%Z -> bnd j x -> bnd k x.
Proof. intros H [Hf Hb]. split; [exact Hf|]. pose proof (p2_le j k H). lra. Qed.

Lemma eta_le (k : Z) : (0 <= k)%Z -> p2 (-1074) <= p2 k.
Proof. intros H. apply p2_le. lia. Qed.

(** A rounded value grows by less than a factor two. *)
Lemma rounded_bnd (v : R) (x : float) (k : Z) :
  rounded v x -> (0 <= k <= 1022)%Z -> Rabs v <= p2 k -> bnd (k + 1) x.
Proof.
  intros (_ & Hf & He) Hk Hv.
  assert (is_finite x = true) as Hfin.
  { apply Hf. pose proof (p2_lt k 1023 ltac:(lia)). lra. }
  split; [exact Hfin|]. specialize (He Hfin).
  apply Rabs_bounds in He. rewrite p2_succ.
  pose proof (p2_le (-1074) (k - 1) ltac:(lia)) as Heta.
  assert (p2 k = 2 * p2 (k - 1)) as Hk2
    by (rewrite <- p2_succ; f_equal; lia).
  pose proof (p2_pos (k - 1)). pose proof p2_m52. pose proof (Rabs_pos v).
  assert (Rabs (value x) <= Rabs v + Rabs (value x - v)) as Ht.
  { replace (value x) with (v + (value x - v)) at 1 by ring. apply Rabs_triang. }
  assert (Rabs (value x - v) <= p2 (-52) * Rabs v + p2 (-1074)) as Hd.
  { apply Rabs_le. lra. }
  nra.
Qed.

Lemma add_bnd (k : Z) (x y : float) :
  (0 <= k <= 1021)%Z -> bnd k x -> bnd k y -> bnd (k + 2) (x + y)%float.
Proof.
  intros Hk [Hx Bx] [Hy By]. replace (k + 2)%Z with (k + 1 + 1)%Z by lia.
  apply (rounded_bnd (value x + value y)); [now apply add_rounded | lia |].
  rewrite p2_succ. pose proof (Rabs_triang (value x) (value y)). lra.
Qed.

Lemma sub_bnd (k : Z) (x y : float) :
  (0 <= k <= 1021)%Z -> bnd k x -> bnd k y -> bnd (k + 2) (x - y)%float.
Proof.
  intros Hk [Hx Bx] [Hy By]. replace (k + 2)%Z with (k + 1 + 1)%Z by lia.
  apply (rounded_bnd (value x - value y)); [now apply sub_rounded | lia |].
  rewrite p2_succ. pose proof (Rabs_triang (value x) (- value y)).
  rewrite Rabs_Ropp in H. replace (value x - value y) with (value x + - value y) by ring. lra.
Qed.

Lemma mul_bnd (j k : Z) (x y : float) :
  (0 <= j)%Z -> (0 <= k)%Z -> (j + k <= 1022)%Z ->
  bnd j x -> bnd k y -> bnd (j + k + 1) (x * y)%float.
Proof.
  intros Hj Hk Hjk [Hx Bx] [Hy By].
  apply (rounded_bnd (value x * value y)); [now apply mul_rounded | lia |].
  rewrite Rabs_mult, p2_add.
  pose proof (Rabs_pos (value x)). pose proof (Rabs_pos (value y)).
  apply Rmult_le_compat; lra.
Qed.

Lemma op_sub_bnd (k : Z) (p q : Point) :
  (0 <= k <= 1021)%Z -> pbnd k p -> pbnd k q -> pbnd (k + 2) (op_sub p q).
Proof.
  intros Hk (Hx & Hy & Hz) (Hx' & Hy' & Hz').
  split; [|split]; cbn [op_sub m_X m_Y m_Z]; now apply sub_bnd.
Qed.

Lemma op_add_bnd (k : Z) (p q : Point) :
  (0 <= k <= 1021)%Z -> pbnd k p -> pbnd k q -> pbnd (k + 2) (op_add p q).
Proof.
  intros Hk (Hx & Hy & Hz) (Hx' & Hy' & Hz').
  split; [|split]; cbn [op_add m_X m_Y m_Z]; now apply add_bnd.
Qed.

Lemma op_mul_bnd (j k : Z) (p : Point) (s : float) :
  (0 <= j)%Z -> (0 <= k)%Z -> (j + k <= 1022)%Z ->
  pbnd j p -> bnd k s -> pbnd (j + k + 1) (op_mul p s).
Proof.
  intros Hj Hk Hjk (Hx & Hy & Hz) Hs.
  split; [|split]; cbn [op_mul m_X m_Y m_Z]; now apply mul_bnd.
Qed.

Lemma pbnd_weaken (j k : Z) (p : Point) : (j <= k)%Z -> pbnd j p -> pbnd k p.
Proof. intros H (Hx & Hy & Hz). split; [|split]; now apply (bnd_weaken j k). Qed.

Lemma dot_bnd (j k : Z) (p q : Point) :
  (0 <= j)%Z -> (0 <= k)%Z -> (j + k <= 1018)%Z ->
  pbnd j p -> pbnd k q -> bnd (j + k + 5) (dot p q).
Proof.
  intros Hj Hk Hjk (Hx & Hy & Hz) (Hx' & Hy' & Hz'). unfold dot.
  replace (j + k + 5)%Z with (j + k + 3 + 2)%Z by lia.
  apply add_bnd; [lia| |].
  - replace (j + k + 3)%Z with (j + k + 1 + 2)%Z by lia.
    apply add_bnd; [lia| |]; apply mul_bnd; assumption || lia.
  - apply (bnd_weaken (j + k + 1)); [lia|]. apply mul_bnd; assumption || lia.
Qed.

Lemma Prim2SF_bound : Prim2SF 0x1p250%float = S754_finite false 4503599627370496 198.
Proof. reflexivity. Qed.

Lemma value_bound : value 0x1p250%float = p2 250.
Proof.
  unfold value. rewrite Prim2SF_bound, SF2R_finite. unfold sgn.
  change (IZR (Zpos 4503599627370496)) with (IZR (2 ^ 52)).
  rewrite <- (p2_IZR 52) by lia. rewrite Rmult_1_l, <- p2_add. reflexivity.
Qed.

Lemma fabs_leb_bnd (c : float) : (Std.fabs c <=? 0x1p250)%float = true -> bnd 250 c.
Proof.
  intros H. unfold Std.fabs in H.
  assert (is_finite (abs c) = true) as Hf.
  { rewrite SFfinite_spec. rewrite FloatAxioms.leb_spec, Prim2SF_bound in H.
    destruct (Prim2SF (abs c)) as [s|[|]| |s m e] eqn:E; try reflexivity; try discriminate.
    rewrite FloatAxioms.abs_spec in E. now destruct (Prim2SF c). }
  apply (leb_value (abs c) 0x1p250%float Hf eq_refl) in H.
  rewrite value_abs, value_bound in H. rewrite is_finite_abs in Hf. now split.
Qed.

Lemma within_pbnd (s : Segment) :
  within 0x1p250%float s = true -> pbnd 250 (m_Start s) /\ pbnd 250 (m_End s).
Proof.
  unfold within, Scenarios.coordinates. cbn [forallb].
  rewrite !andb_true_iff. intros (H1 & H2 & H3 & H4 & H5 & H6 & _).
  repeat split; now apply fabs_leb_bnd.
Qed.

(** [std::clamp] to the unit interval: one of the two ends, or the scalar
    itself when it lies between them. *)
Lemma clamp_cases (v : float) :
  is_nan v = false ->
  Std.clamp v sc_ParametricL sc_ParametricH = 0%float
  \/ Std.clamp v sc_ParametricL sc_ParametricH = 1%float
  \/ (Std.clamp v sc_ParametricL sc_ParametricH = v
      /\ (0 <=? v)%float = true /\ (v <=? 1)%float = true).
Proof.
  intros H. unfold Std.clamp, sc_ParametricL, sc_ParametricH.
  destruct (v <? 0)%float eqn:H0; [now left|].
  destruct (1 <? v)%float eqn:H1; [now right; left|].
  right; right. split; [reflexivity|]. split; now apply not_ltb_leb.
Qed.

Lemma clamp_bnd (v : float) :
  is_nan v = false -> bnd 0 (Std.clamp v sc_ParametricL sc_ParametricH).
Proof.
  intros H. unfold bnd. rewrite p2_0.
  destruct (clamp_cases v H) as [-> | [-> | (-> & H0 & H1)]].
  - split; [reflexivity|]. rewrite value_0, Rabs_R0. lra.
  - split; [reflexivity|]. rewrite value_1, Rabs_R1. lra.
  - destruct (unit_interval_value v H0 H1) as [Hf Hv]. split; [exact Hf|].
    apply Rabs_le. lra.
Qed.

(** A quotient of finite scalars is NaN only as zero by zero. *)
Lemma div_finite_not_nan (f e : float) :
  is_finite f = true -> is_finite e = true ->
  ((e =? 0) && (f =? 0))%float = false -> is_nan (f / e)%float = false.
Proof.
  intros Hf He H.
  destruct (e =? 0)%float eqn:E0.
  - simpl in H. apply is_nan_false.
    rewrite SFfinite_spec in Hf. rewrite FloatAxioms.eqb_spec, Prim2SF_zero in E0, H.
    rewrite FloatAxioms.div_spec. unfold SFeqb in *.
    destruct (Prim2SF e) as [s|s| |s m x]; try discriminate;
      destruct (Prim2SF f) as [s'|s'| |s' m' x']; try discriminate; simpl in *;
      try discriminate; destruct s; discriminate.
  - apply (div_rounded f e Hf He).
    intros Hv. apply (eqb_zero_value e He) in Hv. congruence.
Qed.

Lemma distance_finite (k : Z) (p q : Point) :
  (0 <= k <= 505)%Z -> pbnd k p -> pbnd k q -> is_finite (distance p q) = true.
Proof.
  intros Hk (Hx & Hy & Hz) (Hx' & Hy' & Hz'). unfold distance. cbv zeta.
  pose proof (sub_bnd k _ _ ltac:(lia) Hx' Hx) as Dx.
  pose proof (sub_bnd k _ _ ltac:(lia) Hy' Hy) as Dy.
  pose proof (sub_bnd k _ _ ltac:(lia) Hz' Hz) as Dz.
  set (dx := (m_X q - m_X p)%float) in *. set (dy := (m_Y q - m_Y p)%float) in *.
  set (dz := (m_Z q - m_Z p)%float) in *.
  assert (bnd (2 * k + 9) (dx * dx + dy * dy + dz * dz)%float) as [Hs _].
  { replace (2 * k + 9)%Z with (2 * k + 7 + 2)%Z by lia. apply add_bnd; [lia| |].
    - replace (2 * k + 7)%Z with (2 * k + 5 + 2)%Z by lia. apply add_bnd; [lia| |].
      + replace (2 * k + 5)%Z with (k + 2 + (k + 2) + 1)%Z by lia.
        apply mul_bnd; assumption || lia.
      + replace (2 * k + 5)%Z with (k + 2 + (k + 2) + 1)%Z by lia.
        apply mul_bnd; assumption || lia.
    - apply (bnd_weaken (k + 2 + (k + 2) + 1)); [lia|]. apply mul_bnd; assumption || lia. }
  assert (plus_class (Prim2SF (dx * dx + dy * dy + dz * dz)%float)) as Hp.
  { apply sum_squares_plus; apply finite_is_not_nan; [apply Dx | apply Dy | apply Dz]. }
  exact (proj1 (sqrt_rounded _ Hs Hp)).
Qed.

(** The two parameters after clamping lie in the unit interval, and the
    result is the distance between the two points they select. *)
Lemma closestDistance_parameters (s1 s2 : Segment) :
  within 0x1p250%float s1 = true -> within 0x1p250%float s2 = true ->
  zero_by_zero s1 s2 = false ->
  exists s t : Scalar_t,
    bnd 0 s /\ bnd 0 t
    /\ closestDistance s1 s2
       = distance (op_add (m_Start s1) (op_mul (op_sub (m_End s1) (m_Start s1)) s))
                  (op_add (m_Start s2) (op_mul (op_sub (m_End s2) (m_Start s2)) t)).
Proof.
  intros H1 H2 Hz.
  destruct (within_pbnd s1 H1) as [Hs1 He1]. destruct (within_pbnd s2 H2) as [Hs2 He2].
  pose proof (op_sub_bnd 250 _ _ ltac:(lia) He1 Hs1) as HD1.
  pose proof (op_sub_bnd 250 _ _ ltac:(lia) He2 Hs2) as HD2.
  pose proof (op_sub_bnd 250 _ _ ltac:(lia) Hs1 Hs2) as HR.
  unfold closestDistance, zero_by_zero, Spec.denominator in *. cbv zeta in *.
  set (D1 := op_sub (m_End s1) (m_Start s1)) in *.
  set (D2 := op_sub (m_End s2) (m_Start s2)) in *.
  set (R := op_sub (m_Start s1) (m_Start s2)) in *.
  change (250 + 2)%Z with 252%Z in *.
  pose proof (dot_bnd 252 252 D1 D1 ltac:(lia) ltac:(lia) ltac:(lia) HD1 HD1) as HA.
  pose proof (dot_bnd 252 252 D2 D2 ltac:(lia) ltac:(lia) ltac:(lia) HD2 HD2) as HE.
  pose proof (dot_bnd 252 252 D2 R ltac:(lia) ltac:(lia) ltac:(lia) HD2 HR) as HF.
  pose proof (dot_bnd 252 252 D1 D2 ltac:(lia) ltac:(lia) ltac:(lia) HD1 HD2) as HB.
  pose proof (dot_bnd 252 252 D1 R ltac:(lia) ltac:(lia) ltac:(lia) HD1 HR) as HC.
  change (252 + 252 + 5)%Z with 509%Z in *.
  set (A := dot D1 D1) in *. set (E := dot D2 D2) in *. set (F := dot D2 R) in *.
  set (B := dot D1 D2) in *. set (C := dot D1 R) in *.
  assert (forall u v w z : float, bnd 509 u -> bnd 509 v -> bnd 509 w -> bnd 509 z ->
            bnd 1021 (u * v - w * z)%float) as Hcomb.
  { intros u v w z Hu Hv Hw Hz'. change 1021%Z with (509 + 509 + 1 + 2)%Z.
    apply sub_bnd; [lia| |]; apply mul_bnd; assumption || lia. }
  pose proof (Hcomb A E B B HA HE HB HB) as [Hden _].
  destruct (sc_Precision <? Std.fabs (A * E - B * B))%float eqn:Hb.
  - (* the two quotients by a denominator that is not zero *)
    assert (value (A * E - B * B)%float <> 0) as Hne.
    { unfold Std.fabs in Hb.
      apply (ltb_value sc_Precision _ eq_refl) in Hb; [|now rewrite is_finite_abs].
      rewrite value_eps, value_abs in Hb. pose proof (p2_pos (-52)).
      intros Hv. rewrite Hv, Rabs_R0 in Hb. lra. }
    pose proof (Hcomb B F C E HB HF HC HE) as [Hn1 _].
    pose proof (Hcomb A F B C HA HF HB HC) as [Hn2 _].
    destruct (div_rounded _ _ Hn1 Hden Hne) as [Hq1 _].
    destruct (div_rounded _ _ Hn2 Hden Hne) as [Hq2 _].
    eexists. eexists. split; [apply (clamp_bnd _ Hq1)|]. split; [apply (clamp_bnd _ Hq2)|].
    reflexivity.
  - cbn [negb andb] in Hz.
    pose proof (div_finite_not_nan F E (proj1 HF) (proj1 HE) Hz) as Hq.
    eexists. eexists. split; [apply (clamp_bnd 0%float eq_refl)|].
    split; [apply (clamp_bnd _ Hq)|]. reflexivity.
Qed.

End BoundedSegments.

Section SegmentSafety.
Import PointOps SegmentOps.

(** C2, as amended.  For two segments whose coordinates are at most 2^250
    in absolute value, [closestDistance] returns a finite scalar that is not
    below zero, never a NaN: also for a first segment of length zero, and
    for coincident, parallel, skew and intersecting segments.  The case in
    which the parallel branch divides zero by zero, [l_F / l_E] with both
    zero, is left out. *)
Theorem closestDistance_finite_nonnegative (s1 s2 : Segment) :
  within 0x1p250 s1 = true -> within 0x1p250 s2 = true ->
  zero_by_zero s1 s2 = false ->
  is_finite (closestDistance s1 s2) = true /\ (0 <=? closestDistance s1 s2) = true.
Proof.
  intros H1 H2 Hz.
  destruct (closestDistance_parameters s1 s2 H1 H2 Hz) as (s & t & Hs & Ht & E).
  destruct (within_pbnd s1 H1) as [Hs1 He1]. destruct (within_pbnd s2 H2) as [Hs2 He2].
  assert (forall p q u, pbnd 250 p -> pbnd 250 q -> bnd 0 u ->
            pbnd 255 (op_add p (op_mul (op_sub q p) u))) as Hpoint.
  { intros p q u Hp Hq Hu. change 255%Z with (253 + 2)%Z.
    apply op_add_bnd; [lia | apply (pbnd_weaken 250); [lia | exact Hp] |].
    change 253%Z with (250 + 2 + 0 + 1)%Z.
    apply op_mul_bnd; try lia; [|exact Hu]. apply op_sub_bnd; [lia | exact Hq | exact Hp]. }
  assert (is_finite (closestDistance s1 s2) = true) as Hf.
  { rewrite E. apply (distance_finite 255); [lia | |]; now apply Hpoint. }
  split; [exact Hf|].
  apply closestDistance_not_below_zero, finite_is_not_nan, Hf.
Qed.

(** [closestDistance_finite_nonnegative] on a first segment reduced to the
    point (0, 1, 0) and the unit segment of the x axis. *)
Lemma closestDistance_finite_nonnegative_witness :
  is_finite (closestDistance Scenarios.point_y Scenarios.unit_x) = true
  /\ (0 <=? closestDistance Scenarios.point_y Scenarios.unit_x) = true.
Proof.
  apply (closestDistance_finite_nonnegative Scenarios.point_y Scenarios.unit_x);
    reflexivity.
Defined.

End SegmentSafety.

(** * The length of a normalized vector: error analysis on the reals *)

Section ErrorAnalysis.
Local Open Scope R_scope.

(** [2^-52], the relative error of one rounding at most. *)
Local Abbreviation e52 := (/ 4503599627370496).

(** A bound on [2^-1074], far below every quantity it is compared with. *)
Local Abbreviation tiny := (/ 100000000000000000000000000000000000000000000000000000000000000000000000000000000000000000000000000000000000000000000000000000000000000000000000000000000000000000000000000000000000000000000000000000000).

Lemma square_le (r u : R) : 0 <= u -> r * r <= u * u -> r <= u.
Proof. intros Hu H. destruct (Rle_lt_dec r u) as [|Hlt]; [assumption|]. nra. Qed.

Lemma rounded_interval (v : R) (x : float) :
  rounded v x -> is_finite x = true -> 0 <= v ->
  v * (1 - e52) - p2 (-1074) <= value x <= v * (1 + e52) + p2 (-1074).
Proof.
  intros (_ & _ & He) Hf Hv. specialize (He Hf).
  rewrite (Rabs_pos_eq v Hv), p2_m52 in He. apply Rabs_bounds in He. lra.
Qed.

Lemma p2_m1074_tiny : p2 (-1074) <= tiny.
Proof.
  change (-1074)%Z with (- (1074))%Z. rewrite p2_opp, (p2_IZR 1074) by lia.
  apply Rinv_le_contravar; [lra|]. apply IZR_le. vm_compute. discriminate.
Qed.

(** Three squares added left to right, each operation rounded. *)
Lemma sum3_interval (a b c va vb vc v1 vS eta : R) :
  0 <= a -> 0 <= b -> 0 <= c -> 0 <= eta ->
  0 <= va -> 0 <= vb -> 0 <= vc -> 0 <= v1 ->
  a * (1 - e52) - eta <= va <= a * (1 + e52) + eta ->
  b * (1 - e52) - eta <= vb <= b * (1 + e52) + eta ->
  c * (1 - e52) - eta <= vc <= c * (1 + e52) + eta ->
  (va + vb) * (1 - e52) - eta <= v1 <= (va + vb) * (1 + e52) + eta ->
  (v1 + vc) * (1 - e52) - eta <= vS <= (v1 + vc) * (1 + e52) + eta ->
  (a + b + c) * (1 - 4 * e52) - 6 * eta <= vS <= (a + b + c) * (1 + 4 * e52) + 6 * eta.
Proof. intros. split; nra. Qed.

(** A magnitude above the threshold: the sum of squares is not tiny. *)
Lemma floor_from_threshold (T vS r vm eta : R) :
  0 <= eta <= tiny -> 0 <= T ->
  vS <= T * (1 + 4 * e52) + 6 * eta ->
  0 <= r -> r * r = vS ->
  vm <= r * (1 + e52) + eta -> e52 < vm ->
  / 1000000000000000000000000000000000 <= T.
Proof.
  intros Heta HT HS Hr Hrr Hm Hth.
  assert (e52 / 2 <= r) as Hr2 by lra.
  assert (e52 / 2 * (e52 / 2) <= r * r) as Hsq by (apply Rmult_le_compat; lra).
  lra.
Qed.

(** The square root of the rounded sum, rounded. *)
Lemma sqrt_interval (T vS r R0 vm eta : R) :
  0 <= eta -> 100 * eta <= T * e52 -> 100 * eta <= R0 * e52 ->
  T * (1 - 4 * e52) - 6 * eta <= vS <= T * (1 + 4 * e52) + 6 * eta ->
  0 <= r -> r * r = vS -> 0 <= R0 -> R0 * R0 = T ->
  r * (1 - e52) - eta <= vm <= r * (1 + e52) + eta ->
  R0 * (1 - 32 / 10 * e52) <= vm <= R0 * (1 + 32 / 10 * e52).
Proof.
  intros Heta Ht Hr0 HS Hr Hrr HR0 HT Hm.
  assert (r <= R0 * (1 + 21 / 10 * e52)) as Hup.
  { apply square_le; [nra|].
    replace (R0 * (1 + 21 / 10 * e52) * (R0 * (1 + 21 / 10 * e52)))
      with (T * ((1 + 21 / 10 * e52) * (1 + 21 / 10 * e52))) by (rewrite <- HT; ring).
    lra. }
  assert (R0 * (1 - 21 / 10 * e52) <= r) as Hlo.
  { apply square_le; [exact Hr|].
    replace (R0 * (1 - 21 / 10 * e52) * (R0 * (1 - 21 / 10 * e52)))
      with (T * ((1 - 21 / 10 * e52) * (1 - 21 / 10 * e52))) by (rewrite <- HT; ring).
    lra. }
  split; nra.
Qed.

(** The square of a rounded quotient [x'] of absolute value about [g]. *)
Lemma scaled_square (g x' eta : R) :
  0 <= g <= 11 / 10 -> 0 <= eta <= / 100 ->
  Rabs (Rabs x' - g) <= e52 * g + eta ->
  g * g * ((1 - e52) * (1 - e52)) - 3 * eta <= x' * x'
  <= g * g * ((1 + e52) * (1 + e52)) + 3 * eta.
Proof.
  intros Hg Heta H. apply Rabs_bounds in H.
  assert (x' * x' = Rabs x' * Rabs x') as ->.
  { unfold Rabs. destruct (Rcase_abs x'); ring. }
  pose proof (Rabs_pos x') as Hx. set (ax := Rabs x') in *.
  split.
  - destruct (Rle_lt_dec 0 (g * (1 - e52) - eta)) as [Hpos|Hneg].
    + assert ((g * (1 - e52) - eta) * (g * (1 - e52) - eta) <= ax * ax)
        by (apply Rmult_le_compat; lra).
      nra.
    + assert (0 <= ax * ax) by nra. nra.
  - assert (ax * ax <= (g * (1 + e52) + eta) * (g * (1 + e52) + eta))
      by (apply Rmult_le_compat; lra).
    nra.
Qed.

(** The sum of the squares of the three rounded quotients. *)
Lemma normalized_sum (u v w rho x' y' z' eta : R) :
  u * u + v * v + w * w = 1 ->
  1 - 33 / 10 * e52 <= rho <= 1 + 33 / 10 * e52 ->
  0 <= eta -> 1000 * eta <= e52 ->
  Rabs (x' - u * rho) <= e52 * Rabs (u * rho) + eta ->
  Rabs (y' - v * rho) <= e52 * Rabs (v * rho) + eta ->
  Rabs (z' - w * rho) <= e52 * Rabs (w * rho) + eta ->
  1 - 88 / 10 * e52 <= x' * x' + y' * y' + z' * z' <= 1 + 88 / 10 * e52.
Proof.
  intros Hn Hrho Heta Hsmall Hx Hy Hz.
  assert (forall t t', t * t <= 1 -> Rabs (t' - t * rho) <= e52 * Rabs (t * rho) + eta ->
            t * t * (rho * rho) * ((1 - e52) * (1 - e52)) - 3 * eta <= t' * t'
            <= t * t * (rho * rho) * ((1 + e52) * (1 + e52)) + 3 * eta) as Hone.
  { intros t t' Ht H.
    assert (Rabs t <= 1) as Ht1.
    { apply square_le; [lra|]. unfold Rabs. destruct (Rcase_abs t); lra. }
    pose proof (Rabs_pos t) as Ht0.
    assert (Rabs (t * rho) = Rabs t * rho) as Hg
      by (rewrite Rabs_mult, (Rabs_pos_eq rho); [reflexivity | lra]).
    assert (t * t * (rho * rho) = Rabs t * rho * (Rabs t * rho)) as ->.
    { replace (Rabs t * rho * (Rabs t * rho)) with (Rabs t * Rabs t * (rho * rho)) by ring.
      f_equal. unfold Rabs. destruct (Rcase_abs t); ring. }
    apply scaled_square; [split; nra | lra |].
    rewrite <- Hg. eapply Rle_trans; [apply Rabs_triang_inv2 | exact H]. }
  assert (0 <= u * u /\ 0 <= v * v /\ 0 <= w * w) as (Hu & Hv & Hw) by (repeat split; nra).
  pose proof (Hone u x' ltac:(lra) Hx) as Hx'.
  pose proof (Hone v y' ltac:(lra) Hy) as Hy'.
  pose proof (Hone w z' ltac:(lra) Hz) as Hz'.
  assert ((1 - 33 / 10 * e52) * (1 - 33 / 10 * e52) <= rho * rho
          <= (1 + 33 / 10 * e52) * (1 + 33 / 10 * e52)) as Hrr
    by (split; apply Rmult_le_compat; lra).
  set (k := rho * rho) in *. set (a := u * u) in *. set (b := v * v) in *.
  set (c := w * w) in *.
  assert (a * k + b * k + c * k = k) as Hk by (replace k with (1 * k) at 4 by ring; rewrite <- Hn; ring).
  split; nra.
Qed.

End ErrorAnalysis.

(** * The magnitude of a normalized Point *)

Section NormalizeAnalysis.
Import PointOps.
Local Open Scope R_scope.

Local Abbreviation e52 := (/ 4503599627370496).

Lemma sqrt_finite_inv (a : float) :
  is_finite (PrimFloat.sqrt a) = true -> is_finite a = true.
Proof.
  rewrite !SFfinite_spec, FloatAxioms.sqrt_spec.
  now destruct (Prim2SF a) as [s|[|]| |[|] m e].
Qed.

Lemma add_finite_inv (a b : float) :
  is_finite (a + b)%float = true -> is_finite a = true /\ is_finite b = true.
Proof.
  rewrite !SFfinite_spec, FloatAxioms.add_spec.
  destruct (Prim2SF a) as [s|[|]| |s m e], (Prim2SF b) as [s'|[|]| |s' m' e'];
    cbn [SF64add SFadd SFfinite]; intros H; try discriminate; auto.
Qed.

Lemma mul_finite_inv (a b : float) :
  is_finite (a * b)%float = true -> is_finite a = true /\ is_finite b = true.
Proof.
  rewrite !SFfinite_spec, FloatAxioms.mul_spec.
  destruct (Prim2SF a) as [s|s| |s m e], (Prim2SF b) as [s'|s'| |s' m' e'];
    cbn [SF64mul SFmul SFfinite]; intros H; try discriminate; auto.
Qed.

Lemma plus_class_value (x : float) : plus_class (Prim2SF x) -> 0 <= value x.
Proof.
  unfold value. destruct (Prim2SF x) as [s|s| |s m e]; cbn [plus_class SF2R];
    intros H; try lra.
  subst s. fold (SF2R (S754_finite false m e)). rewrite SF2R_finite. unfold sgn.
  pose proof (p2_pos e). assert (0 < IZR (Zpos m)) by (apply IZR_lt; lia). nra.
Qed.

Lemma square_plus (x : float) : is_finite x = true -> plus_class (Prim2SF (x * x)%float).
Proof.
  intros H. rewrite FloatAxioms.mul_spec. apply SFmul_square_plus.
  apply not_nan_spec. now apply finite_is_not_nan.
Qed.

(** The sum of three squares as [magnitude] and [distance] compute it. *)
Lemma sumsq_bounds (x y z : float) :
  is_finite (x * x + y * y + z * z)%float = true ->
  is_finite x = true /\ is_finite y = true /\ is_finite z = true
  /\ (value x * value x + value y * value y + value z * value z) * (1 - 4 * e52)
       - 6 * p2 (-1074)
     <= value (x * x + y * y + z * z)%float
     <= (value x * value x + value y * value y + value z * value z) * (1 + 4 * e52)
        + 6 * p2 (-1074).
Proof.
  intros HS.
  destruct (add_finite_inv _ _ HS) as [H1 Hzz].
  destruct (add_finite_inv _ _ H1) as [Hxx Hyy].
  destruct (mul_finite_inv _ _ Hxx) as [Hx _].
  destruct (mul_finite_inv _ _ Hyy) as [Hy _].
  destruct (mul_finite_inv _ _ Hzz) as [Hz _].
  split; [exact Hx|]. split; [exact Hy|]. split; [exact Hz|].
  pose proof (plus_class_value _ (square_plus x Hx)) as Px.
  pose proof (plus_class_value _ (square_plus y Hy)) as Py.
  pose proof (plus_class_value _ (square_plus z Hz)) as Pz.
  assert (0 <= value (x * x + y * y)%float) as P1.
  { apply plus_class_value. rewrite FloatAxioms.add_spec.
    apply SFadd_plus; now apply square_plus. }
  pose proof (p2_pos (-1074)) as Heta.
  apply (sum3_interval (value x * value x) (value y * value y) (value z * value z)
           (value (x * x)%float) (value (y * y)%float) (value (z * z)%float)
           (value (x * x + y * y)%float));
    try nra; try assumption.
  - apply rounded_interval; [now apply mul_rounded | exact Hxx | nra].
  - apply rounded_interval; [now apply mul_rounded | exact Hyy | nra].
  - apply rounded_interval; [now apply mul_rounded | exact Hzz | nra].
  - apply rounded_interval; [now apply add_rounded | exact H1 | lra].
  - apply rounded_interval; [now apply add_rounded | exact HS | lra].
Qed.

(** The magnitude against the exact length [R0], the sum of squares not
    being tiny. *)
Lemma magnitude_interval (p : Point) (R0 : R) :
  is_finite (magnitude p) = true ->
  0 <= R0 ->
  R0 * R0 = value (m_X p) * value (m_X p) + value (m_Y p) * value (m_Y p)
            + value (m_Z p) * value (m_Z p) ->
  100 * p2 (-1074) <= R0 * R0 * e52 -> 100 * p2 (-1074) <= R0 * e52 ->
  R0 * (1 - 32 / 10 * e52) <= value (magnitude p) <= R0 * (1 + 32 / 10 * e52).
Proof.
  unfold magnitude, Std.sqrt. intros Hm HR0 HT Ht Hr.
  pose proof (sqrt_finite_inv _ Hm) as HS.
  destruct (sumsq_bounds _ _ _ HS) as (Hx & Hy & Hz & Hb).
  assert (plus_class (Prim2SF (m_X p * m_X p + m_Y p * m_Y p + m_Z p * m_Z p)%float)) as Hp.
  { apply sum_squares_plus; now apply finite_is_not_nan. }
  pose proof (plus_class_value _ Hp) as HvS.
  destruct (sqrt_rounded _ HS Hp) as [_ Hrnd].
  pose proof (rounded_interval _ _ Hrnd Hm (sqrt_pos _)) as Hi.
  pose proof (p2_pos (-1074)) as Heta.
  apply (sqrt_interval _ _ _ R0 _ (p2 (-1074)) ltac:(lra) Ht Hr
           ltac:(rewrite HT; exact Hb) (sqrt_pos _) (sqrt_sqrt _ HvS) HR0 eq_refl Hi).
Qed.

Lemma Prim2SF_tolerance :
  Prim2SF (8 * sc_Precision)%float = S754_finite false 4503599627370496 (-101).
Proof. reflexivity. Qed.

Lemma value_tolerance : value (8 * sc_Precision)%float = 8 * e52.
Proof.
  unfold value. rewrite Prim2SF_tolerance, SF2R_finite. unfold sgn.
  change (IZR (Zpos 4503599627370496)) with (IZR (2 ^ 52)).
  rewrite <- (p2_IZR 52) by lia. rewrite Rmult_1_l, <- p2_add.
  change (52 + -101)%Z with (3 + -52)%Z. rewrite p2_add, p2_m52, (p2_IZR 3) by lia.
  simpl. lra.
Qed.

(** A scalar within [7.7 * 2^-52] of 1 passes [EXPECT_NEAR(m, 1, 8 * epsilon)]. *)
Lemma near_one (m : float) :
  is_finite m = true ->
  1 - 77 / 10 * e52 <= value m <= 1 + 77 / 10 * e52 ->
  near m 1%float (8 * sc_Precision)%float = true.
Proof.
  intros Hm Hv. unfold near, Std.fabs.
  pose proof (sub_rounded m 1%float Hm eq_refl) as (_ & Hf & He).
  rewrite value_1 in *.
  pose proof (p2_le 0 1023 ltac:(lia)) as Hbig. rewrite p2_0 in Hbig.
  assert (Rabs (value m - 1) <= 77 / 10 * e52) as Hd by (apply Rabs_le; lra).
  assert (is_finite (m - 1)%float = true) as Hfin by (apply Hf; lra).
  specialize (He Hfin). rewrite p2_m52 in He.
  pose proof p2_m1074_tiny as Ht. pose proof (p2_pos (-1074)).
  apply (leb_value (abs (m - 1)) (8 * sc_Precision)%float);
    [now rewrite is_finite_abs | reflexivity |].
  rewrite value_abs, value_tolerance.
  assert (Rabs (value (m - 1)%float) <= Rabs (value m - 1) + Rabs (value (m - 1)%float - (value m - 1))) as Htri.
  { replace (value (m - 1)%float) with ((value m - 1) + (value (m - 1)%float - (value m - 1))) at 1 by ring.
    apply Rabs_triang. }
  pose proof (Rabs_pos (value m - 1)). lra.
Qed.

(** The rounded quotients of the coordinates by a magnitude [vm] that is
    within [3.2 * 2^-52] of the exact length, and the magnitude of the Point
    they make. *)
Lemma normalized_magnitude (p : Point) :
  (sc_Precision <? magnitude p)%float = true -> is_finite (magnitude p) = true ->
  is_finite (magnitude (mkPoint (m_X p / magnitude p)%float (m_Y p / magnitude p)%float
                                (m_Z p / magnitude p)%float)) = true
  /\ 1 - 77 / 10 * e52
     <= value (magnitude (mkPoint (m_X p / magnitude p)%float (m_Y p / magnitude p)%float
                                  (m_Z p / magnitude p)%float))
     <= 1 + 77 / 10 * e52.
Proof.
  intros Hth Hm.
  pose proof (p2_pos (-1074)) as Heta. pose proof p2_m1074_tiny as Htiny.
  (* the first magnitude *)
  assert (is_finite (m_X p * m_X p + m_Y p * m_Y p + m_Z p * m_Z p)%float = true) as HS
    by (apply sqrt_finite_inv; exact Hm).
  destruct (sumsq_bounds _ _ _ HS) as (Hx & Hy & Hz & Hb).
  set (X := value (m_X p)) in *. set (Y := value (m_Y p)) in *. set (Z := value (m_Z p)) in *.
  set (T := X * X + Y * Y + Z * Z) in *.
  assert (0 <= T) as HT0 by (unfold T; nra).
  set (R0 := R_sqrt.sqrt T).
  assert (0 <= R0) as HR0 by apply sqrt_pos.
  assert (R0 * R0 = T) as HRT by (apply sqrt_sqrt; exact HT0).
  set (vm := value (magnitude p)) in *.
  assert (e52 < vm) as Hvm.
  { apply (ltb_value sc_Precision (magnitude p) eq_refl Hm) in Hth. fold vm in Hth.
    now rewrite value_eps, p2_m52 in Hth. }
  assert (/ 1000000000000000000000000000000000 <= T) as Hfloor.
  { assert (plus_class (Prim2SF (m_X p * m_X p + m_Y p * m_Y p + m_Z p * m_Z p)%float)) as Hp
      by (apply sum_squares_plus; now apply finite_is_not_nan).
    pose proof (plus_class_value _ Hp) as HvS.
    destruct (sqrt_rounded _ HS Hp) as [_ Hrnd].
    pose proof (rounded_interval _ _ Hrnd Hm (sqrt_pos _)) as Hi.
    apply (floor_from_threshold T _ _ vm (p2 (-1074)) (conj (Rlt_le _ _ Heta) Htiny) HT0
             (proj2 Hb) (sqrt_pos _) (sqrt_sqrt _ HvS) (proj2 Hi) Hvm). }
  assert (/ 100000000000000000 <= R0) as HRfloor.
  { destruct (Rle_lt_dec (/ 100000000000000000) R0) as [|Hlt]; [assumption|exfalso].
    assert (R0 * R0 <= / 100000000000000000 * / 100000000000000000)
      by (apply Rmult_le_compat; lra).
    lra. }
  pose proof (magnitude_interval p R0 Hm HR0 HRT ltac:(rewrite HRT; lra) ltac:(lra)) as Hmi.
  fold vm in Hmi.
  (* the quotients *)
  assert (vm <> 0) as Hvm0 by lra.
  set (rho := R0 / vm).
  assert (1 - 33 / 10 * e52 <= rho <= 1 + 33 / 10 * e52) as Hrho.
  { assert (rho * vm = R0) as Hrv by (unfold rho; field; exact Hvm0).
    split; apply Rmult_le_reg_r with vm; try lra; rewrite Hrv; nra. }
  assert (X / R0 * (X / R0) + Y / R0 * (Y / R0) + Z / R0 * (Z / R0) = 1) as Hunit.
  { assert (R0 <> 0) by lra.
    replace (X / R0 * (X / R0) + Y / R0 * (Y / R0) + Z / R0 * (Z / R0))
      with (T / (R0 * R0)) by (unfold T; field; assumption).
    rewrite HRT. apply Rinv_r. lra. }
  assert (forall c : float, is_finite c = true -> value c * value c <= T ->
            bnd 2 (c / magnitude p)%float
            /\ Rabs (value (c / magnitude p)%float - value c / R0 * rho)
               <= e52 * Rabs (value c / R0 * rho) + p2 (-1074)) as Hq.
  { intros c Hc Hle.
    pose proof (div_rounded c (magnitude p) Hc Hm Hvm0) as Hr. fold vm in Hr.
    assert (value c / vm = value c / R0 * rho) as E
      by (unfold rho; field; split; lra).
    rewrite E in Hr.
    assert (Rabs (value c / R0) <= 1) as Hc1.
    { apply square_le; [lra|].
      replace (Rabs (value c / R0) * Rabs (value c / R0)) with (value c * value c / (R0 * R0)).
      - rewrite HRT. apply Rmult_le_reg_r with T; [lra|].
        replace (value c * value c / T * T) with (value c * value c) by (field; lra).
        lra.
      - rewrite <- Rabs_mult, Rabs_pos_eq; [field; lra|].
        replace (value c / R0 * (value c / R0)) with ((value c / R0) ^ 2) by ring.
        apply pow2_ge_0. }
    assert (Rabs (value c / R0 * rho) <= p2 1) as Hb2.
    { rewrite Rabs_mult, (Rabs_pos_eq rho) by lra. rewrite (p2_IZR 1) by lia.
      pose proof (Rabs_pos (value c / R0)). simpl. nra. }
    split.
    - apply (rounded_bnd _ _ 1 Hr); [lia | exact Hb2].
    - destruct Hr as (_ & Hf & He). rewrite p2_m52 in He. apply He, Hf.
      pose proof (p2_lt 1 1023 ltac:(lia)). lra. }
  destruct (Hq (m_X p) Hx ltac:(fold X; unfold T; nra)) as [Bx Ex].
  destruct (Hq (m_Y p) Hy ltac:(fold Y; unfold T; nra)) as [By Ey].
  destruct (Hq (m_Z p) Hz ltac:(fold Z; unfold T; nra)) as [Bz Ez].
  fold X in Ex. fold Y in Ey. fold Z in Ez.
  set (x' := (m_X p / magnitude p)%float) in *.
  set (y' := (m_Y p / magnitude p)%float) in *.
  set (z' := (m_Z p / magnitude p)%float) in *.
  (* the second magnitude *)
  pose proof (normalized_sum _ _ _ rho _ _ _ (p2 (-1074)) Hunit Hrho ltac:(lra) ltac:(lra)
                Ex Ey Ez) as HT'.
  set (T' := value x' * value x' + value y' * value y' + value z' * value z') in *.
  assert (is_finite (magnitude (mkPoint x' y' z')) = true) as Hm'.
  { unfold magnitude, Std.sqrt. cbn [m_X m_Y m_Z].
    assert (bnd 9 (x' * x' + y' * y' + z' * z')%float) as [HS' _].
    { change 9%Z with (7 + 2)%Z. apply add_bnd; [lia| |].
      - change 7%Z with (5 + 2)%Z. apply add_bnd; [lia| |];
          change 5%Z with (2 + 2 + 1)%Z; apply mul_bnd; assumption || lia.
      - apply (bnd_weaken 5); [lia|]. change 5%Z with (2 + 2 + 1)%Z.
        apply mul_bnd; assumption || lia. }
    assert (plus_class (Prim2SF (x' * x' + y' * y' + z' * z')%float)) as Hp'.
    { apply sum_squares_plus; apply finite_is_not_nan; [apply Bx | apply By | apply Bz]. }
    exact (proj1 (sqrt_rounded _ HS' Hp')). }
  split; [exact Hm'|].
  set (R1 := R_sqrt.sqrt T').
  assert (0 <= T') as HT0' by lra.
  assert (0 <= R1) as HR1 by apply sqrt_pos.
  assert (R1 * R1 = T') as HRT' by (apply sqrt_sqrt; exact HT0').
  assert (1 - 45 / 10 * e52 <= R1 <= 1 + 44 / 10 * e52) as HR1b.
  { split; apply square_le; try lra; rewrite ?HRT'; lra. }
  pose proof (magnitude_interval (mkPoint x' y' z') R1 Hm' HR1
                ltac:(cbn [m_X m_Y m_Z]; exact HRT') ltac:(rewrite HRT'; lra) ltac:(lra)) as Hmi'.
  split; nra.
Qed.

End NormalizeAnalysis.

Section NormalizeTheorems.
Import PointOps.

(** C6, as amended.  With [m = p.magnitude()]: when [m] exceeds the
    threshold, [normalize()] is [p] with every coordinate divided by [m];
    when [m] is at or below the threshold, and when [m] is NaN, it is the
    zero vector and nothing is divided.  The magnitude of the result is not
    about 1 when [m] is [+inf]: for a finite [p] whose sum of squares
    overflows every coordinate of the result is a zero and its magnitude is
    0.  For every other [p] of the first case, that is whenever [m] is above
    the threshold and finite, the magnitude of the result is within
    [8 * epsilon] of 1. *)
Theorem normalize_cases (p : Point) :
  ((sc_Precision <? magnitude p) = true ->
     normalize p = mkPoint (m_X p / magnitude p) (m_Y p / magnitude p) (m_Z p / magnitude p))
  /\ ((magnitude p <=? sc_Precision) = true -> normalize p = default)
  /\ (is_nan (magnitude p) = true -> normalize p = default)
  /\ (finite_point p = true -> magnitude p = infinity ->
        magnitude (normalize p) = 0)
  /\ ((sc_Precision <? magnitude p) = true -> is_finite (magnitude p) = true ->
        near (magnitude (normalize p)) 1 (8 * sc_Precision) = true).
Proof.
  split; [|split; [|split; [|split]]].
  - unfold normalize. now intros ->.
  - unfold normalize. intros H. now rewrite (leb_ltb_false _ _ H).
  - unfold normalize. intros H. now rewrite (ltb_nan_false _ _ H).
  - unfold normalize, finite_point. intros Hf Hm. rewrite Hm.
    change (sc_Precision <? infinity) with true. cbv iota.
    apply andb_true_iff in Hf as [Hf Hz]. apply andb_true_iff in Hf as [Hx Hy].
    destruct (div_infinity _ Hx) as [-> | ->], (div_infinity _ Hy) as [-> | ->],
      (div_infinity _ Hz) as [-> | ->]; reflexivity.
  - intros Hth Hm. destruct (normalized_magnitude p Hth Hm) as [Hf Hv].
    unfold normalize. cbv zeta. rewrite Hth. now apply near_one.
Qed.

(** The cases of [normalize_cases] at [(1, 2, 2)], at [(2^600, 0, 0)] and at
    [(6.0, 5.7, 2.4)], whose normalization has magnitude
    [0.99999999999999967], more than one epsilon from 1. *)
Lemma normalize_cases_witness :
  normalize Scenarios.p122 = mkPoint (1 / 3) (2 / 3) (2 / 3)
  /\ magnitude (normalize Scenarios.huge_x) = 0
  /\ near (magnitude (normalize Scenarios.p_6_57_24)) 1 (8 * sc_Precision) = true
  /\ near (magnitude (normalize Scenarios.p_6_57_24)) 1 sc_Precision = false.
Proof.
  split; [|split; [|split]].
  - apply (proj1 (normalize_cases Scenarios.p122)). reflexivity.
  - apply (proj1 (proj2 (proj2 (proj2 (normalize_cases Scenarios.huge_x)))));
      reflexivity.
  - apply (proj2 (proj2 (proj2 (proj2 (normalize_cases Scenarios.p_6_57_24)))));
      reflexivity.
  - reflexivity.
Defined.

End NormalizeTheorems.
